(** * linebased: tokenizer and template/include expansion engine

    A shallow embedding of the Go package [blake.io/linebased]: the
    line tokenizer ([Decoder], [parseBody], [makeExpr]), the argument
    helpers ([cutField], [ParseArgs], [Args.At]), source reconstruction
    ([Expanded.String]) and the expansion engine ([ExpandingDecoder]
    with [expand], [expandTemplate], [define], the call stack and the
    include stack).

    Conventions.
    - A Go [string] is a byte string: Rocq's [string] (a list of
      8-bit [ascii]).  Functions of Go's [strings], [unicode], [os] and
      [path] packages are modelled next to their callers and named
      after them.
    - A Go [int] that only counts lines or arguments is a [Z]; no
      claim below depends on 64-bit wrap-around (a line counter would
      need 2^63 reads to wrap).
    - An input stream is an in-memory byte string (as given to
      [strings.NewReader] or stored in an [fstest.MapFS]); its only
      read error is [io.EOF].
    - Mutable receivers become explicit state passing: every method
      returns the new state next to its result.
    - Go's unbounded loops and recursion are bounded: the loops of
      the tokenizer recurse on the unread lines, and the engine takes
      a recursion budget; running out of it is the outcome
      [OutOfFuel], told apart from every outcome Go has, and the
      results below do not depend on the budget ([Decode_mono],
      [expand_returns]). *)

From stdpp Require Import gmap strings list fin_maps.
From Stdlib Require Import ZArith Ascii Lia.
From Stdlib Require String DecimalString.

Set Warnings "-register-all".

Local Open Scope Z_scope.

(* ===================================================================== *)
(** * Byte strings *)
(* ===================================================================== *)

Module Str.

Definition nl : ascii := "010"%char.
Definition tab : ascii := "009"%char.
Definition space : ascii := " "%char.

Definition NL : string := String nl "".

(** [len(s)] *)
Definition len (s : string) : nat := String.length s.

(** [s[n:]] and [s[:n]] *)
Fixpoint drop (n : nat) (s : string) : string :=
  match n, s with
  | O, _ => s
  | S k, String _ rest => drop k rest
  | S _, EmptyString => EmptyString
  end.

Fixpoint take (n : nat) (s : string) : string :=
  match n, s with
  | O, _ => EmptyString
  | S k, String c rest => String c (take k rest)
  | S _, EmptyString => EmptyString
  end.

Definition isEmpty (s : string) : bool :=
  match s with EmptyString => true | _ => false end.

(** membership of a byte in a cutset of ASCII bytes *)
Fixpoint inSet (c : ascii) (chars : string) : bool :=
  match chars with
  | EmptyString => false
  | String x rest => Ascii.eqb c x || inSet c rest
  end.

(** [strings.HasPrefix] *)
Definition HasPrefix (s pre : string) : bool := String.prefix pre s.

(** [strings.HasSuffix] *)
Fixpoint HasSuffix (s suffix : string) : bool :=
  String.eqb s suffix ||
  match s with
  | EmptyString => false
  | String _ rest => HasSuffix rest suffix
  end.

(** [strings.TrimSuffix] *)
Definition TrimSuffix (s suffix : string) : string :=
  if HasSuffix s suffix then take (len s - len suffix)%nat s else s.

(** [strings.IndexAny] for a set of ASCII bytes; [None] is Go's [-1]. *)
Fixpoint IndexAny (s chars : string) : option nat :=
  match s with
  | EmptyString => None
  | String c rest =>
      if inSet c chars then Some O else option_map S (IndexAny rest chars)
  end.

(** [strings.ContainsAny] for a set of ASCII bytes *)
Definition ContainsAny (s chars : string) : bool :=
  match IndexAny s chars with Some _ => true | None => false end.

(** [strings.Contains] *)
Fixpoint Contains (s substr : string) : bool :=
  String.prefix substr s ||
  match s with
  | EmptyString => false
  | String _ rest => Contains rest substr
  end.

(** [strings.TrimLeft] for a cutset of ASCII bytes *)
Fixpoint TrimLeft (s cutset : string) : string :=
  match s with
  | EmptyString => EmptyString
  | String c rest => if inSet c cutset then TrimLeft rest cutset else s
  end.

(** [strings.Cut(s, "\n")]: text before and after the first newline *)
Fixpoint CutNL (s : string) : string * string * bool :=
  match s with
  | EmptyString => (EmptyString, EmptyString, false)
  | String c rest =>
      if Ascii.eqb c nl then (EmptyString, rest, true)
      else let '(before, after, found) := CutNL rest in
           (String c before, after, found)
  end.

(** ** [unicode.IsSpace] on UTF-8 text

    Go's [TrimSpace], [TrimLeftFunc], [IndexFunc] and [Fields] decode
    runes and test [unicode.IsSpace].  A rune is white space when it
    is one of U+0009..U+000D, U+0020, U+0085, U+00A0, U+1680,
    U+2000..U+200A, U+2028, U+2029, U+202F, U+205F, U+3000.  Go
    rejects over-long encodings, so a white-space rune occurs in a
    string exactly as its one canonical encoding; [wsWidth] is the
    width of the white-space rune encoded at the head of [s], or [0]
    when the head is any other rune or an invalid byte. *)

Definition byte (c : ascii) : N := N_of_ascii c.

Definition spaceWidth (c1 : ascii) (c2 c3 : option ascii) : nat :=
  let b1 := byte c1 in
  if ((9 <=? b1) && (b1 <=? 13) || (b1 =? 32))%N then 1%nat
  else match c2 with
  | None => O
  | Some c2 =>
      let b2 := byte c2 in
      if ((b1 =? 194) && ((b2 =? 133) || (b2 =? 160)))%N then 2%nat
      else match c3 with
      | None => O
      | Some c3 =>
          let b3 := byte c3 in
          if ((b1 =? 225) && (b2 =? 154) && (b3 =? 128)            (* U+1680 *)
              || (b1 =? 226) && (b2 =? 128) &&
                   ((128 <=? b3) && (b3 <=? 138)                   (* U+2000..U+200A *)
                    || (b3 =? 168) || (b3 =? 169) || (b3 =? 175))   (* U+2028 U+2029 U+202F *)
              || (b1 =? 226) && (b2 =? 129) && (b3 =? 159)         (* U+205F *)
              || (b1 =? 227) && (b2 =? 128) && (b3 =? 128))%N      (* U+3000 *)
          then 3%nat else O
      end
  end.

Definition head (s : string) : option ascii :=
  match s with EmptyString => None | String c _ => Some c end.

Definition wsWidth (s : string) : nat :=
  match s with
  | EmptyString => O
  | String c1 rest => spaceWidth c1 (head rest) (head (drop 1 rest))
  end.

(** [strings.TrimLeftFunc(s, unicode.IsSpace)]: [skip] counts the
    bytes of the current white-space rune still to be dropped. *)
Fixpoint trimLeftSpaceFrom (skip : nat) (s : string) : string :=
  match s with
  | EmptyString => EmptyString
  | String _ rest =>
      match skip with
      | S k => trimLeftSpaceFrom k rest
      | O => match wsWidth s with
             | O => s
             | S k => trimLeftSpaceFrom k rest
             end
      end
  end.

Definition TrimLeftSpace (s : string) : string := trimLeftSpaceFrom 0 s.

(** [strings.TrimRightFunc(s, unicode.IsSpace)]: the last rune of a
    string is white space exactly when the string ends with that
    rune's encoding; trailing white-space runes are removed from the
    right. *)
Definition isSpaceRune (s : string) : bool :=
  match wsWidth s with
  | O => false
  | S _ => Nat.eqb (wsWidth s) (len s)
  end.

Fixpoint TrimRightSpace (s : string) : string :=
  match s with
  | EmptyString => EmptyString
  | String c rest =>
      let kept := TrimRightSpace rest in
      if isSpaceRune (String c kept) then EmptyString else String c kept
  end.

(** [strings.TrimSpace] *)
Definition TrimSpace (s : string) : string :=
  TrimRightSpace (TrimLeftSpace s).

(** [strings.IndexFunc(s, unicode.IsSpace)]; [None] is Go's [-1]. *)
Fixpoint IndexSpace (s : string) : option nat :=
  match s with
  | EmptyString => None
  | String _ rest =>
      match wsWidth s with
      | O => option_map S (IndexSpace rest)
      | S _ => Some O
      end
  end.

(** [strings.Fields]: the maximal runs of non-white-space bytes.
    [cur] is the field being read, [skip] as in
    [trimLeftSpaceFrom]. *)
Fixpoint fieldsFrom (skip : nat) (cur : string) (s : string) : list string :=
  let flush := if isEmpty cur then [] else [cur] in
  match s with
  | EmptyString => flush
  | String c rest =>
      match skip with
      | S k => fieldsFrom k cur rest
      | O => match wsWidth s with
             | O => fieldsFrom O (cur +:+ String c "") rest
             | S k => flush ++ fieldsFrom k "" rest
             end
      end
  end.

Definition Fields (s : string) : list string := fieldsFrom 0 "" s.

(** [strings.TrimRight] for a cutset of ASCII bytes *)
Fixpoint TrimRight (s cutset : string) : string :=
  match s with
  | EmptyString => EmptyString
  | String c rest =>
      let kept := TrimRight rest cutset in
      if isEmpty kept && inSet c cutset then EmptyString
      else String c kept
  end.

(** [strings.ReplaceAll(s, old, new)] for a one-byte [old] *)
Fixpoint ReplaceAllByte (s : string) (old : ascii) (new : string) : string :=
  match s with
  | EmptyString => EmptyString
  | String c rest =>
      (if Ascii.eqb c old then new else String c "")
        +:+ ReplaceAllByte rest old new
  end.

(** [%d] *)
Definition itoa (n : Z) : string :=
  DecimalString.NilEmpty.string_of_int (Z.to_int n).

End Str.

Arguments Str.HasSuffix : simpl never.
Arguments Str.HasPrefix : simpl never.
Arguments Str.TrimSuffix : simpl never.
Arguments Str.TrimSpace : simpl never.
Arguments Str.TrimLeftSpace : simpl never.
Arguments Str.itoa : simpl never.

(* ===================================================================== *)
(** * The tokenizer *)
(* ===================================================================== *)

(** [type Expression struct] *)
Record Expression := mkExpression {
  Line : Z;
  Comment : string;
  Name : string;
  Body : string
}.

(** The errors a [Decoder] returns: [io.EOF] and [*SyntaxError]. *)
Inductive DecodeError :=
| DecEOF
| SyntaxError (Line : Z) (Message : string).

(** [type Decoder struct].  The [bufio.Reader] is its unread input,
    kept as the lines [ReadString('\n')] will return: every line but
    possibly the last ends with a newline. *)
Record Decoder := mkDecoder {
  r : list string;
  line : Z
}.

(** the lines of an input, each with its terminator *)
Fixpoint lines_of (s : string) : list string :=
  match s with
  | EmptyString => []
  | String c rest =>
      if Ascii.eqb c Str.nl then String c "" :: lines_of rest
      else match lines_of rest with
           | [] => [String c ""]
           | l :: ls => String c l :: ls
           end
  end.

(** [func NewDecoder] *)
Definition NewDecoder (input : string) : Decoder :=
  {| r := lines_of input; line := 0 |}.

(** [func parseBody] *)
Definition parseBody (body : string) : string * string :=
  match Str.IndexAny body (String Str.space (String Str.tab Str.NL)) with
  | None => (Str.TrimSpace body, EmptyString)
  | Some i =>
      (Str.TrimSpace (Str.take i body),
       Str.TrimLeft (Str.drop i body) (String Str.space (String Str.tab "")))
  end.

(** [func makeExpr] *)
Definition makeExpr (line : Z) (comment body : string) : Expression :=
  let '(name, tail) := parseBody body in
  {| Line := line; Comment := comment; Name := name; Body := tail |}.

(** [func (d *Decoder) readLine]: the line, whether [ReadString]
    reported [io.EOF], and the decoder after the read. *)
Definition readLine (d : Decoder) : string * bool * Decoder :=
  match r d with
  | [] => (EmptyString, true, {| r := []; line := line d + 1 |})
  | l :: rest =>
      (l, negb (Str.HasSuffix l Str.NL), {| r := rest; line := line d + 1 |})
  end.

(** [func (d *Decoder) peek]: [None] when the input is exhausted. *)
Definition peek (d : Decoder) : option ascii :=
  match r d with
  | [] => None
  | l :: _ => Str.head l
  end.

(** The inner loop of [Decode]: continuation lines.  [rs] and [ln] are
    the decoder's unread lines and line counter. *)
Fixpoint readContinuation (rs : list string) (ln : Z) (body : string)
  : string * Decoder :=
  match rs with
  | String c tail as l :: rest =>
      if Ascii.eqb c Str.tab then                    (* b == '\t' after peek *)
        let body := body +:+ tail in                 (* line[1:] *)
        if Str.HasSuffix l Str.NL
        then readContinuation rest (ln + 1) body
        else (body, {| r := rest; line := ln + 1 |}) (* io.EOF: break *)
      else (body, {| r := rs; line := ln |})
  | _ => (body, {| r := rs; line := ln |})
  end.

Definition unexpectedWhitespace : string :=
  "unexpected whitespace at start of line".

(** The outer loop of [Decode]; [comments] is the comment buffer. *)
Fixpoint decodeLoop (rs : list string) (ln : Z) (comments : string)
  : (Expression + DecodeError) * Decoder :=
  let ln1 := ln + 1 in                               (* readLine: d.line++ *)
  match rs with
  | String c _ as l :: rest =>
      let d1 := {| r := rest; line := ln1 |} in
      if Ascii.eqb c Str.nl then
        (inl (makeExpr ln1 comments l), d1)
      else if Ascii.eqb c "#"%char then
        decodeLoop rest ln1 (comments +:+ l)
      else if Ascii.eqb c Str.space || Ascii.eqb c Str.tab then
        (inr (SyntaxError ln1 unexpectedWhitespace), d1)
      else
        let '(body, d2) := readContinuation rest ln1 l in
        (inl (makeExpr ln1 comments body), d2)
  | _ =>                                             (* err != nil && line == "" *)
      let d1 := {| r := List.tail rs; line := ln1 |} in
      if Str.isEmpty comments then (inr DecEOF, d1)
      else
        let exprLine := if Str.HasSuffix comments Str.NL then ln1 else ln1 - 1 in
        (inl (makeExpr exprLine comments EmptyString), d1)
  end.

(** [func (d *Decoder) Decode] *)
Definition Decoder_Decode (d : Decoder) : (Expression + DecodeError) * Decoder :=
  decodeLoop (r d) (line d) EmptyString.

(* ===================================================================== *)
(** * Expanded expressions, arguments and source reconstruction *)
(* ===================================================================== *)

(** [type Expanded struct]: an [Expression] with its file and the
    call stack of the template expansions that produced it. *)
Inductive Expanded := mkExpanded {
  Expr : Expression;
  File : string;
  Stack : list Expanded
}.

Definition withName (e : Expanded) (name : string) : Expanded :=
  {| Expr := {| Line := Line (Expr e); Comment := Comment (Expr e);
                Name := name; Body := Body (Expr e) |};
     File := File e; Stack := Stack e |}.

Definition withBody (e : Expanded) (body : string) : Expanded :=
  {| Expr := {| Line := Line (Expr e); Comment := Comment (Expr e);
                Name := Name (Expr e); Body := body |};
     File := File e; Stack := Stack e |}.

Definition withStack (e : Expanded) (st : list Expanded) : Expanded :=
  {| Expr := Expr e; File := File e; Stack := st |}.

(** [func (e *Expanded) String] *)
Definition Expanded_String (e : Expanded) : string :=
  let name := Name (Expr e) in
  let tail := Str.TrimSuffix (Body (Expr e)) Str.NL in
  if Str.HasPrefix tail Str.NL then
    name +:+ tail +:+ Str.NL
  else
    let tail := Str.TrimLeftSpace tail in
    if Str.isEmpty tail then name +:+ Str.NL
    else name +:+ String Str.space tail +:+ Str.NL.

(** [cmp.Or(e.File, "<unknown>")] *)
Definition fileOrUnknown (e : Expanded) : string :=
  if Str.isEmpty (File e) then "<unknown>" else File e.

(** [func (e *Expanded) Where] *)
Definition Expanded_Where (e : Expanded) : string :=
  let file := fileOrUnknown e in
  let ln := Str.itoa (Line (Expr e)) in
  match Stack e with
  | bottom :: _ =>
      let caller := List.last (Stack e) bottom in
      file +:+ ":" +:+ Str.itoa (Line (Expr bottom)) +:+ ": "
           +:+ Name (Expr caller) +:+ "@" +:+ ln
  | [] => file +:+ ":" +:+ ln +:+ ": main@" +:+ ln
  end.

(** [func (e *Expanded) locationForError] *)
Definition locationForError (e : Expanded) : string :=
  match Stack e with
  | [] =>
      if Line (Expr e) =? 0 then fileOrUnknown e
      else fileOrUnknown e +:+ ":" +:+ Str.itoa (Line (Expr e))
  | _ => Expanded_Where e
  end.

(** [func cutField] *)
Definition cutField (s : string) : string * string :=
  let s := Str.TrimLeftSpace s in
  match Str.IndexSpace s with
  | None => (s, EmptyString)
  | Some i => (Str.take i s, Str.TrimLeftSpace (Str.drop i s))
  end.

(** [type Args []string] *)
Abbreviation Args := (list string) (only parsing).

(** The loop of [ParseArgs]; every iteration shortens [s], so
    [len s] iterations are enough to reach [s == ""]. *)
Fixpoint parseArgsLoop (iter : nat) (s : string) (n : Z) (unlimited : bool) : Args :=
  match iter with
  | O => []
  | S iter =>
      if Str.isEmpty s then []
      else if (n =? 1) && negb unlimited then [s]
      else let '(arg, s) := cutField s in
           arg :: parseArgsLoop iter s (n - 1) unlimited
  end.

(** [func ParseArgs] *)
Definition ParseArgs (s : string) (n : Z) : Args :=
  if n =? 0 then []
  else parseArgsLoop (Str.len s) s n (n <? 0).

(** [func (a Args) At].  The slice access [a[i]] panics when [i] is
    out of range: [None] stands for that panic. *)
Definition Args_At (a : Args) (i : Z) : option string :=
  if (i <? 0) || (Z.of_nat (length a) <=? i) then Some EmptyString
  else match a !! Z.to_nat i with
       | Some s => Some (Str.TrimSuffix s Str.NL)
       | None => None
       end.

(* ===================================================================== *)
(** * [os.Expand] and [path.Join] *)
(* ===================================================================== *)

Module Os.

Definition isShellSpecialVar (c : ascii) : bool :=
  Str.inSet c "*#$@!?-0123456789".

Definition isAlphaNum (c : ascii) : bool :=
  let b := Str.byte c in
  ((b =? 95) || (48 <=? b) && (b <=? 57)
   || (97 <=? b) && (b <=? 122) || (65 <=? b) && (b <=? 90))%N.

Fixpoint scanAlphaNum (s : string) : nat :=
  match s with
  | String c rest => if isAlphaNum c then S (scanAlphaNum rest) else O
  | EmptyString => O
  end.

Fixpoint indexByte (s : string) (c : ascii) : option nat :=
  match s with
  | EmptyString => None
  | String x rest =>
      if Ascii.eqb x c then Some O else option_map S (indexByte rest c)
  end.

(** [getShellName]: the name that begins [s] (the text after a
    dollar sign) and the number of bytes it takes. *)
Definition getShellName (s : string) : string * nat :=
  match s with
  | EmptyString => (EmptyString, O)
  | String c rest =>
      if Ascii.eqb c "{"%char then
        match rest with
        | String c1 (String c2 _) =>
            if isShellSpecialVar c1 && Ascii.eqb c2 "}"%char
            then (String c1 "", 3%nat)
            else match indexByte rest "}"%char with
                 | Some O => (EmptyString, 2%nat)       (* eat "${}" *)
                 | Some k => (Str.take k rest, (k + 2)%nat)
                 | None => (EmptyString, 1%nat)         (* eat "${" *)
                 end
        | _ =>
            match indexByte rest "}"%char with
            | Some O => (EmptyString, 2%nat)
            | Some k => (Str.take k rest, (k + 2)%nat)
            | None => (EmptyString, 1%nat)
            end
        end
      else if isShellSpecialVar c then (String c "", 1%nat)
      else let i := scanAlphaNum s in (Str.take i s, i)
  end.

(** [os.Expand].  The Go [mapping] is a closure over mutable
    variables, so it is a state transformer here; [skip] is the
    number of bytes the loop's [j += w] still has to pass over. *)
Fixpoint expandFrom {St : Type} (mapping : string -> St -> string * St)
    (skip : nat) (s : string) (st : St) : string * St :=
  match s with
  | EmptyString => (EmptyString, st)
  | String c rest =>
      match skip with
      | S k => expandFrom mapping k rest st
      | O =>
          if Ascii.eqb c "$"%char && negb (Str.isEmpty rest) then
            let '(name, w) := getShellName rest in
            let '(piece, st) :=
              if Str.isEmpty name then
                (if Nat.ltb 0 w then EmptyString else String c "", st)
              else mapping name st in
            let '(out, st) := expandFrom mapping w rest st in
            (piece +:+ out, st)
          else
            let '(out, st) := expandFrom mapping O rest st in
            (String c out, st)
      end
  end.

Definition Expand {St : Type} (s : string)
    (mapping : string -> St -> string * St) (st : St) : string * St :=
  expandFrom mapping O s st.

End Os.

Module Path.

Definition slash : ascii := "/"%char.
Definition dot : ascii := "."%char.

Definition endsElement (s : string) : bool :=
  match s with
  | EmptyString => true
  | String c _ => Ascii.eqb c slash
  end.

(** Backtracking in [path.Clean]: [out.w--], repeated while
    [out.w > dotdot] and the byte just dropped is not a separator. *)
Fixpoint backtrack (fuel : nat) (out : string) (dotdot : nat) : string :=
  match fuel with
  | O => out
  | S fuel =>
      let w := (Str.len out - 1)%nat in
      let dropped := Str.head (Str.drop w out) in
      let out := Str.take w out in
      if Nat.ltb dotdot w &&
         negb (match dropped with Some c => Ascii.eqb c slash | None => true end)
      then backtrack fuel out dotdot
      else out
  end.

(** The loop of [path.Clean].  [inElem] holds while the bytes of a
    path element are being copied (Go's inner [for] of the default
    case). *)
Fixpoint cleanLoop (rooted inElem : bool) (p out : string) (dotdot : nat) : string :=
  match p with
  | EmptyString => out
  | String c rest =>
      if Ascii.eqb c slash then cleanLoop rooted false rest out dotdot
      else if inElem then
        cleanLoop rooted true rest (out +:+ String c "") dotdot
      else if Ascii.eqb c dot && endsElement rest then
        cleanLoop rooted false rest out dotdot
      else
        let element :=
          let w := Str.len out in
          let out := if (rooted && negb (Nat.eqb w 1)) || (negb rooted && negb (Nat.eqb w 0))
                     then out +:+ String slash "" else out in
          cleanLoop rooted true rest (out +:+ String c "") dotdot in
        match rest with
        | String c2 rest2 =>
            if Ascii.eqb c dot && Ascii.eqb c2 dot && endsElement rest2 then
              let w := Str.len out in
              if Nat.ltb dotdot w then
                cleanLoop rooted false rest2 (backtrack w out dotdot) dotdot
              else if negb rooted then
                let out := if Nat.ltb 0 w then out +:+ String slash "" else out in
                let out := out +:+ ".." in
                cleanLoop rooted false rest2 out (Str.len out)
              else cleanLoop rooted false rest2 out dotdot
            else element
        | EmptyString => element
        end
  end.

(** [path.Clean] *)
Definition Clean (p : string) : string :=
  match p with
  | EmptyString => "."
  | String c _ =>
      let rooted := Ascii.eqb c slash in
      let out := if rooted
                 then cleanLoop true false p (String slash "") 1
                 else cleanLoop false false p EmptyString 0 in
      if Str.isEmpty out then "." else out
  end.

(** [path.Join] of two elements *)
Definition Join (a b : string) : string :=
  if Str.isEmpty a && Str.isEmpty b then EmptyString
  else if Str.isEmpty a then Clean b
  else if Str.isEmpty b then Clean a
  else Clean (a +:+ String slash b).

End Path.

(* ===================================================================== *)
(** * Errors *)
(* ===================================================================== *)

(** The underlying causes the engine wraps into an [*ExpressionError]:
    one constructor for each [errors.New] / [fmt.Errorf] of
    expander.go, carrying the values its message is formatted from,
    and [OpenError] for whatever error [fsys.Open] returned. *)
Inductive Cause :=
| SyntaxMessage (msg : string)
| DefineMissingName
| DefineInvalidName (name : string)
| TemplateRedefined (name prevFile : string) (prevLine : Z)
| IncludeMissingFilename
| IncludeHasSlash (path : string)
| IncludeHasExtension (path : string)
| IncludeCycle (chain : string)
| OpenError (msg : string)
| RecursionDetected (msg : string)
| ArgumentCount (name : string) (want got : Z)
| UnknownParameter (name : string)
| NestedDefine (tname text : string).

(** The values of Go's [error] the engine returns. *)
Inductive error :=
| io_EOF
| ExpressionError (e : Expanded) (Err : Cause).

(** The outcome of a call: a value, an error, a Go panic, or the
    exhaustion of the recursion budget of this model (Go itself has no
    such budget). *)
Inductive result (E A : Type) :=
| Ok (a : A)
| Err (e : E)
| Panic
| OutOfFuel.
Arguments Ok {E A} a.
Arguments Err {E A} e.
Arguments Panic {E A}.
Arguments OutOfFuel {E A}.

Section ErrorText.

(** [strconv.Quote], the [%q] verb *)
Variable Quote : string -> string.

Definition Cause_Error (c : Cause) : string :=
  match c with
  | SyntaxMessage msg => msg
  | DefineMissingName => "define: missing name argument"
  | DefineInvalidName name =>
      "define: name contains invalid characters: " +:+ Quote name
  | TemplateRedefined name prevFile prevLine =>
      "template " +:+ Quote name +:+ " redefined; previous define: "
        +:+ prevFile +:+ ":" +:+ Str.itoa prevLine
  | IncludeMissingFilename => "include: missing filename"
  | IncludeHasSlash path =>
      "include: path " +:+ Quote path
        +:+ " contains '/'; only root-level includes are allowed"
  | IncludeHasExtension path =>
      "include: path " +:+ Quote path
        +:+ " has .linebased extension; the extension is not required and will be added automatically"
  | IncludeCycle chain => "include cycle detected: " +:+ chain
  | OpenError msg => msg
  | RecursionDetected msg => msg
  | ArgumentCount name want got =>
      "template " +:+ Quote name +:+ " expects " +:+ Str.itoa want
        +:+ " arguments, got " +:+ Str.itoa got
  | UnknownParameter name => "unknown parameter reference: " +:+ Quote name
  | NestedDefine tname text =>
      "expansion of " +:+ Quote tname
        +:+ " contains illegal nested define: " +:+ Quote text
  end.

(** [func (e *ExpressionError) Error], and [io.EOF.Error()] *)
Definition Error (e : error) : string :=
  match e with
  | io_EOF => "EOF"
  | ExpressionError x c => locationForError x +:+ ": " +:+ Cause_Error c
  end.

End ErrorText.

(* ===================================================================== *)
(** * The expansion engine *)
(* ===================================================================== *)

(** [type template struct] *)
Record template := mkTemplate {
  decl : Expanded;            (* the embedded Expanded: the define expression *)
  tname : string;             (* name *)
  params : list string;
  tbody : string              (* body *)
}.

(** [type stack struct] *)
Record stack := mkStack {
  frames : list Expanded;
  seen : gmap string bool
}.

(** [type decoderFrame struct] *)
Record decoderFrame := mkFrame {
  dec : Decoder;
  file : string
}.

(** [fs.FS]: [Open] gives the contents of the named file, or the text
    of the error it failed with. *)
Definition FS := string -> string + string.

(** [fstest.MapFS]: a missing file fails with an [*fs.PathError]. *)
Definition MapFS (files : list (string * string)) : FS :=
  fun name =>
    match List.find (fun kv => String.eqb (fst kv) name) files with
    | Some kv => inl (snd kv)
    | None => inr ("open " +:+ name +:+ ": file does not exist")
    end.

(** [type ExpandingDecoder struct] *)
Record ExpandingDecoder := mkED {
  fsys : FS;
  defs : gmap string template;
  root : string;
  decoderStack : list decoderFrame;
  pending : list Expanded;
  callStack : stack;
  includeStack : list string;
  err : option error
}.

Definition set_defs (d : ExpandingDecoder) (v : gmap string template) :=
  mkED (fsys d) v (root d) (decoderStack d) (pending d) (callStack d)
       (includeStack d) (err d).
Definition set_root (d : ExpandingDecoder) (v : string) :=
  mkED (fsys d) (defs d) v (decoderStack d) (pending d) (callStack d)
       (includeStack d) (err d).
Definition set_decoderStack (d : ExpandingDecoder) (v : list decoderFrame) :=
  mkED (fsys d) (defs d) (root d) v (pending d) (callStack d)
       (includeStack d) (err d).
Definition set_pending (d : ExpandingDecoder) (v : list Expanded) :=
  mkED (fsys d) (defs d) (root d) (decoderStack d) v (callStack d)
       (includeStack d) (err d).
Definition set_callStack (d : ExpandingDecoder) (v : stack) :=
  mkED (fsys d) (defs d) (root d) (decoderStack d) (pending d) v
       (includeStack d) (err d).
Definition set_includeStack (d : ExpandingDecoder) (v : list string) :=
  mkED (fsys d) (defs d) (root d) (decoderStack d) (pending d) (callStack d)
       v (err d).
Definition set_err (d : ExpandingDecoder) (v : option error) :=
  mkED (fsys d) (defs d) (root d) (decoderStack d) (pending d) (callStack d)
       (includeStack d) v.

(** [func NewExpandingDecoder] *)
Definition NewExpandingDecoder (name : string) (fsys : FS) : ExpandingDecoder :=
  let d := {| fsys := fsys; defs := ∅; root := "";
              decoderStack := []; pending := [];
              callStack := {| frames := []; seen := ∅ |};
              includeStack := []; err := None |} in
  match fsys name with
  | inr msg =>
      set_err d (Some (ExpressionError
        {| Expr := {| Line := 1; Comment := ""; Name := ""; Body := "" |};
           File := name; Stack := [] |} (OpenError msg)))
  | inl input =>
      set_includeStack
        (set_decoderStack d [ {| dec := NewDecoder input; file := name |} ])
        [name]
  end.

(** [func (d *ExpandingDecoder) SetRoot] *)
Definition SetRoot (d : ExpandingDecoder) (root : string) : ExpandingDecoder :=
  set_root d root.

(** [func (d *ExpandingDecoder) filePath] *)
Definition filePath (d : ExpandingDecoder) (name : string) : string :=
  Path.Join (root d) name.

(** ** The call stack *)

(** [func (s *stack) push]: the frame is appended and the name marked
    before the result says whether the name was new. *)
Definition stack_push (s : stack) (expr : Expanded) : bool * stack :=
  let name := Name (Expr expr) in
  let initial := negb (default false (seen s !! name)) in
  (initial, {| frames := frames s ++ [expr]; seen := <[name := true]> (seen s) |}).

(** [func (s *stack) pop]; [None] is the panic on an empty stack. *)
Definition stack_pop (s : stack) : option (Expanded * stack) :=
  match List.rev (frames s) with
  | [] => None
  | expr :: _ =>
      Some (expr, {| frames := List.removelast (frames s);
                     seen := delete (Name (Expr expr)) (seen s) |})
  end.

(** [func (s *stack) framesCopy] *)
Definition framesCopy (s : stack) : list Expanded := frames s.

(** [func writeStack] into a [strings.Builder] *)
Definition writeStack (prefix : string) (frames : list Expanded) : string :=
  List.fold_left
    (fun b expr => b +:+ prefix +:+ Expanded_Where expr +:+ "> "
                     +:+ Expanded_String expr)
    frames EmptyString.

(** ** The include stack *)

(** [func (d *ExpandingDecoder) pushInclude] *)
Definition pushInclude (d : ExpandingDecoder) (name : string)
  : bool * ExpandingDecoder :=
  if existsb (String.eqb name) (includeStack d) then (false, d)
  else (true, set_includeStack d (includeStack d ++ [name])).

(** [func (d *ExpandingDecoder) popInclude] *)
Definition popInclude (d : ExpandingDecoder) : ExpandingDecoder :=
  match includeStack d with
  | [] => d
  | _ => set_includeStack d (List.removelast (includeStack d))
  end.

(** [func (d *ExpandingDecoder) includeCycle] *)
Definition includeCycle (d : ExpandingDecoder) (next : string) : string :=
  List.fold_left (fun b name => b +:+ name +:+ " -> ") (includeStack d)
                 EmptyString
  +:+ next.

(** ** Definitions *)

(** [func makeTemplate] *)
Definition makeTemplate (decl : Expanded) : result Cause template :=
  if negb (String.eqb (Name (Expr decl)) "define") then Panic
  else
    let '(head, body, _) := Str.CutNL (Body (Expr decl)) in
    let '(name, rest) := cutField head in
    if Str.isEmpty name then Err DefineMissingName
    else if Str.ContainsAny name
              (String Str.space (String "013" (String "011" (String "012" ""))))
    then Err (DefineInvalidName name)
    else Ok {| decl := decl; tname := name;
               params := Str.Fields rest; tbody := body |}.

(** [func (d *ExpandingDecoder) define] *)
Definition define (d : ExpandingDecoder) (expr : Expanded)
  : result Cause unit * ExpandingDecoder :=
  match makeTemplate expr with
  | Ok t =>
      match defs d !! tname t with
      | Some prev =>
          (Err (TemplateRedefined (tname t) (File (decl prev))
                                  (Line (Expr (decl prev)))), d)
      | None => (Ok tt, set_defs d (<[tname t := t]> (defs d)))
      end
  | Err e => (Err e, d)
  | Panic => (Panic, d)
  | OutOfFuel => (OutOfFuel, d)
  end.

(** ** Template expansion *)

(** [slices.Index] *)
Fixpoint slices_Index (l : list string) (x : string) : option nat :=
  match l with
  | [] => None
  | y :: rest =>
      if String.eqb y x then Some O else option_map S (slices_Index rest x)
  end.

(** The closure [getParam] of [expandTemplate]; the captured variable
    [unknownParam] is the state.  [args[i]] is in range because
    [len(args) == len(t.params)] has been checked. *)
Definition getParam (t : template) (args : Args) (name : string)
    (unknownParam : string) : string * string :=
  match slices_Index (params t) name with
  | Some i => (Str.TrimSuffix (nth i args EmptyString) Str.NL, unknownParam)
  | None =>
      (EmptyString, if Str.isEmpty unknownParam then name else unknownParam)
  end.

Definition Outcome (A : Type) : Type := result error A * ExpandingDecoder.

Section ExpandTemplate.

(** the recursive call [d.expand(expr)] *)
Variable expand : Expanded -> ExpandingDecoder -> Outcome (option Expanded).

(** The [for] loop of [expandTemplate] over the template body.  Every
    iteration but the last takes a line from [dec], so [iter] is
    started above the number of lines of the body. *)
Fixpoint templateLoop (iter : nat) (t : template) (callsite : Expanded)
    (args : Args) (dec : Decoder) (expanded : list Expanded)
    (d : ExpandingDecoder) : Outcome (list Expanded) :=
  match iter with
  | O => (OutOfFuel, d)
  | S iter =>
      match Decoder_Decode dec with
      | (inr DecEOF, _) => (Ok expanded, d)
      | (inr (SyntaxError ln msg), _) =>
          (Err (ExpressionError
                  {| Expr := {| Line := ln; Comment := ""; Name := ""; Body := "" |};
                     File := File (decl t); Stack := [] |}
                  (SyntaxMessage msg)), d)
      | (inl rawExpr, dec) =>
          let '(name, unknownParam) :=
            Os.Expand (Name rawExpr) (getParam t args) EmptyString in
          let '(body, unknownParam) :=
            Os.Expand (Body rawExpr) (getParam t args) unknownParam in
          let expr :=
            {| Expr := {| Line := Line rawExpr; Comment := Comment rawExpr;
                          Name := name; Body := body |};
               File := File (decl t); Stack := [] |} in
          if negb (Str.isEmpty unknownParam) then
            (Err (ExpressionError (decl t) (UnknownParameter unknownParam)), d)
          else if String.eqb name "define" then
            (Err (ExpressionError callsite
                    (NestedDefine (tname t) (Expanded_String expr))), d)
          else
            match expand expr d with
            | (Err e, d) => (Err e, d)
            | (Panic, d) => (Panic, d)
            | (OutOfFuel, d) => (OutOfFuel, d)
            | (Ok None, d) => templateLoop iter t callsite args dec expanded d
            | (Ok (Some res), d) =>
                let res := match Stack res with
                           | [] => withStack res (framesCopy (callStack d))
                           | _ => res
                           end in
                templateLoop iter t callsite args dec (expanded ++ [res]) d
            end
      end
  end.

(** [expandTemplate] after a successful push, up to its [return]. *)
Definition expandTemplateBody (t : template) (callsite : Expanded)
    (d : ExpandingDecoder) : Outcome (option Expanded) :=
  let args := ParseArgs (Body (Expr callsite)) (Z.of_nat (length (params t))) in
  if negb (Nat.eqb (length args) (length (params t))) then
    (Err (ExpressionError callsite
            (ArgumentCount (tname t) (Z.of_nat (length (params t)))
                           (Z.of_nat (length args)))), d)
  else
    match templateLoop (S (length (lines_of (tbody t)))) t callsite args
                       (NewDecoder (tbody t)) [] d with
    | (Ok [], d) => (Ok None, d)
    | (Ok (first :: rest), d) =>
        (Ok (Some first), set_pending d (pending d ++ rest))
    | (Err e, d) => (Err e, d)
    | (Panic, d) => (Panic, d)
    | (OutOfFuel, d) => (OutOfFuel, d)
    end.

(** [func (d *ExpandingDecoder) expandTemplate] *)
Definition expandTemplate (t : template) (callsite : Expanded)
    (d : ExpandingDecoder) : Outcome (option Expanded) :=
  let callsite := withStack callsite (framesCopy (callStack d)) in
  let '(initial, s) := stack_push (callStack d) callsite in
  let d := set_callStack d s in
  if negb initial then
    let msg := Str.TrimSuffix
                 ("recursion detected in template " +:+ Name (Expr callsite)
                    +:+ ":" +:+ Str.NL
                    +:+ writeStack "    " (frames (callStack d)))
                 Str.NL in
    (Err (ExpressionError callsite (RecursionDetected msg)), d)
  else
    let '(res, d) := expandTemplateBody t callsite d in
    match res with
    | OutOfFuel => (OutOfFuel, d)     (* the budget of the model ran out *)
    | _ =>
        (* defer d.callStack.pop() *)
        match stack_pop (callStack d) with
        | Some (_, s) => (res, set_callStack d s)
        | None => (Panic, d)
        end
    end.

End ExpandTemplate.

(** The [case "include"] of [expand] *)
Definition expandInclude (expr : Expanded) (d : ExpandingDecoder)
  : Outcome (option Expanded) :=
  match Args_At (ParseArgs (Body (Expr expr)) 1) 0 with
  | None => (Panic, d)
  | Some includePath =>
      if Str.isEmpty includePath then
        (Err (ExpressionError expr IncludeMissingFilename), d)
      else if Str.Contains includePath "/" then
        (Err (ExpressionError expr (IncludeHasSlash includePath)), d)
      else if Str.HasSuffix includePath ".linebased" then
        (Err (ExpressionError expr (IncludeHasExtension includePath)), d)
      else
        (* Add .linebased extension *)
        let includePath := includePath +:+ ".linebased" in
        let '(pushed, d1) := pushInclude d includePath in
        if negb pushed then
          (Err (ExpressionError expr (IncludeCycle (includeCycle d includePath))), d1)
        else
          match fsys d1 includePath with
          | inr msg => (Err (ExpressionError expr (OpenError msg)), popInclude d1)
          | inl input =>
              (Ok None,
               set_decoderStack d1
                 (decoderStack d1 ++ [ {| dec := NewDecoder input; file := includePath |} ]))
          end
  end.

(** Pass an expression through with a snapshot of the call stack. *)
Definition passThrough (expr : Expanded) (d : ExpandingDecoder)
  : Outcome (option Expanded) :=
  (Ok (Some (withStack expr (framesCopy (callStack d)))), d).

(** [func (d *ExpandingDecoder) expand].  [depth] bounds the nesting
    of template calls: it is spent only when [expand] enters
    [expandTemplate]. *)
Fixpoint expand (depth : nat) (expr : Expanded) (d : ExpandingDecoder)
  : Outcome (option Expanded) :=
  let name := Name (Expr expr) in
  if String.eqb name "define" then
    match define d expr with
    | (Ok _, d) => (Ok None, d)
    | (Err c, d) => (Err (ExpressionError expr c), d)
    | (Panic, d) => (Panic, d)
    | (OutOfFuel, d) => (OutOfFuel, d)
    end
  else if String.eqb name "include" then expandInclude expr d
  else if Str.isEmpty name then (Ok (Some expr), d)
  else
    match defs d !! name with
    | None => passThrough expr d
    | Some t =>
        if Str.isEmpty (tbody t) then passThrough expr d
        else match depth with
             | O => (OutOfFuel, d)
             | S depth => expandTemplate (expand depth) t expr d
             end
    end.

(** ** [Decode] *)

Definition updateTop (ds : list decoderFrame) (dec : Decoder) : list decoderFrame :=
  match List.rev ds with
  | [] => []
  | top :: _ => List.removelast ds ++ [ {| dec := dec; file := file top |} ]
  end.

(** The [for] loop of [ExpandingDecoder.Decode]; [iter] bounds its
    iterations and [depth] is handed to [expand]. *)
Fixpoint decodeExpanded (depth iter : nat) (d : ExpandingDecoder)
  : Outcome Expanded :=
  match iter with
  | O => (OutOfFuel, d)
  | S iter =>
      match pending d with
      | expr :: rest => (Ok expr, set_pending d rest)
      | [] =>
          match List.rev (decoderStack d) with
          | [] => (Err io_EOF, set_err d (Some io_EOF))
          | frame :: _ =>
              match Decoder_Decode (dec frame) with
              | (inr DecEOF, _) =>
                  decodeExpanded depth iter
                    (popInclude (set_decoderStack d (List.removelast (decoderStack d))))
              | (inr (SyntaxError ln msg), dec') =>
                  let e := ExpressionError
                             {| Expr := {| Line := ln; Comment := ""; Name := ""; Body := "" |};
                                File := filePath d (file frame); Stack := [] |}
                             (SyntaxMessage msg) in
                  (Err e, set_err (set_decoderStack d (updateTop (decoderStack d) dec'))
                                  (Some e))
              | (inl rawExpr, dec') =>
                  let d := set_decoderStack d (updateTop (decoderStack d) dec') in
                  let expr := {| Expr := rawExpr; File := filePath d (file frame);
                                 Stack := [] |} in
                  match expand depth expr d with
                  | (Err e, d) => (Err e, set_err d (Some e))
                  | (Ok (Some res), d) => (Ok res, d)
                  | (Ok None, d) => decodeExpanded depth iter d
                  | (Panic, d) => (Panic, d)
                  | (OutOfFuel, d) => (OutOfFuel, d)
                  end
              end
          end
      end
  end.

(** [func (d *ExpandingDecoder) Decode] *)
Definition Decode (fuel : nat) (d : ExpandingDecoder) : Outcome Expanded :=
  match err d with
  | Some e => (Err e, d)
  | None => decodeExpanded fuel fuel d
  end.

(* ===================================================================== *)
(** * Streams of results *)
(* ===================================================================== *)

(** The expressions returned by [n] successive calls of
    [Decoder.Decode], whatever errors come in between. *)
Fixpoint Decoder_calls (n : nat) (d : Decoder) : list Expression :=
  match n with
  | O => []
  | S n =>
      match Decoder_Decode d with
      | (inl e, d') => e :: Decoder_calls n d'
      | (inr _, d') => Decoder_calls n d'
      end
  end.

(** The usual read loop over a [Decoder]: at most [n] calls, stopping
    at the first error. *)
Fixpoint Decoder_stream (n : nat) (d : Decoder)
  : list Expression * option DecodeError :=
  match n with
  | O => ([], None)
  | S n =>
      match Decoder_Decode d with
      | (inl e, d') =>
          let '(es, stop) := Decoder_stream n d' in (e :: es, stop)
      | (inr e, _) => ([], Some e)
      end
  end.

(** The same loop over an [ExpandingDecoder]. *)
Fixpoint Expanding_stream (n fuel : nat) (d : ExpandingDecoder)
  : list Expanded * option (result error unit) :=
  match n with
  | O => ([], None)
  | S n =>
      match Decode fuel d with
      | (Ok e, d') =>
          let '(es, stop) := Expanding_stream n fuel d' in (e :: es, stop)
      | (Err e, _) => ([], Some (Err e))
      | (Panic, _) => ([], Some Panic)
      | (OutOfFuel, _) => ([], Some OutOfFuel)
      end
  end.

(* ===================================================================== *)
(** * Invariants and vocabulary of the statements *)
(* ===================================================================== *)

(** the names of the templates being expanded *)
Definition frameNames (s : stack) : list string :=
  (fun e => Name (Expr e)) <$> frames s.

(** [seen] mirrors the frames: it holds [true] exactly at their names. *)
Definition seen_ok (s : stack) : Prop :=
  forall n : string,
    seen s !! n = if decide (n ∈ frameNames s) then Some true else None.

(** an outcome that is a value, or an error other than the recursion
    error *)
Definition settled {A : Type} (res : result error A) : Prop :=
  match res with
  | Ok _ => True
  | Err (ExpressionError _ (RecursionDetected _)) => False
  | Err _ => True
  | Panic => False
  | OutOfFuel => False
  end.

(** [expand] classifies an expression named [n] as a template call:
    [n] is no builtin, is not blank, and names a template with a body. *)
Definition templateCall (m : gmap string template) (n : string) : Prop :=
  String.eqb n "define" = false /\ String.eqb n "include" = false
  /\ Str.isEmpty n = false
  /\ exists t : template, m !! n = Some t /\ Str.isEmpty (tbody t) = false.

(** The invariant of the call stack within an engine: [seen] mirrors
    the frames, no template is active twice, and every frame is there
    for a template call. *)
Record stack_ok (s : stack) (m : gmap string template) : Prop := {
  ok_seen : seen_ok s;
  ok_nodup : NoDup (frameNames s);
  ok_called : forall n : string, n ∈ frameNames s -> templateCall m n
}.

(** the registered templates that are not being expanded *)
Definition inactive (d : ExpandingDecoder) : nat :=
  (size (defs d) - length (frames (callStack d)))%nat.

(** the annotation the engine adds to a top-level expression *)
Definition annotate (file : string) (e : Expression) : Expanded :=
  {| Expr := e; File := file; Stack := [] |}.

(** how the engine reports the end of the tokenizer's stream *)
Definition wrapDecodeError (file : string) (e : DecodeError) : result error unit :=
  match e with
  | DecEOF => Err io_EOF
  | SyntaxError ln msg =>
      Err (ExpressionError
             {| Expr := {| Line := ln; Comment := ""; Name := ""; Body := "" |};
                File := file; Stack := [] |}
             (SyntaxMessage msg))
  end.

(** An engine that reads one file and has met no [define]. *)
Record plain (d : ExpandingDecoder) (dec0 : Decoder) (name : string) : Prop := {
  plain_defs : defs d = ∅;
  plain_pending : pending d = [];
  plain_callStack : callStack d = {| frames := []; seen := ∅ |};
  plain_decoderStack : decoderStack d = [ {| dec := dec0; file := name |} ];
  plain_err : err d = None
}.

(** space, tab, newline: the bytes [parseBody] cuts the name at *)
Definition blanks : string :=
  String Str.space (String Str.tab Str.NL).

(** the name [makeTemplate] reads from a [define] expression: the
    first field of the first line of its body *)
Definition declaredName (decl : Expanded) : string :=
  fst (cutField (fst (fst (Str.CutNL (Body (Expr decl)))))).

(** the bytes [makeTemplate] looks for in a name: space, carriage
    return, vertical tab, form feed *)
Definition invalidNameBytes : string :=
  String Str.space (String "013" (String "011" (String "012" ""))).

(* ===================================================================== *)
(** * More of the package *)
(* ===================================================================== *)

(** ** Lines and read loops of the tokenizer *)

(** the concatenation of the lines a [strings.Builder] was given *)
Definition concatLines (ls : list string) : string :=
  foldr (fun l s => l +:+ s) EmptyString ls.

(** the first byte of a line, as the [switch line[0]] of [Decode]
    classifies it *)
Definition isCommentLine (l : string) : bool :=
  match l with String c _ => Ascii.eqb c "#" | EmptyString => false end.

Definition isIndentedLine (l : string) : bool :=
  match l with
  | String c _ => Ascii.eqb c Str.space || Ascii.eqb c Str.tab
  | EmptyString => false
  end.

Definition isTabLine (l : string) : bool :=
  match l with String c _ => Ascii.eqb c Str.tab | EmptyString => false end.

Definition isCommandLine (l : string) : bool :=
  match l with
  | String c _ =>
      negb (Ascii.eqb c Str.nl || Ascii.eqb c "#"
            || Ascii.eqb c Str.space || Ascii.eqb c Str.tab)
  | EmptyString => false
  end.

(** the decoder after [n] calls of [Decode] *)
Fixpoint Decoder_after (n : nat) (d : Decoder) : Decoder :=
  match n with
  | O => d
  | S n => Decoder_after n (snd (Decoder_Decode d))
  end.

(** a list of lines as [ReadString] returns them one after the other:
    none is empty and every one but the last ends with a newline *)
Fixpoint properLines (ls : list string) : Prop :=
  match ls with
  | [] => True
  | l :: rest =>
      l <> EmptyString
      /\ (rest <> [] -> Str.HasSuffix l Str.NL = true)
      /\ properLines rest
  end.

(** The state of a decoder that reads [lines]: behind some of them,
    its counter at their number, or at the end of the input. *)
Definition reading (lines : list string) (d : Decoder) : Prop :=
  (exists pre : list string,
      lines = pre ++ r d /\ line d = Z.of_nat (length pre))
  \/ r d = [].

(** ** Argument helpers *)

(** [func (e Expression) ParseArgs] *)
Definition Expression_ParseArgs (e : Expression) (n : Z) : Args :=
  ParseArgs (Body e) n.

(** [func ParseArgs2]; [None] stands for a panic of [Args.At]. *)
Definition ParseArgs2 (s : string) : option (string * string) :=
  let args := ParseArgs s 2 in
  match Args_At args 0, Args_At args 1 with
  | Some a, Some b => Some (a, b)
  | _, _ => None
  end.

(** [func ParseArgs3] *)
Definition ParseArgs3 (s : string) : option (string * string * string) :=
  let args := ParseArgs s 3 in
  match Args_At args 0, Args_At args 1, Args_At args 2 with
  | Some a, Some b, Some c => Some (a, b, c)
  | _, _, _ => None
  end.

(** what [strings.Fields] adds when a field ends *)
Definition flush (cur : string) : list string :=
  if Str.isEmpty cur then [] else [cur].

(** ** The engine *)

(** The include stack names the files of the decoder stack, bottom to
    top, and no file is on it twice. *)
Definition includes_ok (d : ExpandingDecoder) : Prop :=
  includeStack d = file <$> decoderStack d /\ NoDup (includeStack d).


(** what a call of [expand] that returned a value has produced: the
    expressions [new] it queued and the expression it returned carry
    the frames [fs] *)
Definition traces (fs : list Expanded) (d : ExpandingDecoder) (e : Expanded)
    (res : option Expanded) (d' : ExpandingDecoder) : Prop :=
  callStack d' = callStack d
  /\ exists new : list Expanded,
       pending d' = pending d ++ new
       /\ Forall (fun p => fs `prefix_of` Stack p) new
       /\ (forall p, res = Some p ->
             if Str.isEmpty (Name (Expr e)) then p = e
             else fs `prefix_of` Stack p).

(** The substitution [expandTemplate] applies to an expression of the
    template body: the expression with its name and its body expanded
    by [os.Expand], and the first unknown parameter met, if any. *)
Definition substitute (t : template) (args : Args) (raw : Expression)
  : Expression * string :=
  let '(name, unknownParam) :=
    Os.Expand (Name raw) (getParam t args) EmptyString in
  let '(body, unknownParam) :=
    Os.Expand (Body raw) (getParam t args) unknownParam in
  ({| Line := Line raw; Comment := Comment raw; Name := name; Body := body |},
   unknownParam).

(** [expand] returns an expression named [n] as it is: [n] is no
    builtin and names no template with a body. *)
Definition passes (m : gmap string template) (n : string) : Prop :=
  n <> "define" /\ n <> "include"
  /\ (n = EmptyString \/ m !! n = None
      \/ exists t : template, m !! n = Some t /\ tbody t = EmptyString).

(** an expression of the body of [t] as the call [cs] emits it *)
Definition emitted (t : template) (args : Args) (st : list Expanded)
    (raw : Expression) : Expanded :=
  {| Expr := fst (substitute t args raw); File := File (decl t); Stack := st |}.

(** no file but those being read can be opened *)
Definition closed (d : ExpandingDecoder) : Prop :=
  forall f : string, f ∉ includeStack d -> exists msg : string, fsys d f = inr msg.

(** The engine between two calls of [Decode] on a script of [L] lines
    that is read alone: no template is being expanded, and the
    templates registered and the lines still unread are together no
    more than the lines of the script. *)
Definition reads_alone (L : nat) (d : ExpandingDecoder) : Prop :=
  closed d
  /\ callStack d = {| frames := []; seen := ∅ |}
  /\ ((decoderStack d = [] /\ includeStack d = [])
      \/ exists fr : decoderFrame,
           decoderStack d = [fr] /\ includeStack d = [file fr]
           /\ (size (defs d) + length (r (dec fr)) <= L)%nat).

(** the lines the engine has not read *)
Definition unread (d : ExpandingDecoder) : nat :=
  match decoderStack d with
  | [fr] => length (r (dec fr))
  | _ => O
  end.

(** ** Chains of template calls *)

(** The error of [expandTemplate] for the call site [cs] of a template
    that is being expanded; [Stack cs] holds the frames that were
    active at the call, and the message lists them and the call. *)
Definition recursionError (cs : Expanded) : error :=
  ExpressionError cs
    (RecursionDetected
       (Str.TrimSuffix
          ("recursion detected in template " +:+ Name (Expr cs)
             +:+ ":" +:+ Str.NL
             +:+ writeStack "    " (Stack cs ++ [cs]))
          Str.NL)).

(** [readsCall n d c dc]: a call of [Decode] on the engine [d], where
    nothing is pending, comes to hand the expression [c] to [expand]
    in the engine [dc].  It reads [c] from the file on top of the
    decoder stack, after [n] turns of its loop that return nothing:
    an expression that [expand] handles itself (a [define], an
    [include], a call that expands to nothing), or the end of the
    file on top. *)
Inductive readsCall
  : nat -> ExpandingDecoder -> Expanded -> ExpandingDecoder -> Prop :=
| reads_call (d : ExpandingDecoder) (ds : list decoderFrame) (fr : decoderFrame)
    (raw : Expression) (dec' : Decoder) :
    pending d = [] ->
    decoderStack d = ds ++ [fr] ->
    Decoder_Decode (dec fr) = (inl raw, dec') ->
    readsCall 0 d
      {| Expr := raw; File := filePath d (file fr); Stack := [] |}
      (set_decoderStack d (updateTop (decoderStack d) dec'))
| reads_nothing (n : nat) (d : ExpandingDecoder) (ds : list decoderFrame)
    (fr : decoderFrame) (raw : Expression) (dec' : Decoder) (depth : nat)
    (d1 : ExpandingDecoder) (c : Expanded) (dc : ExpandingDecoder) :
    pending d = [] ->
    decoderStack d = ds ++ [fr] ->
    Decoder_Decode (dec fr) = (inl raw, dec') ->
    expand depth {| Expr := raw; File := filePath d (file fr); Stack := [] |}
           (set_decoderStack d (updateTop (decoderStack d) dec'))
    = (Ok None, d1) ->
    readsCall n d1 c dc ->
    readsCall (S n) d c dc
| reads_end (n : nat) (d : ExpandingDecoder) (ds : list decoderFrame)
    (fr : decoderFrame) (dec' : Decoder) (c : Expanded) (dc : ExpandingDecoder) :
    pending d = [] ->
    decoderStack d = ds ++ [fr] ->
    Decoder_Decode (dec fr) = (inr DecEOF, dec') ->
    readsCall n
      (popInclude (set_decoderStack d (List.removelast (decoderStack d)))) c dc ->
    readsCall (S n) d c dc.

(** [bodyReaches t args dec d e de]: the loop of [expandTemplate] over
    what is left in [dec] of the body of [t], in the engine [d], comes
    to hand the expression [e] to [expand] in the engine [de]: the
    expressions it reads before [e] refer to no unknown parameter,
    are no [define] and are expanded without error. *)
Inductive bodyReaches (t : template) (args : Args)
  : Decoder -> ExpandingDecoder -> Expanded -> ExpandingDecoder -> Prop :=
| body_here (dec : Decoder) (d : ExpandingDecoder) (raw : Expression)
    (dec' : Decoder) :
    Decoder_Decode dec = (inl raw, dec') ->
    snd (substitute t args raw) = EmptyString ->
    Name (fst (substitute t args raw)) <> "define" ->
    bodyReaches t args dec d (emitted t args [] raw) d
| body_later (dec : Decoder) (d : ExpandingDecoder) (raw : Expression)
    (dec' : Decoder) (depth : nat) (res : option Expanded)
    (d1 : ExpandingDecoder) (e : Expanded) (de : ExpandingDecoder) :
    Decoder_Decode dec = (inl raw, dec') ->
    snd (substitute t args raw) = EmptyString ->
    Name (fst (substitute t args raw)) <> "define" ->
    expand depth (emitted t args [] raw) d = (Ok res, d1) ->
    bodyReaches t args dec' d1 e de ->
    bodyReaches t args dec d e de.

(** [recurses c d cs]: the expansion of the expression [c] in the
    engine [d] comes, through a chain of any number of calls of
    templates that are not being expanded, to the call site [cs] of a
    template that is being expanded.  Every call of the chain has as
    many arguments as its template has parameters, and the body of
    its template comes to the next call of the chain. *)
Inductive recurses : Expanded -> ExpandingDecoder -> Expanded -> Prop :=
| recurses_active (c : Expanded) (d : ExpandingDecoder) :
    Name (Expr c) ∈ frameNames (callStack d) ->
    recurses c d (withStack c (frames (callStack d)))
| recurses_through (c : Expanded) (d : ExpandingDecoder) (t : template)
    (c1 : Expanded) (d1 : ExpandingDecoder) (cs : Expanded) :
    templateCall (defs d) (Name (Expr c)) ->
    defs d !! Name (Expr c) = Some t ->
    Name (Expr c) ∉ frameNames (callStack d) ->
    length (ParseArgs (Body (Expr c)) (Z.of_nat (length (params t))))
    = length (params t) ->
    bodyReaches t (ParseArgs (Body (Expr c)) (Z.of_nat (length (params t))))
      (NewDecoder (tbody t))
      (set_callStack d
         (snd (stack_push (callStack d) (withStack c (frames (callStack d))))))
      c1 d1 ->
    recurses c1 d1 cs ->
    recurses c d cs.

(** ** Text checks *)

(** what [indentText] puts for a newline: the newline and a tab *)
Definition newlineTab : string := String Str.nl (String Str.tab "").


(** [func indentText] *)
Definition indentText (text : string) : string :=
  if Str.isEmpty text then "(empty)"
  else if String.eqb text Str.NL then "(blank line)"
  else
    let text := Str.TrimRight text Str.NL in
    if Str.isEmpty text then "(blank lines)"
    else Str.ReplaceAllByte text Str.nl newlineTab.

Section CheckText.

(** [regexp.Compile]: [Some] the text of the error for a pattern that
    does not compile, and the method [MatchString] for one that does;
    [regexp.MatchString(pattern, s)] compiles [pattern] and matches. *)
Variable regexp_Compile : string -> option string.
Variable regexp_Match : string -> string -> bool.

(** the verbs [%q] and [%#q] *)
Variable Quote : string -> string.
Variable QuoteAlt : string -> string.

Definition compileError (want err : string) : string :=
  "error compiling regex " +:+ QuoteAlt want +:+ ": " +:+ err.

Definition shown (got : string) : string :=
  String Str.tab (indentText got).

(** [func CheckText] (in the package [checks]: [Text]) *)
Definition CheckText (what op got want : string) : string * bool :=
  let precheck : option (string * bool) :=
    if String.eqb op "~" || String.eqb op "!~" then
      match regexp_Compile want with
      | Some err => Some (compileError want err, false)
      | None => None
      end
    else if Str.isEmpty want then
      Some ("non-regex comparison requires non-empty want value", false)
    else None in
  match precheck with
  | Some r => r
  | None =>
      if String.eqb op "==" then
        if negb (String.eqb got want)
        then (what +:+ " = " +:+ QuoteAlt got +:+ ", want " +:+ QuoteAlt want, true)
        else (EmptyString, true)
      else if String.eqb op "!=" then
        if String.eqb got want
        then (what +:+ " == " +:+ QuoteAlt want +:+ " (but should not)", true)
        else (EmptyString, true)
      else if String.eqb op "~" then
        match regexp_Compile want with
        | Some err => (compileError want err, true)
        | None =>
            if negb (regexp_Match want got)
            then (what +:+ " does not match " +:+ QuoteAlt want
                       +:+ " (but should)" +:+ shown got, true)
            else (EmptyString, true)
        end
      else if String.eqb op "!~" then
        match regexp_Compile want with
        | Some err => (compileError want err, true)
        | None =>
            if regexp_Match want got
            then (what +:+ " matches " +:+ QuoteAlt want
                       +:+ " (but should not)" +:+ shown got, true)
            else (EmptyString, true)
        end
      else if String.eqb op "contains" then
        if negb (Str.Contains got want)
        then (what +:+ " does not contain " +:+ QuoteAlt want
                   +:+ " (but should)" +:+ shown got, true)
        else (EmptyString, true)
      else if String.eqb op "!contains" then
        if Str.Contains got want
        then (what +:+ " contains " +:+ QuoteAlt want
                   +:+ " (but should not)" +:+ shown got, true)
        else (EmptyString, true)
      else ("unknown operator " +:+ Quote op, false)
  end.

End CheckText.


(** ** Proof tools *)

(** case analysis on the tests of [spaceWidth] *)
Ltac width_cases :=
  repeat match goal with
         | |- context [if ?b then 1%nat else _] => destruct b eqn:?
         | |- context [if ?b then 2%nat else _] => destruct b eqn:?
         | |- context [if ?b then 3%nat else _] => destruct b eqn:?
         end.

Ltac width_known :=
  repeat match goal with
         | H : ?b = _ |- context [if ?b then _ else _] => rewrite H
         end.

(* ===================================================================== *)
(** * Scenarios *)
(* ===================================================================== *)

Module Scenario.

Definition NL : string := Str.NL.
Definition TAB : string := String Str.tab "".

(** ** A template call *)

Definition greetScript : string :=
  "define greet name" +:+ NL +:+
  TAB +:+ "echo Hello, $name!" +:+ NL +:+
  "greet Alice" +:+ NL.

Definition greetEngine : ExpandingDecoder :=
  NewExpandingDecoder "main.lb" (MapFS [("main.lb", greetScript)]).

Definition greetCall : Expanded :=
  {| Expr := {| Line := 3; Comment := ""; Name := "greet"; Body := "Alice" +:+ NL |};
     File := "main.lb"; Stack := [] |}.

Definition greetOutput : Expanded :=
  {| Expr := {| Line := 1; Comment := ""; Name := "echo";
                Body := "Hello, Alice!" +:+ NL |};
     File := "main.lb"; Stack := [greetCall] |}.

(** ** Mutual includes *)


Definition linebasedFiles : FS :=
  MapFS [("main.linebased", "include other" +:+ NL);
         ("other.linebased", "include main" +:+ NL)].

(** ** A template that calls itself *)

Definition selfScript : string :=
  "define a" +:+ NL +:+ TAB +:+ "a" +:+ NL +:+ "a" +:+ NL.

Definition selfEngine : ExpandingDecoder :=
  NewExpandingDecoder "m" (MapFS [("m", selfScript)]).

Definition selfCall : Expanded :=
  {| Expr := {| Line := 3; Comment := ""; Name := "a"; Body := NL |};
     File := "m"; Stack := [] |}.

(** ** A name with a control character *)

Definition controlName : string := "a" +:+ String "001"%char "b".

Definition controlEngine : ExpandingDecoder :=
  NewExpandingDecoder "m"
    (MapFS [("m", "define " +:+ controlName +:+ NL +:+ TAB +:+ "echo hi" +:+ NL)]).

Definition controlDefine : Expanded :=
  {| Expr := {| Line := 1; Comment := ""; Name := "define";
                Body := controlName +:+ NL +:+ "echo hi" +:+ NL |};
     File := "m"; Stack := [] |}.

Definition namelessDefine : Expanded :=
  {| Expr := {| Line := 1; Comment := ""; Name := "define"; Body := NL |};
     File := "m"; Stack := [] |}.

(** ** A leading space *)

Definition spaceEngine : ExpandingDecoder :=
  NewExpandingDecoder "m" (MapFS [("m", " x" +:+ NL)]).

Definition spaceError : error :=
  ExpressionError
    {| Expr := {| Line := 1; Comment := ""; Name := ""; Body := "" |};
       File := "m"; Stack := [] |}
    (SyntaxMessage unexpectedWhitespace).

(** ** Plain commands *)

Definition plainScript : string :=
  "echo hi" +:+ NL +:+ NL +:+ "# note" +:+ NL +:+ "run  it now" +:+ NL.

(** ** A command with a continuation line *)

Definition twoLineScript : string :=
  "cmd a" +:+ NL +:+ TAB +:+ "b" +:+ NL.

Definition twoLineExpr : Expression :=
  {| Line := 1; Comment := ""; Name := "cmd"; Body := "a" +:+ NL +:+ "b" +:+ NL |}.

Definition echoExpr : Expression :=
  {| Line := 1; Comment := ""; Name := "echo"; Body := "hello world" +:+ NL |}.

(** ** Inputs of the package's tests *)

Definition bytes (l : list Z) : string :=
  List.fold_right (fun n s => String (ascii_of_N (Z.to_N n)) s) EmptyString l.

Definition exampleScript : string :=
  "define echo tail" +:+ NL +:+
  "define greet name" +:+ NL +:+
  TAB +:+ "echo Hello, $name!" +:+ NL +:+
  NL +:+
  "greet Alice" +:+ NL +:+
  "greet Bob" +:+ NL.

Definition circleScript : string :=
  "define a" +:+ NL +:+ TAB +:+ "b x" +:+ NL +:+
  "define b p" +:+ NL +:+ TAB +:+ "c $p" +:+ NL +:+
  "define c q" +:+ NL +:+ TAB +:+ "echo $q" +:+ NL +:+ TAB +:+ "a" +:+ NL +:+
  "a" +:+ NL.

(** ** A template with two parameters *)

Definition pairTemplate : template :=
  {| decl := {| Expr := {| Line := 1; Comment := ""; Name := "define";
                           Body := "pair a b" +:+ NL +:+ "echo $a" +:+ NL
                                     +:+ "echo $b" +:+ NL |};
                File := "m"; Stack := [] |};
     tname := "pair"; params := ["a"; "b"];
     tbody := "echo $a" +:+ NL +:+ "echo $b" +:+ NL |}.

(** the engine after the definition of [pair] *)
Definition pairEngine : ExpandingDecoder :=
  {| fsys := MapFS []; defs := {[ "pair" := pairTemplate ]}; root := "";
     decoderStack := []; pending := [];
     callStack := {| frames := []; seen := ∅ |};
     includeStack := ["m"]; err := None |}.

Definition pairCall : Expanded :=
  {| Expr := {| Line := 4; Comment := ""; Name := "pair";
                Body := "x y" +:+ NL |};
     File := "m"; Stack := [] |}.

Definition shortCall : Expanded :=
  {| Expr := {| Line := 4; Comment := ""; Name := "pair"; Body := "x" +:+ NL |};
     File := "m"; Stack := [] |}.

(** ** A template whose body has an indented line *)

Definition badTemplate : template :=
  {| decl := {| Expr := {| Line := 1; Comment := ""; Name := "define";
                           Body := "bad" +:+ NL +:+ " x" +:+ NL |};
                File := "m"; Stack := [] |};
     tname := "bad"; params := []; tbody := " x" +:+ NL |}.

Definition badEngine : ExpandingDecoder :=
  {| fsys := MapFS []; defs := {[ "bad" := badTemplate ]}; root := "";
     decoderStack := []; pending := [];
     callStack := {| frames := []; seen := ∅ |};
     includeStack := ["m"]; err := None |}.

Definition badCall : Expanded :=
  {| Expr := {| Line := 3; Comment := ""; Name := "bad"; Body := NL |};
     File := "m"; Stack := [] |}.

(** ** Three templates that call one another in a circle *)

Definition circleEngine : ExpandingDecoder :=
  NewExpandingDecoder "m" (MapFS [("m", circleScript)]).

(** the calls that are active when [c] calls [a] again: the call of
    [a] in the script, of [b] in the body of [a], of [c] in the body
    of [b] *)
Definition circleFrames : list Expanded :=
  let a := {| Expr := {| Line := 8; Comment := ""; Name := "a"; Body := NL |};
              File := "m"; Stack := [] |} in
  let b := {| Expr := {| Line := 1; Comment := ""; Name := "b";
                         Body := "x" +:+ NL |};
              File := "m"; Stack := [a] |} in
  let c := {| Expr := {| Line := 1; Comment := ""; Name := "c";
                         Body := "x" +:+ NL |};
              File := "m"; Stack := [a; b] |} in
  [a; b; c].

(** the call of [a] on the last line of the script *)
Definition circleCall : Expanded :=
  {| Expr := {| Line := 8; Comment := ""; Name := "a"; Body := NL |};
     File := "m"; Stack := [] |}.

(** the three templates as [define] registers them *)
Definition circleTemplate (line : Z) (head name : string) (params : list string)
    (body : string) : template :=
  {| decl := {| Expr := {| Line := line; Comment := ""; Name := "define";
                           Body := head +:+ NL +:+ body |};
                File := "m"; Stack := [] |};
     tname := name; params := params; tbody := body |}.

(** the engine in which [Decode] expands the call on the last line:
    the script is read to its end and the templates are registered *)
Definition circleCalled : ExpandingDecoder :=
  {| fsys := MapFS [("m", circleScript)];
     defs := {[ "a" := circleTemplate 1 "a" "a" [] ("b x" +:+ NL);
                "b" := circleTemplate 3 "b p" "b" ["p"] ("c $p" +:+ NL);
                "c" := circleTemplate 5 "c q" "c" ["q"]
                         ("echo $q" +:+ NL +:+ "a" +:+ NL) ]};
     root := "";
     decoderStack := [ {| dec := {| r := []; line := 8 |}; file := "m" |} ];
     pending := [];
     callStack := {| frames := []; seen := ∅ |};
     includeStack := ["m"]; err := None |}.

(** the call of [a] on the second line of the body of [c] *)
Definition circleRejected : Expanded :=
  {| Expr := {| Line := 2; Comment := ""; Name := "a"; Body := NL |};
     File := "m"; Stack := circleFrames |}.

End Scenario.

(* ===================================================================== *)
(** * Facts about byte strings *)
(* ===================================================================== *)

Module StrFacts.
Import Str.

Lemma app_nil_l (s : string) : "" +:+ s = s.
Proof. reflexivity. Qed.

Lemma app_cons (c : ascii) (s t : string) :
  String c s +:+ t = String c (s +:+ t).
Proof. reflexivity. Qed.

Lemma app_nil_r (s : string) : s +:+ "" = s.
Proof. induction s as [|c s IH]; [reflexivity|]. rewrite app_cons, IH. reflexivity. Qed.

Lemma app_assoc (s t u : string) : (s +:+ t) +:+ u = s +:+ (t +:+ u).
Proof.
  induction s as [|c s IH]; [reflexivity|].
  rewrite !app_cons, IH. reflexivity.
Qed.

Lemma len_app (s t : string) : len (s +:+ t) = (len s + len t)%nat.
Proof.
  induction s as [|c s IH]; [reflexivity|].
  rewrite app_cons. unfold len in *. simpl. rewrite IH. reflexivity.
Qed.

Lemma take_app_len (s t : string) : take (len s) (s +:+ t) = s.
Proof.
  induction s as [|c s IH]; [destruct t; reflexivity|].
  rewrite app_cons. unfold len in *. simpl. rewrite IH. reflexivity.
Qed.

Lemma drop_app_len (s t : string) : drop (len s) (s +:+ t) = t.
Proof.
  induction s as [|c s IH]; [reflexivity|].
  rewrite app_cons. unfold len in *. simpl. exact IH.
Qed.

Lemma take_drop (n : nat) (s : string) : take n s +:+ drop n s = s.
Proof.
  revert s. induction n as [|n IH]; intros [|c s]; try reflexivity.
  simpl. rewrite app_cons, IH. reflexivity.
Qed.

Lemma eqb_refl (s : string) : String.eqb s s = true.
Proof. apply String.eqb_refl. Qed.

Lemma HasSuffix_cons (c : ascii) (s suffix : string) :
  HasSuffix (String c s) suffix
  = String.eqb (String c s) suffix || HasSuffix s suffix.
Proof. reflexivity. Qed.

(** [HasSuffix] is the suffix relation. *)
Lemma HasSuffix_app (p suffix : string) : HasSuffix (p +:+ suffix) suffix = true.
Proof.
  induction p as [|c p IH].
  - rewrite app_nil_l. destruct suffix as [|c s]; [reflexivity|].
    rewrite HasSuffix_cons, eqb_refl. reflexivity.
  - rewrite app_cons, HasSuffix_cons, IH. apply orb_true_r.
Qed.

Lemma HasSuffix_inv (s suffix : string) :
  HasSuffix s suffix = true -> exists p, s = p +:+ suffix.
Proof.
  induction s as [|c s IH]; intros H.
  - destruct suffix; [exists ""; reflexivity | discriminate H].
  - rewrite HasSuffix_cons in H. apply orb_true_iff in H as [H|H].
    + apply String.eqb_eq in H. exists "". rewrite app_nil_l. exact H.
    + destruct (IH H) as [p ->]. exists (String c p). reflexivity.
Qed.

Lemma TrimSuffix_app (p suffix : string) : TrimSuffix (p +:+ suffix) suffix = p.
Proof.
  unfold TrimSuffix. rewrite HasSuffix_app, len_app.
  replace (len p + len suffix - len suffix)%nat with (len p) by lia.
  apply take_app_len.
Qed.

(** [TrimSuffix] removes one occurrence of the suffix, or nothing. *)
Lemma TrimSuffix_spec (s suffix : string) :
  (HasSuffix s suffix = true /\ s = TrimSuffix s suffix +:+ suffix)
  \/ (HasSuffix s suffix = false /\ TrimSuffix s suffix = s).
Proof.
  destruct (HasSuffix s suffix) eqn:E.
  - left. split; [reflexivity|].
    destruct (HasSuffix_inv _ _ E) as [p ->]. rewrite TrimSuffix_app. reflexivity.
  - right. split; [reflexivity|]. unfold TrimSuffix. rewrite E. reflexivity.
Qed.

End StrFacts.

(* ===================================================================== *)
(** * The loops of the tokenizer, one iteration at a time *)
(* ===================================================================== *)

(** The loops recurse on the unread lines; unfolded once they are the
    bodies of the two [for] loops of [Decode], written with
    [readLine] and [peek]. *)

Lemma readContinuation_step (d : Decoder) (body : string) :
  readContinuation (r d) (line d) body
  = match peek d with
    | Some b =>
        if Ascii.eqb b Str.tab then
          let '(ln, eof, d1) := readLine d in
          let body := body +:+ Str.drop 1 ln in
          if eof then (body, d1)
          else readContinuation (r d1) (line d1) body
        else (body, d)
    | None => (body, d)
    end.
Proof.
  destruct d as [[|[|c tl] rest] n]; try reflexivity.
  unfold peek, readLine. cbn [r line Str.head readContinuation].
  destruct (Ascii.eqb c Str.tab); [|reflexivity].
  destruct (Str.HasSuffix (String c tl) Str.NL); reflexivity.
Qed.

Lemma decodeLoop_step (d : Decoder) (comments : string) :
  decodeLoop (r d) (line d) comments
  = let '(ln, eof, d1) := readLine d in
    match Str.head ln with
    | None =>
        if Str.isEmpty comments then (inr DecEOF, d1)
        else
          let exprLine :=
            if Str.HasSuffix comments Str.NL then line d1 else line d1 - 1 in
          (inl (makeExpr exprLine comments EmptyString), d1)
    | Some c =>
        if Ascii.eqb c Str.nl then (inl (makeExpr (line d1) comments ln), d1)
        else if Ascii.eqb c "#" then
          decodeLoop (r d1) (line d1) (comments +:+ ln)
        else if Ascii.eqb c Str.space || Ascii.eqb c Str.tab then
          (inr (SyntaxError (line d1) unexpectedWhitespace), d1)
        else
          let '(body, d2) := readContinuation (r d1) (line d1) ln in
          (inl (makeExpr (line d1) comments body), d2)
    end.
Proof.
  destruct d as [[|[|c tl] rest] n]; reflexivity.
Qed.

(* ===================================================================== *)
(** * [Args.At] is total *)
(* ===================================================================== *)

(** The bounds test comes before the slice access. *)
Lemma Args_At_returns (a : Args) (i : Z) : exists s : string, Args_At a i = Some s.
Proof.
  unfold Args_At.
  destruct ((i <? 0) || (Z.of_nat (length a) <=? i)) eqn:E; [eauto|].
  apply orb_false_iff in E as [E1 E2].
  assert (Hlt : (Z.to_nat i < length a)%nat) by lia.
  destruct (lookup_lt_is_Some_2 a (Z.to_nat i) Hlt) as [x ->]. eauto.
Qed.

(** C10.  For every [Args] value [a] and every integer [i], [a.At(i)]
    returns (it never panics): the empty string when [i] is negative
    or at least [len(a)], and otherwise [a[i]] with one trailing
    newline removed when [a[i]] ends with one, and [a[i]] itself when
    it does not. *)
Theorem Args_At_total (a : Args) (i : Z) :
  exists s : string,
    Args_At a i = Some s /\
    (((i < 0 \/ Z.of_nat (length a) <= i) /\ s = EmptyString)
     \/ ((0 <= i < Z.of_nat (length a)) /\
         exists x : string,
           a !! Z.to_nat i = Some x /\
           (x = s +:+ Str.NL
            \/ (x = s /\ Str.HasSuffix x Str.NL = false)))).
Proof.
  unfold Args_At.
  destruct (i <? 0) eqn:Hneg; simpl.
  { exists EmptyString. split; [reflexivity|]. left. split; [left; lia|reflexivity]. }
  destruct (Z.of_nat (length a) <=? i) eqn:Hge.
  { exists EmptyString. split; [reflexivity|]. left. split; [right; lia|reflexivity]. }
  assert (Hlt : (Z.to_nat i < length a)%nat) by lia.
  destruct (lookup_lt_is_Some_2 a (Z.to_nat i) Hlt) as [x Hx].
  rewrite Hx. exists (Str.TrimSuffix x Str.NL). split; [reflexivity|].
  right. split; [lia|]. exists x. split; [reflexivity|].
  destruct (StrFacts.TrimSuffix_spec x Str.NL) as [[_ H]|[H1 H2]].
  - left. exact H.
  - right. split; [symmetry; exact H2|exact H1].
Qed.

(* ===================================================================== *)
(** * Line numbers of the tokenizer *)
(* ===================================================================== *)

Lemma makeExpr_Line (ln : Z) (comment body : string) :
  Line (makeExpr ln comment body) = ln.
Proof. unfold makeExpr. destruct (parseBody body). reflexivity. Qed.

Lemma makeExpr_Comment (ln : Z) (comment body : string) :
  Comment (makeExpr ln comment body) = comment.
Proof. unfold makeExpr. destruct (parseBody body). reflexivity. Qed.

Lemma readContinuation_line (rs : list string) :
  forall (ln : Z) (body b : string) (d' : Decoder),
    readContinuation rs ln body = (b, d') -> ln <= line d'.
Proof.
  induction rs as [|l rest IH]; intros ln body b d' H.
  - inversion H; subst. simpl. lia.
  - destruct l as [|c tl]; simpl in H.
    + inversion H; subst. simpl. lia.
    + destruct (Ascii.eqb c Str.tab).
      * destruct (Str.HasSuffix (String c tl) Str.NL).
        -- apply IH in H. lia.
        -- inversion H; subst. simpl. lia.
      * inversion H; subst. simpl. lia.
Qed.

(** One run of the outer loop started at line counter [ln0]: the
    counter advances, and a returned expression lies on a line read
    during the run. *)
Lemma decodeLoop_line (rs : list string) :
  forall (ln : Z) (comments : string) (ln0 : Z)
         (res : Expression + DecodeError) (d' : Decoder),
    ln0 <= ln -> (comments = EmptyString \/ ln0 < ln) ->
    decodeLoop rs ln comments = (res, d') ->
    ln0 < line d' /\
    (forall e, res = inl e -> ln0 < Line e <= line d').
Proof.
  assert (Hend : forall rs' ln comments ln0 res d',
             ln0 <= ln -> (comments = EmptyString \/ ln0 < ln) ->
             (if Str.isEmpty comments then (inr DecEOF, {| r := rs'; line := ln + 1 |})
              else (inl (makeExpr (if Str.HasSuffix comments Str.NL
                                   then ln + 1 else ln + 1 - 1) comments EmptyString),
                    {| r := rs'; line := ln + 1 |})) = (res, d') ->
             ln0 < line d' /\ (forall e, res = inl e -> ln0 < Line e <= line d')).
  { intros rs' ln comments ln0 res d' Hle Hc H.
    destruct comments as [|c0 cs]; simpl in H.
    - inversion H; subst. simpl. split; [lia|]. intros e He. discriminate He.
    - destruct Hc as [Hc|Hc]; [discriminate Hc|].
      inversion H; subst. simpl. split; [lia|].
      intros e He. inversion He; subst. rewrite makeExpr_Line.
      destruct (Str.HasSuffix (String c0 cs) Str.NL); lia. }
  induction rs as [|l rest IH]; intros ln comments ln0 res d' Hle Hc H.
  - simpl in H. eapply Hend; eauto.
  - destruct l as [|c tl].
    + simpl in H. eapply Hend; eauto.
    + simpl in H.
      destruct (Ascii.eqb c Str.nl).
      { inversion H; subst. simpl. split; [lia|].
        intros e He. inversion He; subst. rewrite makeExpr_Line. lia. }
      destruct (Ascii.eqb c "#").
      { eapply IH in H; [exact H|lia|right; lia]. }
      destruct (Ascii.eqb c Str.space || Ascii.eqb c Str.tab).
      { inversion H; subst. simpl. split; [lia|]. intros e He. discriminate He. }
      destruct (readContinuation rest (ln + 1) (String c tl)) as [body d2] eqn:Hcont.
      apply readContinuation_line in Hcont.
      inversion H; subst. split; [lia|].
      intros e He. inversion He; subst. rewrite makeExpr_Line. lia.
Qed.

Lemma Decoder_Decode_line (d : Decoder) (res : Expression + DecodeError) (d' : Decoder) :
  Decoder_Decode d = (res, d') ->
  line d < line d' /\ (forall e, res = inl e -> line d < Line e <= line d').
Proof.
  unfold Decoder_Decode. intros H.
  eapply decodeLoop_line in H; [exact H|lia|left; reflexivity].
Qed.

Lemma Decoder_calls_lines (n : nat) :
  forall d : Decoder,
    List.Forall (fun e => line d < Line e) (Decoder_calls n d)
    /\ List.NoDup (List.map Line (Decoder_calls n d)).
Proof.
  induction n as [|n IH]; intros d; simpl.
  - split; constructor.
  - destruct (Decoder_Decode d) as [[e|derr] d'] eqn:Hdec;
      apply Decoder_Decode_line in Hdec as [Hadv He];
      destruct (IH d') as [Hall Hnd].
    + specialize (He e eq_refl). split.
      * constructor; [lia|].
        eapply List.Forall_impl; [|exact Hall]. simpl. intros; lia.
      * simpl. constructor; [|exact Hnd].
        intros Hin. apply List.in_map_iff in Hin as [x [Hx Hin]].
        rewrite List.Forall_forall in Hall. specialize (Hall x Hin). lia.
    + split; [|exact Hnd].
      eapply List.Forall_impl; [|exact Hall]. simpl. intros; lia.
Qed.

(** C7.  For every input stream and any number of calls of one
    tokenizer's [Decode], every returned [Expression] has a strictly
    positive line number and no two returned expressions share a line
    number. *)
Theorem Decoder_lines_positive_unique (input : string) (n : nat) :
  List.Forall (fun e => 0 < Line e) (Decoder_calls n (NewDecoder input))
  /\ List.NoDup (List.map Line (Decoder_calls n (NewDecoder input))).
Proof. exact (Decoder_calls_lines n (NewDecoder input)). Qed.

(* ===================================================================== *)
(** * The sticky error of [ExpandingDecoder.Decode] *)
(* ===================================================================== *)

(** Every error the loop of [Decode] returns has been stored in
    [d.err]. *)
Lemma decodeExpanded_err (depth iter : nat) :
  forall (d : ExpandingDecoder) (e : error) (d' : ExpandingDecoder),
    decodeExpanded depth iter d = (Err e, d') -> err d' = Some e.
Proof.
  induction iter as [|iter IH]; intros d e d' H; simpl in H; [discriminate H|].
  destruct (pending d) as [|x rest]; [|discriminate H].
  destruct (List.rev (decoderStack d)) as [|frame fs].
  { inversion H; subst. reflexivity. }
  destruct (Decoder_Decode (dec frame)) as [[raw|[|ln msg]] dec'].
  - destruct (expand depth _ _) as [[[res|]|e1| |] d1] eqn:Hexp;
      try discriminate H.
    + eapply IH; exact H.
    + inversion H; subst. reflexivity.
  - eapply IH; exact H.
  - inversion H; subst. reflexivity.
Qed.

(** C2.  Once a call of [Decode] has returned an error (end of input
    included), every later call, however long it is allowed to run,
    returns that same error and leaves the decoder as it is: nothing
    is read or expanded any more. *)
Theorem Decode_sticky (fuel : nat) (d : ExpandingDecoder) (e : error)
    (d' : ExpandingDecoder) :
  Decode fuel d = (Err e, d') ->
  forall fuel' : nat, Decode fuel' d' = (Err e, d').
Proof.
  intros H fuel'.
  assert (Herr : err d' = Some e).
  { unfold Decode in H. destruct (err d) as [e0|] eqn:E.
    - inversion H; subst. exact E.
    - eapply decodeExpanded_err; exact H. }
  unfold Decode. rewrite Herr. reflexivity.
Qed.

(* ===================================================================== *)
(** * The call stack discipline *)
(* ===================================================================== *)

Lemma seen_ok_empty : seen_ok {| frames := []; seen := ∅ |}.
Proof.
  intros n. unfold frameNames. simpl. rewrite lookup_empty.
  destruct (decide (n ∈ [])) as [H|H]; [inversion H|reflexivity].
Qed.

Lemma stack_push_fst (s : stack) (x : Expanded) :
  seen_ok s ->
  fst (stack_push s x) = negb (bool_decide (Name (Expr x) ∈ frameNames s)).
Proof.
  intros Hok. unfold stack_push. simpl. rewrite (Hok (Name (Expr x))).
  destruct (decide (Name (Expr x) ∈ frameNames s)) as [H|H].
  - rewrite (bool_decide_eq_true_2 _ H). reflexivity.
  - rewrite (bool_decide_eq_false_2 _ H). reflexivity.
Qed.

Lemma stack_push_fresh (s : stack) (x : Expanded) :
  seen_ok s -> fst (stack_push s x) = true ->
  (Name (Expr x) ∉ frameNames s) /\ seen s !! Name (Expr x) = None.
Proof.
  intros Hok H. rewrite (stack_push_fst _ _ Hok) in H.
  apply negb_true_iff, bool_decide_eq_false in H. split; [exact H|].
  rewrite (Hok (Name (Expr x))). destruct (decide _); [contradiction|reflexivity].
Qed.

Lemma seen_ok_push (s : stack) (x : Expanded) :
  seen_ok s -> seen_ok (snd (stack_push s x)).
Proof.
  intros Hok n. unfold stack_push, frameNames. simpl.
  rewrite fmap_app. simpl. rewrite lookup_insert.
  destruct (decide (Name (Expr x) = n)) as [->|Hne].
  - destruct (decide _) as [H|H]; [reflexivity|].
    exfalso. apply H. apply elem_of_app. right. apply list_elem_of_singleton. reflexivity.
  - rewrite (Hok n). unfold frameNames.
    destruct (decide (n ∈ _)) as [H1|H1]; destruct (decide (n ∈ _ ++ _)) as [H2|H2];
      try reflexivity; exfalso.
    + apply H2. apply elem_of_app. left. exact H1.
    + apply elem_of_app in H2 as [H2|H2]; [contradiction|].
      apply list_elem_of_singleton in H2. congruence.
Qed.

Lemma stack_pop_push (s : stack) (x : Expanded) :
  seen s !! Name (Expr x) = None ->
  stack_pop (snd (stack_push s x)) = Some (x, s).
Proof.
  intros Hnone. unfold stack_pop, stack_push. simpl.
  rewrite List.rev_unit, List.removelast_last, delete_insert_eq, (delete_id _ _ Hnone).
  destruct s; reflexivity.
Qed.

Lemma define_preserves (d : ExpandingDecoder) (expr : Expanded)
    (res : result Cause unit) (d' : ExpandingDecoder) :
  define d expr = (res, d') ->
  callStack d' = callStack d /\ pending d' = pending d
  /\ (forall c, res = Err c -> d' = d).
Proof.
  unfold define. intros H.
  destruct (makeTemplate expr) as [t|c| |].
  - destruct (defs d !! tname t); inversion H; subst; simpl; split; try split;
      try reflexivity; intros c Hc; try discriminate Hc; reflexivity.
  - inversion H; subst. split; [reflexivity|]. split; [reflexivity|]. reflexivity.
  - inversion H; subst. split; [reflexivity|]. split; [reflexivity|]. reflexivity.
  - inversion H; subst. split; [reflexivity|]. split; [reflexivity|]. reflexivity.
Qed.

Lemma pushInclude_preserves (d : ExpandingDecoder) (name : string) :
  callStack (snd (pushInclude d name)) = callStack d
  /\ defs (snd (pushInclude d name)) = defs d
  /\ fsys (snd (pushInclude d name)) = fsys d.
Proof. unfold pushInclude. destruct (existsb _ _); simpl; auto. Qed.

Lemma popInclude_preserves (d : ExpandingDecoder) :
  callStack (popInclude d) = callStack d /\ defs (popInclude d) = defs d.
Proof. unfold popInclude. destruct (includeStack d); simpl; auto. Qed.

Lemma expandInclude_preserves (expr : Expanded) (d : ExpandingDecoder)
    (res : result error (option Expanded)) (d' : ExpandingDecoder) :
  expandInclude expr d = (res, d') ->
  callStack d' = callStack d /\ defs d' = defs d.
Proof.
  unfold expandInclude. intros H.
  destruct (Args_At _ 0) as [p|]; [|inversion H; subst; auto].
  destruct (Str.isEmpty p); [inversion H; subst; auto|].
  destruct (Str.Contains p "/"); [inversion H; subst; auto|].
  destruct (Str.HasSuffix p ".linebased"); [inversion H; subst; auto|].
  destruct (pushInclude d (p +:+ ".linebased")) as [pushed d1] eqn:Hpush.
  pose proof (pushInclude_preserves d (p +:+ ".linebased")) as [Hc [Hd _]].
  rewrite Hpush in Hc, Hd. simpl in Hc, Hd.
  destruct pushed; simpl in H.
  - destruct (fsys d1 _).
    + inversion H; subst. simpl. auto.
    + inversion H; subst. destruct (popInclude_preserves d1) as [-> ->]. auto.
  - inversion H; subst. auto.
Qed.

Section Balance.

Variable rec : Expanded -> ExpandingDecoder -> Outcome (option Expanded).

(** The recursive call keeps the call stack and, when it is not
    given a [define], the registry. *)
Hypothesis rec_balanced :
  forall expr d res d',
    seen_ok (callStack d) ->
    Name (Expr expr) <> "define" ->
    rec expr d = (res, d') -> settled res ->
    callStack d' = callStack d /\ defs d' = defs d.

Lemma templateLoop_balanced (iter : nat) :
  forall t callsite args dec expanded d res d',
    seen_ok (callStack d) ->
    templateLoop rec iter t callsite args dec expanded d = (res, d') ->
    settled res ->
    callStack d' = callStack d /\ defs d' = defs d.
Proof.
  induction iter as [|iter IH];
    intros t callsite args dec0 expanded d res d' Hok H Hres; simpl in H.
  { inversion H; subst. contradiction Hres. }
  destruct (Decoder_Decode dec0) as [[raw|[|ln msg]] dec1];
    try (inversion H; subst; auto; fail).
  destruct (Os.Expand (Name raw) _ _) as [name u1].
  destruct (Os.Expand (Body raw) _ _) as [body u2].
  destruct (negb (Str.isEmpty u2)); [inversion H; subst; auto|].
  destruct (String.eqb name "define") eqn:Hdef; [inversion H; subst; auto|].
  apply String.eqb_neq in Hdef.
  destruct (rec _ d) as [[[res1|]|e1| |] d1] eqn:Hrec.
  - apply rec_balanced in Hrec as [Hc Hd]; [|exact Hok|exact Hdef|exact I].
    apply IH in H as [Hc' Hd']; [|rewrite Hc; exact Hok|exact Hres].
    split; congruence.
  - apply rec_balanced in Hrec as [Hc Hd]; [|exact Hok|exact Hdef|exact I].
    apply IH in H as [Hc' Hd']; [|rewrite Hc; exact Hok|exact Hres].
    split; congruence.
  - inversion H; subst.
    apply rec_balanced in Hrec; [exact Hrec|exact Hok|exact Hdef|exact Hres].
  - inversion H; subst. contradiction Hres.
  - inversion H; subst. contradiction Hres.
Qed.

Lemma expandTemplateBody_balanced t callsite d res d' :
  seen_ok (callStack d) ->
  expandTemplateBody rec t callsite d = (res, d') ->
  settled res ->
  callStack d' = callStack d /\ defs d' = defs d.
Proof.
  unfold expandTemplateBody. intros Hok H Hres.
  destruct (negb _); [inversion H; subst; auto|].
  destruct (templateLoop _ _ _ _ _ _ _ _) as [[[|first rest]|e1| |] d1] eqn:Hloop;
    inversion H; subst; try contradiction Hres;
    apply templateLoop_balanced in Hloop as [Hc Hd]; try exact Hok;
    simpl; auto.
Qed.

(** A template call that returns a value, or an error that is not a
    recursion error, leaves the call stack as it found it: the frame
    it pushed has been popped. *)
Lemma expandTemplate_balanced t callsite d res d' :
  seen_ok (callStack d) ->
  expandTemplate rec t callsite d = (res, d') ->
  settled res ->
  callStack d' = callStack d /\ defs d' = defs d.
Proof.
  unfold expandTemplate. intros Hok H Hres.
  set (cs := withStack callsite (framesCopy (callStack d))) in *.
  destruct (stack_push (callStack d) cs) as [initial s] eqn:Hpush.
  assert (Hs : s = snd (stack_push (callStack d) cs)) by (rewrite Hpush; reflexivity).
  assert (Hi : initial = fst (stack_push (callStack d) cs)) by (rewrite Hpush; reflexivity).
  destruct initial; simpl in H; [|inversion H; subst; contradiction Hres].
  destruct (stack_push_fresh _ _ Hok (eq_sym Hi)) as [_ Hnone].
  destruct (expandTemplateBody rec t cs (set_callStack d s)) as [res1 d1] eqn:Hbody.
  assert (Hsettled : settled res1).
  { destruct res1 as [r1|e1| |];
      try (destruct (stack_pop (callStack d1)) as [[x s1]|]);
      inversion H; subst; try exact Hres; contradiction Hres. }
  apply expandTemplateBody_balanced in Hbody as [Hc Hd]; [| |exact Hsettled].
  2:{ simpl. rewrite Hs. apply seen_ok_push. exact Hok. }
  simpl in Hc, Hd.
  assert (Hpop : stack_pop (callStack d1) = Some (cs, callStack d))
    by (rewrite Hc, Hs; apply stack_pop_push; exact Hnone).
  rewrite Hpop in H.
  destruct res1 as [r1|e1| |]; inversion H; subst; simpl; auto;
    contradiction Hsettled.
Qed.

End Balance.

(** Every call of [expand] that returns a value, or an error that is
    not a recursion error, leaves the call stack as it found it, and
    only a [define] changes the registry. *)
Lemma expand_restores (depth : nat) :
  forall expr d res d',
    seen_ok (callStack d) ->
    expand depth expr d = (res, d') -> settled res ->
    callStack d' = callStack d
    /\ (Name (Expr expr) <> "define" -> defs d' = defs d).
Proof.
  induction depth as [|depth IH]; intros expr d res d' Hok H Hres.
  all: simpl in H.
  all: destruct (String.eqb (Name (Expr expr)) "define") eqn:Hdef;
    [ apply String.eqb_eq in Hdef;
      destruct (define d expr) as [[u|c| |] d1] eqn:Hdefine;
      inversion H; subst; try contradiction Hres;
      apply define_preserves in Hdefine as [Hc _];
      (split; [exact Hc | intros Hne; contradiction]) |].
  all: destruct (String.eqb (Name (Expr expr)) "include");
    [ apply expandInclude_preserves in H as [Hc Hd]; split; auto |].
  all: destruct (Str.isEmpty (Name (Expr expr)));
    [ inversion H; subst; split; auto |].
  all: destruct (defs d !! Name (Expr expr)) as [t|];
    [| inversion H; subst; split; auto ].
  all: destruct (Str.isEmpty (tbody t)); [ inversion H; subst; split; auto |].
  - inversion H; subst. contradiction Hres.
  - assert (Hrec : forall expr0 d0 res0 d0',
               seen_ok (callStack d0) -> Name (Expr expr0) <> "define" ->
               expand depth expr0 d0 = (res0, d0') -> settled res0 ->
               callStack d0' = callStack d0 /\ defs d0' = defs d0).
    { intros expr0 d0 res0 d0' Hok0 Hne0 H0 Hres0.
      destruct (IH expr0 d0 res0 d0' Hok0 H0 Hres0) as [Hc0 Hd0]. auto. }
    destruct (expandTemplate_balanced (expand depth) Hrec t expr d res d' Hok H Hres)
      as [Hc Hd].
    split; auto.
Qed.

Lemma expand_balanced (depth : nat) (expr : Expanded) (d : ExpandingDecoder)
    (res : option Expanded) (d' : ExpandingDecoder) :
  seen_ok (callStack d) ->
  expand depth expr d = (Ok res, d') ->
  callStack d' = callStack d
  /\ (Name (Expr expr) <> "define" -> defs d' = defs d).
Proof. intros Hok H. exact (expand_restores depth expr d _ d' Hok H I). Qed.

(* ===================================================================== *)
(** * Termination of template expansion *)
(* ===================================================================== *)

Lemma readContinuation_length (rs : list string) :
  forall (ln : Z) (body b : string) (d' : Decoder),
    readContinuation rs ln body = (b, d') ->
    (length (r d') <= length rs)%nat.
Proof.
  induction rs as [|l rest IH]; intros ln body b d' H.
  - inversion H; subst. simpl. lia.
  - destruct l as [|c tl]; simpl in H.
    + inversion H; subst. simpl. lia.
    + destruct (Ascii.eqb c Str.tab).
      * destruct (Str.HasSuffix (String c tl) Str.NL).
        -- apply IH in H. simpl. lia.
        -- inversion H; subst. simpl. lia.
      * inversion H; subst. simpl. lia.
Qed.

Lemma decodeLoop_length (rs : list string) :
  forall (ln : Z) (comments : string)
         (res : Expression + DecodeError) (d' : Decoder),
    decodeLoop rs ln comments = (res, d') ->
    (length (r d') <= length rs)%nat
    /\ (rs <> [] -> (length (r d') < length rs)%nat).
Proof.
  induction rs as [|l rest IH]; intros ln comments res d' H.
  - simpl in H. destruct (Str.isEmpty comments); inversion H; subst; simpl;
      split; try lia; intros Hne; contradiction.
  - destruct l as [|c tl]; simpl in H.
    + destruct (Str.isEmpty comments); inversion H; subst; simpl; split; lia.
    + destruct (Ascii.eqb c Str.nl); [inversion H; subst; simpl; split; lia|].
      destruct (Ascii.eqb c "#").
      { apply IH in H as [H _]. simpl. split; lia. }
      destruct (Ascii.eqb c Str.space || Ascii.eqb c Str.tab);
        [inversion H; subst; simpl; split; lia|].
      destruct (readContinuation rest (ln + 1) (String c tl)) as [body d2] eqn:Hcont.
      apply readContinuation_length in Hcont.
      inversion H; subst. simpl. split; lia.
Qed.

(** Every expression [Decode] returns has taken a line from the input. *)
Lemma Decoder_Decode_consumes (d : Decoder) (e : Expression) (d' : Decoder) :
  Decoder_Decode d = (inl e, d') -> (length (r d') < length (r d))%nat.
Proof.
  unfold Decoder_Decode. intros H.
  destruct (r d) as [|l rest] eqn:Hr.
  - simpl in H. discriminate H.
  - apply decodeLoop_length in H as [_ H]. apply H. discriminate.
Qed.

Lemma stack_ok_empty (m : gmap string template) :
  stack_ok {| frames := []; seen := ∅ |} m.
Proof.
  split.
  - apply seen_ok_empty.
  - constructor.
  - intros n H. inversion H.
Qed.

Lemma stack_ok_push (s : stack) (m : gmap string template) (x : Expanded) :
  stack_ok s m -> templateCall m (Name (Expr x)) ->
  fst (stack_push s x) = true ->
  stack_ok (snd (stack_push s x)) m.
Proof.
  intros [Hseen Hnd Hdef] Hx Hinit.
  destruct (stack_push_fresh _ _ Hseen Hinit) as [Hfresh _].
  split.
  - apply seen_ok_push. exact Hseen.
  - unfold stack_push, frameNames. simpl. rewrite fmap_app. simpl.
    apply NoDup_app. split; [exact Hnd|]. split.
    + intros y Hy Hy'. apply list_elem_of_singleton in Hy'. subst. contradiction.
    + apply NoDup_cons. split; [intros H; inversion H|constructor].
  - unfold stack_push, frameNames. simpl. rewrite fmap_app. simpl.
    intros n Hn. apply elem_of_app in Hn as [Hn|Hn]; [apply Hdef; exact Hn|].
    apply list_elem_of_singleton in Hn. subst. exact Hx.
Qed.

(** There are never more active templates than registered ones. *)
Lemma stack_ok_bound (s : stack) (m : gmap string template) :
  stack_ok s m -> (length (frames s) <= size m)%nat.
Proof.
  intros [_ Hnd Hdef].
  assert (Hlen : length (frames s) = length (frameNames s))
    by (unfold frameNames; rewrite length_fmap; reflexivity).
  rewrite Hlen, <- (size_dom (D := gset string) m).
  rewrite <- (size_list_to_set (C := gset string) (frameNames s) Hnd).
  apply subseteq_size. intros n Hn.
  apply elem_of_list_to_set in Hn. apply elem_of_dom.
  destruct (Hdef n Hn) as (_ & _ & _ & t & Ht & _). rewrite Ht. eexists; reflexivity.
Qed.

Section LoopTermination.

Variable rec : Expanded -> ExpandingDecoder -> Outcome (option Expanded).
Variable cs : stack.
Variable registry : gmap string template.

Hypothesis rec_returns :
  forall expr d,
    callStack d = cs -> defs d = registry -> fst (rec expr d) <> OutOfFuel.

Hypothesis rec_balanced :
  forall expr d res d',
    callStack d = cs -> defs d = registry ->
    Name (Expr expr) <> "define" ->
    rec expr d = (Ok res, d') ->
    callStack d' = cs /\ defs d' = registry.

Lemma templateLoop_returns (iter : nat) :
  forall t callsite args dec expanded d,
    callStack d = cs -> defs d = registry ->
    (length (r dec) < iter)%nat ->
    fst (templateLoop rec iter t callsite args dec expanded d) <> OutOfFuel.
Proof.
  induction iter as [|iter IH];
    intros t callsite args dec0 expanded d Hc Hd Hlen; [lia|].
  simpl.
  destruct (Decoder_Decode dec0) as [[raw|[|ln msg]] dec1] eqn:Hdec;
    [|simpl; discriminate|simpl; discriminate].
  apply Decoder_Decode_consumes in Hdec.
  destruct (Os.Expand (Name raw) _ _) as [name u1].
  destruct (Os.Expand (Body raw) _ _) as [body u2].
  destruct (negb (Str.isEmpty u2)); [simpl; discriminate|].
  destruct (String.eqb name "define") eqn:Hdef; [simpl; discriminate|].
  apply String.eqb_neq in Hdef.
  match goal with |- context [rec ?e d] => set (expr := e) in * end.
  pose proof (rec_returns expr d Hc Hd) as Hret.
  destruct (rec expr d) as [[[res1|]|e1| |] d1] eqn:Hrec;
    try (simpl; discriminate).
  - apply rec_balanced in Hrec as [Hc1 Hd1]; auto.
    apply IH; auto. lia.
  - apply rec_balanced in Hrec as [Hc1 Hd1]; auto.
    apply IH; auto. lia.
  - exfalso. apply Hret. reflexivity.
Qed.

Lemma expandTemplateBody_returns t callsite d :
  callStack d = cs -> defs d = registry ->
  fst (expandTemplateBody rec t callsite d) <> OutOfFuel.
Proof.
  intros Hc Hd. unfold expandTemplateBody.
  destruct (negb _); [simpl; discriminate|].
  pose proof (templateLoop_returns (S (length (lines_of (tbody t)))) t callsite
                (ParseArgs (Body (Expr callsite)) (Z.of_nat (length (params t))))
                (NewDecoder (tbody t)) [] d Hc Hd) as Hloop.
  destruct (templateLoop _ _ _ _ _ _ _ _) as [[[|first rest]|e1| |] d1];
    try (simpl; discriminate).
  exfalso. apply Hloop; [simpl; lia|reflexivity].
Qed.

End LoopTermination.

(** Template expansion always returns: a recursion depth above the
    number of registered templates that are not yet active is never
    used up. *)
Lemma expand_returns (depth : nat) :
  forall expr d,
    stack_ok (callStack d) (defs d) ->
    (inactive d < depth)%nat ->
    fst (expand depth expr d) <> OutOfFuel.
Proof.
  induction depth as [|depth IH]; intros expr d Hok Hdepth; [lia|].
  simpl.
  destruct (String.eqb (Name (Expr expr)) "define") eqn:Hndef.
  { destruct (define d expr) as [[u|c| |] d1] eqn:Hdefine; try (simpl; discriminate).
    unfold define in Hdefine.
    destruct (makeTemplate expr) as [t|c| |] eqn:Hmk; try discriminate Hdefine.
    - destruct (defs d !! tname t); discriminate Hdefine.
    - unfold makeTemplate in Hmk.
      destruct (negb _); [discriminate Hmk|].
      destruct (Str.CutNL _) as [[h b] f]. destruct (cutField h) as [nm rest].
      destruct (Str.isEmpty nm); [discriminate Hmk|].
      destruct (Str.ContainsAny _ _); discriminate Hmk. }
  destruct (String.eqb (Name (Expr expr)) "include") eqn:Hninc.
  { unfold expandInclude.
    destruct (Args_At _ 0) as [p|]; [|simpl; discriminate].
    destruct (Str.isEmpty p); [simpl; discriminate|].
    destruct (Str.Contains p "/"); [simpl; discriminate|].
    destruct (Str.HasSuffix p ".linebased"); [simpl; discriminate|].
    destruct (pushInclude d _) as [[] d1]; simpl; [|discriminate].
    destruct (fsys d1 _); simpl; discriminate. }
  destruct (Str.isEmpty (Name (Expr expr))) eqn:Hnblank; [simpl; discriminate|].
  destruct (defs d !! Name (Expr expr)) as [t|] eqn:Hlook; [|simpl; discriminate].
  destruct (Str.isEmpty (tbody t)) eqn:Hbody0; [simpl; discriminate|].
  unfold expandTemplate.
  set (callsite := withStack expr (framesCopy (callStack d))).
  destruct (stack_push (callStack d) callsite) as [initial s] eqn:Hpush.
  assert (Hs : s = snd (stack_push (callStack d) callsite)) by (rewrite Hpush; reflexivity).
  assert (Hi : fst (stack_push (callStack d) callsite) = initial) by (rewrite Hpush; reflexivity).
  destruct initial; simpl; [|discriminate].
  assert (Hok1 : stack_ok s (defs d)).
  { rewrite Hs. apply stack_ok_push; [exact Hok| |exact Hi].
    simpl. repeat split; auto. exists t. auto. }
  assert (Hlen1 : length (frames s) = S (length (frames (callStack d)))).
  { rewrite Hs. unfold stack_push. simpl. rewrite length_app. simpl. lia. }
  pose proof (stack_ok_bound _ _ Hok1) as Hbound.
  pose proof (expandTemplateBody_returns (expand depth) s (defs d)) as Hbody.
  specialize (Hbody
    (fun expr0 d0 Hc0 Hd0 =>
       IH expr0 d0
          (eq_ind_r (fun c => stack_ok c (defs d0))
                    (eq_ind_r (fun m => stack_ok s m) Hok1 Hd0) Hc0)
          ltac:(unfold inactive in *; rewrite Hc0, Hd0, Hlen1; lia))).
  specialize (Hbody
    (fun expr0 d0 res0 d0' Hc0 Hd0 Hne0 H0 =>
       match expand_balanced depth expr0 d0 res0 d0'
               (eq_ind_r (fun c => seen_ok c) (ok_seen _ _ Hok1) Hc0) H0 with
       | conj Hc Hd => conj (eq_trans Hc Hc0) (eq_trans (Hd Hne0) Hd0)
       end)).
  specialize (Hbody t callsite (set_callStack d s) eq_refl eq_refl).
  destruct (expandTemplateBody _ _ _ _) as [res1 d1].
  destruct res1 as [r1|e1| |]; [| | |contradiction Hbody; reflexivity];
    destruct (stack_pop (callStack d1)) as [[x s1]|]; simpl; discriminate.
Qed.

(* ===================================================================== *)
(** * No panic *)
(* ===================================================================== *)

(** [stack.pop] panics on an empty stack, [makeTemplate] on an
    expression that is no [define], and a slice access out of range:
    none of them is reached.  The frames of the call stack never
    become fewer during a call, whatever its outcome, so the deferred
    pop always finds the frame to pop. *)

Lemma stack_pop_frames (s : stack) :
  match stack_pop s with
  | Some (_, s') => length (frames s) = S (length (frames s'))
  | None => frames s = []
  end.
Proof.
  unfold stack_pop. destruct (List.rev (frames s)) as [|x l] eqn:E.
  - apply (f_equal (@List.rev _)) in E. rewrite List.rev_involutive in E. exact E.
  - apply (f_equal (@List.rev _)) in E. rewrite List.rev_involutive in E.
    simpl in E. rewrite E. cbn [frames].
    rewrite List.removelast_last, length_app. simpl. lia.
Qed.

Lemma makeTemplate_no_panic (decl : Expanded) :
  Name (Expr decl) = "define" ->
  makeTemplate decl <> Panic /\ makeTemplate decl <> OutOfFuel.
Proof.
  intros Hname. unfold makeTemplate. rewrite Hname.
  cbn [String.eqb Ascii.eqb Bool.eqb negb].
  destruct (Str.CutNL _) as [[h b] f]. destruct (cutField h) as [nm rest].
  destruct (Str.isEmpty nm); [split; discriminate|].
  destruct (Str.ContainsAny _ _); split; discriminate.
Qed.

Lemma expandInclude_safe (expr : Expanded) (d : ExpandingDecoder)
    (res : result error (option Expanded)) (d' : ExpandingDecoder) :
  expandInclude expr d = (res, d') -> res <> Panic.
Proof.
  unfold expandInclude. intros H.
  destruct (Args_At_returns (ParseArgs (Body (Expr expr)) 1) 0) as [p Hp].
  rewrite Hp in H.
  destruct (Str.isEmpty p); [inversion H; discriminate|].
  destruct (Str.Contains p "/"); [inversion H; discriminate|].
  destruct (Str.HasSuffix p ".linebased"); [inversion H; discriminate|].
  destruct (pushInclude d _) as [[] d1]; simpl in H; [|inversion H; discriminate].
  destruct (fsys d1 _); inversion H; discriminate.
Qed.

Section NoPanic.

Variable rec : Expanded -> ExpandingDecoder -> Outcome (option Expanded).

Hypothesis rec_safe :
  forall expr d res d',
    rec expr d = (res, d') ->
    res <> Panic
    /\ (length (frames (callStack d)) <= length (frames (callStack d')))%nat.

Lemma templateLoop_safe (iter : nat) :
  forall t callsite args dec expanded d res d',
    templateLoop rec iter t callsite args dec expanded d = (res, d') ->
    res <> Panic
    /\ (length (frames (callStack d)) <= length (frames (callStack d')))%nat.
Proof.
  induction iter as [|iter IH];
    intros t callsite args dec0 expanded d res d' H; simpl in H.
  { inversion H; subst. split; [discriminate|lia]. }
  destruct (Decoder_Decode dec0) as [[raw|[|ln msg]] dec1];
    try (inversion H; subst; split; [discriminate|lia]).
  destruct (Os.Expand (Name raw) _ _) as [name u1].
  destruct (Os.Expand (Body raw) _ _) as [body u2].
  destruct (negb (Str.isEmpty u2)); [inversion H; subst; split; [discriminate|lia]|].
  destruct (String.eqb name "define"); [inversion H; subst; split; [discriminate|lia]|].
  destruct (rec _ d) as [res1 d1] eqn:Hrec.
  apply rec_safe in Hrec as [Hnp Hlen].
  destruct res1 as [[r1|]|e1| |];
    try (inversion H; subst; split; [discriminate|lia]).
  - apply IH in H as [H1 H2]. split; [exact H1|lia].
  - apply IH in H as [H1 H2]. split; [exact H1|lia].
  - contradiction Hnp; reflexivity.
Qed.

Lemma expandTemplateBody_safe t callsite d res d' :
  expandTemplateBody rec t callsite d = (res, d') ->
  res <> Panic
  /\ (length (frames (callStack d)) <= length (frames (callStack d')))%nat.
Proof.
  unfold expandTemplateBody. intros H.
  destruct (negb _); [inversion H; subst; split; [discriminate|lia]|].
  destruct (templateLoop _ _ _ _ _ _ _ _) as [res1 d1] eqn:Hloop.
  apply templateLoop_safe in Hloop as [Hnp Hlen].
  destruct res1 as [[|first rest]|e1| |]; inversion H; subst; simpl;
    split; try discriminate; try lia.
  contradiction Hnp; reflexivity.
Qed.

Lemma expandTemplate_safe t callsite d res d' :
  expandTemplate rec t callsite d = (res, d') ->
  res <> Panic
  /\ (length (frames (callStack d)) <= length (frames (callStack d')))%nat.
Proof.
  unfold expandTemplate, stack_push. intros H. cbn [fst snd] in H.
  destruct (negb (negb _)).
  { inversion H; subst. cbn [callStack frames set_callStack].
    rewrite length_app. split; [discriminate|lia]. }
  destruct (expandTemplateBody _ _ _ _) as [res1 d1] eqn:Hbody.
  apply expandTemplateBody_safe in Hbody as [Hnp Hlen].
  cbn [callStack frames set_callStack] in Hlen. rewrite length_app in Hlen.
  simpl in Hlen.
  pose proof (stack_pop_frames (callStack d1)) as Hpop.
  destruct (stack_pop (callStack d1)) as [[x s1]|].
  - destruct res1; inversion H; subst; cbn [callStack set_callStack];
      split; try discriminate; try lia.
    contradiction Hnp; reflexivity.
  - rewrite Hpop in Hlen. simpl in Hlen. lia.
Qed.

End NoPanic.

(** [expand] never panics. *)
Lemma expand_safe (depth : nat) :
  forall expr d res d',
    expand depth expr d = (res, d') ->
    res <> Panic
    /\ (length (frames (callStack d)) <= length (frames (callStack d')))%nat.
Proof.
  induction depth as [|depth IH]; intros expr d res d' H; simpl in H.
  all: destruct (String.eqb (Name (Expr expr)) "define") eqn:Hdef;
    [ apply String.eqb_eq in Hdef;
      destruct (makeTemplate_no_panic expr Hdef) as [Hnp Hnf];
      unfold define in H;
      destruct (makeTemplate expr) as [t|c| |];
        [ destruct (defs d !! tname t); inversion H; subst; simpl;
            split; try discriminate; lia
        | inversion H; subst; split; [discriminate|lia]
        | contradiction Hnp; reflexivity
        | contradiction Hnf; reflexivity ] |].
  all: destruct (String.eqb (Name (Expr expr)) "include");
    [ split; [eapply expandInclude_safe; exact H|];
      apply expandInclude_preserves in H as [-> _]; lia |].
  all: destruct (Str.isEmpty (Name (Expr expr)));
    [ inversion H; subst; split; [discriminate|lia] |].
  all: destruct (defs d !! Name (Expr expr)) as [t|];
    [| inversion H; subst; split; [discriminate|lia] ].
  all: destruct (Str.isEmpty (tbody t));
    [ inversion H; subst; split; [discriminate|lia] |].
  - inversion H; subst. split; [discriminate|lia].
  - eapply expandTemplate_safe; [|exact H]. exact IH.
Qed.

(* ===================================================================== *)
(** * Recursion detection *)
(* ===================================================================== *)

(** Between two calls of [Decode] no template is active: a call that
    returns an expression leaves the call stack empty. *)
Lemma decodeExpanded_callStack (depth iter : nat) :
  forall d e d',
    seen_ok (callStack d) ->
    decodeExpanded depth iter d = (Ok e, d') ->
    callStack d' = callStack d.
Proof.
  induction iter as [|iter IH]; intros d e d' Hok H; simpl in H; [discriminate H|].
  destruct (pending d) as [|x rest]; [|inversion H; subst; reflexivity].
  destruct (List.rev (decoderStack d)) as [|frame fs]; [discriminate H|].
  destruct (Decoder_Decode (dec frame)) as [[raw|[|ln msg]] dec'].
  - destruct (expand depth _ _) as [[[res|]|e1| |] d1] eqn:Hexp;
      try discriminate H;
      apply expand_balanced in Hexp as [Hc _]; try exact Hok.
    + inversion H; subst. exact Hc.
    + apply IH in H; [|rewrite Hc; exact Hok]. rewrite H. exact Hc.
  - apply IH in H.
    + rewrite H. destruct (popInclude_preserves
        (set_decoderStack d (List.removelast (decoderStack d)))) as [-> _].
      reflexivity.
    + destruct (popInclude_preserves
        (set_decoderStack d (List.removelast (decoderStack d)))) as [-> _].
      exact Hok.
  - discriminate H.
Qed.

(** The invariant holds in a new engine and between the calls of
    [Decode]: there the call stack is empty. *)
Lemma NewExpandingDecoder_callStack (name : string) (fs : FS) :
  callStack (NewExpandingDecoder name fs) = {| frames := []; seen := ∅ |}.
Proof. unfold NewExpandingDecoder. destruct (fs name); reflexivity. Qed.

Lemma Decode_callStack (fuel : nat) (d : ExpandingDecoder) (e : Expanded)
    (d' : ExpandingDecoder) :
  callStack d = {| frames := []; seen := ∅ |} ->
  Decode fuel d = (Ok e, d') ->
  callStack d' = {| frames := []; seen := ∅ |}
  /\ stack_ok (callStack d') (defs d').
Proof.
  intros Hempty H. unfold Decode in H.
  destruct (err d); [discriminate H|].
  apply decodeExpanded_callStack in H.
  - rewrite H, Hempty. split; [reflexivity|apply stack_ok_empty].
  - rewrite Hempty. apply seen_ok_empty.
Qed.

(** A call whose name is active fails in [expandTemplate] at once:
    whatever the recursive call of [expand] would do, it is not made. *)
Lemma expandTemplate_active
    (rec : Expanded -> ExpandingDecoder -> Outcome (option Expanded))
    (t : template) (callsite : Expanded) (d : ExpandingDecoder) :
  seen_ok (callStack d) ->
  Name (Expr callsite) ∈ frameNames (callStack d) ->
  exists msg : string,
    expandTemplate rec t callsite d
    = (Err (ExpressionError (withStack callsite (frames (callStack d)))
                            (RecursionDetected msg)),
       set_callStack d
         (snd (stack_push (callStack d)
                          (withStack callsite (frames (callStack d)))))).
Proof.
  intros Hok Hin. unfold expandTemplate, framesCopy.
  set (cs := withStack callsite (frames (callStack d))).
  pose proof (stack_push_fst (callStack d) cs Hok) as Hfst.
  destruct (stack_push (callStack d) cs) as [initial s].
  simpl in Hfst. subst initial.
  rewrite (bool_decide_eq_true_2 _ Hin). simpl.
  eexists. reflexivity.
Qed.

(* ===================================================================== *)
(** * Scripts without [define] and [include] *)
(* ===================================================================== *)

Lemma expand_plain (depth : nat) (expr : Expanded) (d : ExpandingDecoder) :
  defs d = ∅ -> callStack d = {| frames := []; seen := ∅ |} ->
  Stack expr = [] ->
  Name (Expr expr) <> "define" -> Name (Expr expr) <> "include" ->
  expand depth expr d = (Ok (Some expr), d).
Proof.
  intros Hdefs Hcs Hstack Hdef Hinc.
  apply String.eqb_neq in Hdef. apply String.eqb_neq in Hinc.
  assert (Hpass : passThrough expr d = (Ok (Some expr), d)).
  { unfold passThrough, framesCopy, withStack. rewrite Hcs. simpl.
    destruct expr as [e f st]. simpl in Hstack. subst st. reflexivity. }
  destruct depth; simpl; rewrite Hdef, Hinc;
    (destruct (Str.isEmpty (Name (Expr expr))); [reflexivity|]);
    rewrite Hdefs, lookup_empty; exact Hpass.
Qed.

Lemma Expanding_stream_plain (fuel : nat) (name : string) (n : nat) :
  (2 <= fuel)%nat ->
  forall (dec0 : Decoder) (d : ExpandingDecoder),
    plain d dec0 name ->
    List.Forall (fun e => Name e <> "define" /\ Name e <> "include")
                (fst (Decoder_stream n dec0)) ->
    Expanding_stream n fuel d
    = (annotate (filePath d name) <$> fst (Decoder_stream n dec0),
       wrapDecodeError (filePath d name) <$> snd (Decoder_stream n dec0)).
Proof.
  intros Hfuel. induction n as [|n IH]; intros dec0 d Hplain Hall; [reflexivity|].
  destruct Hplain as [Hdefs Hpend Hcs Hds Herr].
  simpl. unfold Decode. rewrite Herr.
  destruct fuel as [|[|fuel]]; [lia|lia|].
  cbn [decodeExpanded]. rewrite Hpend, Hds. cbn [List.rev List.app dec file].
  simpl in Hall.
  destruct (Decoder_Decode dec0) as [[raw|[|ln msg]] dec1] eqn:Hdec.
  - destruct (Decoder_stream n dec1) as [es stop] eqn:Hstream.
    simpl in Hall. apply List.Forall_cons_iff in Hall as [[Hdef Hinc] Hall].
    set (d1 := set_decoderStack d (updateTop [ {| dec := dec0; file := name |} ] dec1)).
    rewrite (expand_plain _ (annotate (filePath d1 name) raw) d1);
      [|exact Hdefs|exact Hcs|reflexivity|exact Hdef|exact Hinc].
    rewrite (IH dec1 d1).
    + rewrite Hstream. reflexivity.
    + split; try assumption. reflexivity.
    + rewrite Hstream. exact Hall.
  - assert (Hpop : pending (popInclude (set_decoderStack d [])) = []
                   /\ decoderStack (popInclude (set_decoderStack d [])) = []).
    { unfold popInclude. simpl. destruct (includeStack d); simpl; auto. }
    destruct Hpop as [Hp Hs]. simpl. rewrite Hp, Hs. reflexivity.
  - simpl. reflexivity.
Qed.

(** C3.  For every input script in which the tokenizer finds no
    expression named [define] or [include], the read loop over the
    expansion engine produces, call for call, the expressions the read
    loop over the raw tokenizer produces on the same input, each with
    its line, comment, name and body unchanged and with the file
    annotation added and an empty stack annotation, and it stops where
    the tokenizer stops (end of input, or the same syntax error given
    its file and line). *)
Theorem expansion_refines_tokenizer
    (name input root : string) (fs : FS) (n fuel : nat) :
  fs name = inl input ->
  (2 <= fuel)%nat ->
  List.Forall (fun e => Name e <> "define" /\ Name e <> "include")
              (fst (Decoder_stream n (NewDecoder input))) ->
  Expanding_stream n fuel (SetRoot (NewExpandingDecoder name fs) root)
  = (annotate (Path.Join root name) <$> fst (Decoder_stream n (NewDecoder input)),
     wrapDecodeError (Path.Join root name)
       <$> snd (Decoder_stream n (NewDecoder input))).
Proof.
  intros Hopen Hfuel Hall.
  apply (Expanding_stream_plain fuel name n Hfuel (NewDecoder input)); [|exact Hall].
  unfold NewExpandingDecoder. rewrite Hopen. split; reflexivity.
Qed.

(* ===================================================================== *)
(** * White space, trimming and searching *)
(* ===================================================================== *)

Module SpaceFacts.
Import Str StrFacts.

Lemma IndexAny_cons (c : ascii) (s cs : string) :
  IndexAny (String c s) cs
  = if inSet c cs then Some O else option_map S (IndexAny s cs).
Proof. reflexivity. Qed.

Lemma IndexAny_None_cons (c : ascii) (s cs : string) :
  IndexAny (String c s) cs = None <-> inSet c cs = false /\ IndexAny s cs = None.
Proof.
  rewrite IndexAny_cons. destruct (inSet c cs); split.
  - discriminate.
  - intros [H _]. discriminate H.
  - destruct (IndexAny s cs); [discriminate|auto].
  - intros [_ ->]. reflexivity.
Qed.

Lemma IndexAny_None_app (a b cs : string) :
  IndexAny (a +:+ b) cs = None <-> IndexAny a cs = None /\ IndexAny b cs = None.
Proof.
  induction a as [|c a IH].
  - rewrite app_nil_l. split; [auto|intros [_ H]; exact H].
  - rewrite app_cons, !IndexAny_None_cons, IH. tauto.
Qed.

(** the bytes before the first hit contain no hit *)
Lemma IndexAny_take (s cs : string) (i : nat) :
  IndexAny s cs = Some i -> IndexAny (take i s) cs = None.
Proof.
  revert i. induction s as [|c s IH]; intros i H; [discriminate H|].
  rewrite IndexAny_cons in H. destruct (inSet c cs) eqn:Hc.
  - inversion H; subst. reflexivity.
  - destruct (IndexAny s cs) as [k|] eqn:Hk; [|discriminate H].
    inversion H; subst. cbn [take]. apply IndexAny_None_cons. auto.
Qed.

Lemma IndexAny_app_hit (a b cs : string) (c : ascii) :
  IndexAny a cs = None -> inSet c cs = true ->
  IndexAny (a +:+ String c b) cs = Some (len a).
Proof.
  intros Ha Hc. induction a as [|x a IH].
  - rewrite app_nil_l, IndexAny_cons, Hc. reflexivity.
  - apply IndexAny_None_cons in Ha as [Hx Ha].
    rewrite app_cons, IndexAny_cons, Hx, (IH Ha). reflexivity.
Qed.

Lemma inSet_sub (c : ascii) (cs cs' : string) :
  (forall x, inSet x cs' = true -> inSet x cs = true) ->
  inSet c cs = false -> inSet c cs' = false.
Proof.
  intros Hsub Hc. destruct (inSet c cs') eqn:E; [|reflexivity].
  rewrite (Hsub c E) in Hc. discriminate Hc.
Qed.

Lemma IndexAny_None_sub (s cs cs' : string) :
  (forall x, inSet x cs' = true -> inSet x cs = true) ->
  IndexAny s cs = None -> IndexAny s cs' = None.
Proof.
  intros Hsub. induction s as [|c s IH]; intros H; [reflexivity|].
  apply IndexAny_None_cons in H as [Hc Hs].
  apply IndexAny_None_cons. split; [eapply inSet_sub; eauto|auto].
Qed.

(** ** The white-space rune at the head of a string *)

Lemma wsWidth_cons (c : ascii) (s : string) :
  wsWidth (String c s) = spaceWidth c (head s) (head (drop 1 s)).
Proof. reflexivity. Qed.

(** A white-space rune at the head stays one when text follows. *)
Lemma wsWidth_app (p z : string) :
  wsWidth p <> O -> wsWidth (p +:+ z) = wsWidth p.
Proof.
  destruct p as [|c1 [|c2 [|c3 p3]]]; intros H.
  - contradiction H; reflexivity.
  - rewrite app_cons, app_nil_l, !wsWidth_cons in *. cbn [head drop] in *.
    unfold spaceWidth in *.
    destruct ((9 <=? byte c1) && (byte c1 <=? 13) || (byte c1 =? 32))%N;
      [reflexivity|contradiction H; reflexivity].
  - rewrite !app_cons, app_nil_l, !wsWidth_cons in *. cbn [head drop] in *.
    unfold spaceWidth in *.
    destruct ((9 <=? byte c1) && (byte c1 <=? 13) || (byte c1 =? 32))%N;
      [reflexivity|].
    destruct ((byte c1 =? 194) && ((byte c2 =? 133) || (byte c2 =? 160)))%N;
      [reflexivity|contradiction H; reflexivity].
  - rewrite !app_cons, !wsWidth_cons. reflexivity.
Qed.

Lemma wsWidth_zero_head (c : ascii) (s : string) :
  wsWidth (String c s) = O ->
  inSet c (String space (String tab "")) = false.
Proof.
  rewrite wsWidth_cons. unfold spaceWidth. intros H.
  destruct ((9 <=? byte c) && (byte c <=? 13) || (byte c =? 32))%N eqn:E;
    [discriminate H|].
  cbn [inSet]. rewrite orb_false_r.
  destruct (Ascii.eqb c space) eqn:E1.
  { apply Ascii.eqb_eq in E1. subst c. discriminate E. }
  destruct (Ascii.eqb c tab) eqn:E2.
  { apply Ascii.eqb_eq in E2. subst c. discriminate E. }
  reflexivity.
Qed.

(** ** [TrimLeftSpace] *)

Lemma trimLeftSpaceFrom_head (s : string) :
  forall k : nat, wsWidth (trimLeftSpaceFrom k s) = O.
Proof.
  induction s as [|c s IH]; intros k; [reflexivity|].
  cbn [trimLeftSpaceFrom]. destruct k as [|k]; [|apply IH].
  destruct (wsWidth (String c s)) eqn:E; [exact E|apply IH].
Qed.

Lemma TrimLeftSpace_head (s : string) : wsWidth (TrimLeftSpace s) = O.
Proof. apply trimLeftSpaceFrom_head. Qed.

Lemma TrimLeftSpace_id (s : string) : wsWidth s = O -> TrimLeftSpace s = s.
Proof.
  intros H. unfold TrimLeftSpace. destruct s as [|c s]; [reflexivity|].
  cbn [trimLeftSpaceFrom]. rewrite H. reflexivity.
Qed.

Lemma trimLeftSpaceFrom_IndexAny (cs s : string) :
  forall k : nat,
    IndexAny s cs = None -> IndexAny (trimLeftSpaceFrom k s) cs = None.
Proof.
  induction s as [|c s IH]; intros k H; [reflexivity|].
  pose proof H as H'. apply IndexAny_None_cons in H' as [_ Hs].
  cbn [trimLeftSpaceFrom]. destruct k as [|k]; [|apply IH; exact Hs].
  destruct (wsWidth (String c s)); [exact H|apply IH; exact Hs].
Qed.

(** ** [TrimRightSpace] *)

Lemma TrimRightSpace_cons (c : ascii) (s : string) :
  TrimRightSpace (String c s)
  = if isSpaceRune (String c (TrimRightSpace s)) then EmptyString
    else String c (TrimRightSpace s).
Proof. reflexivity. Qed.

Lemma TrimRightSpace_idem (s : string) :
  TrimRightSpace (TrimRightSpace s) = TrimRightSpace s.
Proof.
  induction s as [|c s IH]; [reflexivity|].
  rewrite TrimRightSpace_cons.
  destruct (isSpaceRune (String c (TrimRightSpace s))) eqn:E; [reflexivity|].
  rewrite TrimRightSpace_cons, IH, E. reflexivity.
Qed.

Lemma TrimRightSpace_prefix (s : string) :
  exists z : string, s = TrimRightSpace s +:+ z.
Proof.
  induction s as [|c s [z IH]]; [exists ""; reflexivity|].
  rewrite TrimRightSpace_cons.
  destruct (isSpaceRune _).
  - exists (String c s). reflexivity.
  - exists z. rewrite app_cons, <- IH. reflexivity.
Qed.

Lemma TrimRightSpace_head (s : string) :
  wsWidth s = O -> wsWidth (TrimRightSpace s) = O.
Proof.
  intros H. destruct (TrimRightSpace_prefix s) as [z Hz].
  destruct (wsWidth (TrimRightSpace s)) eqn:E; [reflexivity|].
  rewrite Hz, wsWidth_app in H; [congruence|]. rewrite E. discriminate.
Qed.

Lemma TrimRightSpace_IndexAny (cs s : string) :
  IndexAny s cs = None -> IndexAny (TrimRightSpace s) cs = None.
Proof.
  induction s as [|c s IH]; intros H; [reflexivity|].
  apply IndexAny_None_cons in H as [Hc Hs].
  rewrite TrimRightSpace_cons. destruct (isSpaceRune _); [reflexivity|].
  apply IndexAny_None_cons. auto.
Qed.

(** ** [TrimSpace] *)

Lemma TrimSpace_idem (s : string) : TrimSpace (TrimSpace s) = TrimSpace s.
Proof.
  unfold TrimSpace.
  rewrite (TrimLeftSpace_id (TrimRightSpace (TrimLeftSpace s))).
  - apply TrimRightSpace_idem.
  - apply TrimRightSpace_head, TrimLeftSpace_head.
Qed.

Lemma TrimSpace_IndexAny (cs s : string) :
  IndexAny s cs = None -> IndexAny (TrimSpace s) cs = None.
Proof.
  intros H. unfold TrimSpace.
  apply TrimRightSpace_IndexAny, trimLeftSpaceFrom_IndexAny. exact H.
Qed.

(** ** [TrimLeft] *)

Lemma TrimLeft_id (s cs : string) :
  match s with EmptyString => True | String c _ => inSet c cs = false end ->
  TrimLeft s cs = s.
Proof. destruct s as [|c s]; [reflexivity|]. cbn [TrimLeft]. intros ->. reflexivity. Qed.

End SpaceFacts.

(* ===================================================================== *)
(** * The loop of [ParseArgs] *)
(* ===================================================================== *)

Module ArgsFacts.
Import Str StrFacts SpaceFacts.

Lemma trimLeftSpaceFrom_len (s : string) :
  forall k : nat, (len (trimLeftSpaceFrom k s) <= len s)%nat.
Proof.
  induction s as [|c s IH]; intros k; [reflexivity|].
  cbn [trimLeftSpaceFrom]. unfold len in *. cbn [String.length].
  destruct k as [|k]; [|specialize (IH k); lia].
  destruct (wsWidth (String c s)) as [|w]; [cbn [String.length]; lia|].
  specialize (IH w). lia.
Qed.

Lemma TrimLeftSpace_shrinks (s : string) :
  wsWidth s <> O -> (len (TrimLeftSpace s) < len s)%nat.
Proof.
  destruct s as [|c s]; intros H; [contradiction H; reflexivity|].
  unfold TrimLeftSpace. cbn [trimLeftSpaceFrom].
  destruct (wsWidth (String c s)) as [|w]; [contradiction H; reflexivity|].
  pose proof (trimLeftSpaceFrom_len s w). unfold len in *. cbn [String.length]. lia.
Qed.

Lemma drop_len (n : nat) (s : string) : (len (drop n s) <= len s)%nat.
Proof.
  revert s. induction n as [|n IH]; intros [|c s]; cbn [drop]; try lia.
  specialize (IH s). unfold len in *. cbn [String.length]. lia.
Qed.

Lemma IndexSpace_hit (s : string) (i : nat) :
  IndexSpace s = Some i -> wsWidth (drop i s) <> O.
Proof.
  revert i. induction s as [|c s IH]; intros i H; [discriminate H|].
  cbn [IndexSpace] in H.
  destruct (wsWidth (String c s)) eqn:E.
  - destruct (IndexSpace s) as [k|]; [|discriminate H].
    inversion H; subst. cbn [drop]. apply IH. reflexivity.
  - inversion H; subst. cbn [drop]. rewrite E. discriminate.
Qed.

(** [cutField] takes at least one byte from a string that has any. *)
Lemma cutField_shrinks (s : string) :
  s <> EmptyString -> (len (snd (cutField s)) < len s)%nat.
Proof.
  intros Hne. unfold cutField.
  pose proof (trimLeftSpaceFrom_len s 0) as Hle. fold (TrimLeftSpace s) in Hle.
  destruct (IndexSpace (TrimLeftSpace s)) as [i|] eqn:E; cbn [snd].
  - pose proof (TrimLeftSpace_shrinks _ (IndexSpace_hit _ _ E)).
    pose proof (drop_len i (TrimLeftSpace s)). lia.
  - destruct s; [contradiction Hne; reflexivity|]. unfold len. cbn [String.length]. lia.
Qed.

(** [len s] iterations are all the loop of [ParseArgs] ever makes:
    more change nothing. *)
Lemma parseArgsLoop_enough (iter1 : nat) :
  forall (iter2 : nat) (s : string) (n : Z) (unlimited : bool),
    (len s <= iter1)%nat -> (len s <= iter2)%nat ->
    parseArgsLoop iter1 s n unlimited = parseArgsLoop iter2 s n unlimited.
Proof.
  induction iter1 as [|iter1 IH]; intros iter2 s n unlimited H1 H2.
  - destruct s; [|unfold len in H1; cbn [String.length] in H1; lia].
    destruct iter2; reflexivity.
  - destruct iter2 as [|iter2].
    + destruct s; [reflexivity|unfold len in H2; cbn [String.length] in H2; lia].
    + cbn [parseArgsLoop].
      destruct (isEmpty s) eqn:Hs; [reflexivity|].
      destruct ((n =? 1) && negb unlimited); [reflexivity|].
      assert (Hne : s <> EmptyString) by (intros ->; discriminate Hs).
      pose proof (cutField_shrinks s Hne) as Hlt.
      destruct (cutField s) as [arg s']. cbn [snd] in Hlt.
      f_equal. apply IH; lia.
Qed.

End ArgsFacts.

(* ===================================================================== *)
(** * Reconstructed source text *)
(* ===================================================================== *)

Module Reparse.
Import Str StrFacts SpaceFacts.

(** The name [parseBody] returns is trimmed and free of blanks. *)
Lemma parseBody_name (body : string) :
  IndexAny (fst (parseBody body)) blanks = None
  /\ TrimSpace (fst (parseBody body)) = fst (parseBody body).
Proof.
  unfold parseBody. fold blanks.
  destruct (IndexAny body blanks) as [i|] eqn:E; cbn [fst].
  - split; [|apply TrimSpace_idem].
    apply TrimSpace_IndexAny, IndexAny_take. exact E.
  - split; [|apply TrimSpace_idem].
    apply TrimSpace_IndexAny. exact E.
Qed.

Lemma makeExpr_name (ln : Z) (comment body : string) :
  Name (makeExpr ln comment body) = fst (parseBody body).
Proof. unfold makeExpr. destruct (parseBody body). reflexivity. Qed.

(** Every expression of the tokenizer is built by [makeExpr]. *)
Lemma decodeLoop_makeExpr (rs : list string) :
  forall ln comments e d',
    decodeLoop rs ln comments = (inl e, d') ->
    exists ln' comments' body, e = makeExpr ln' comments' body.
Proof.
  induction rs as [|l rest IH]; intros ln comments e d' H.
  - simpl in H. destruct (isEmpty comments); inversion H; eauto.
  - destruct l as [|c tl]; simpl in H.
    + destruct (isEmpty comments); inversion H; eauto.
    + destruct (Ascii.eqb c nl); [inversion H; eauto|].
      destruct (Ascii.eqb c "#"); [eapply IH; eauto|].
      destruct (Ascii.eqb c space || Ascii.eqb c tab); [discriminate H|].
      destruct (readContinuation _ _ _) as [body d2]. inversion H; eauto.
Qed.

Lemma Decode_name (d : Decoder) (e : Expression) (d' : Decoder) :
  Decoder_Decode d = (inl e, d') ->
  IndexAny (Name e) blanks = None /\ TrimSpace (Name e) = Name e.
Proof.
  intros H. apply decodeLoop_makeExpr in H as (ln & c & b & ->).
  rewrite makeExpr_name. apply parseBody_name.
Qed.

(** A text without line break, followed by a newline, is one line. *)
Lemma lines_of_single (x : string) :
  IndexAny x NL = None -> lines_of (x +:+ NL) = [x +:+ NL].
Proof.
  induction x as [|c x IH]; intros H; [reflexivity|].
  apply IndexAny_None_cons in H as [Hc Hx].
  unfold NL in Hc. cbn [inSet] in Hc. rewrite orb_false_r in Hc.
  rewrite app_cons. cbn [lines_of]. rewrite Hc, (IH Hx). reflexivity.
Qed.

Lemma parseBody_cut (name rest : string) (c : ascii) :
  IndexAny name blanks = None -> inSet c blanks = true ->
  parseBody (name +:+ String c rest)
  = (TrimSpace name, TrimLeft (String c rest) (String space (String tab ""))).
Proof.
  intros Hname Hc. unfold parseBody. fold blanks.
  rewrite (IndexAny_app_hit _ _ _ _ Hname Hc), take_app_len, drop_app_len.
  reflexivity.
Qed.

(** Tokenizing one command line [name ++ rest] that ends the input. *)
Lemma Decode_command_line (name rest : string) (c : ascii) :
  name <> EmptyString ->
  IndexAny name blanks = None ->
  head name <> Some "#"%char ->
  inSet c blanks = true ->
  lines_of (name +:+ String c rest) = [name +:+ String c rest] ->
  Decoder_Decode (NewDecoder (name +:+ String c rest))
  = (inl {| Line := 1; Comment := "";
            Name := TrimSpace name;
            Body := TrimLeft (String c rest) (String space (String tab "")) |},
     {| r := []; line := 1 |}).
Proof.
  intros Hne Hname Hhash Hc Hlines.
  unfold Decoder_Decode, NewDecoder. cbn [r line]. rewrite Hlines.
  pose proof (parseBody_cut name rest c Hname Hc) as Hparse.
  destruct name as [|c0 name']; [contradiction Hne; reflexivity|].
  apply IndexAny_None_cons in Hname as [Hc0 _].
  unfold blanks, NL in Hc0. cbn [inSet] in Hc0. rewrite orb_false_r in Hc0.
  apply orb_false_iff in Hc0 as [Hsp Hc0]. apply orb_false_iff in Hc0 as [Htab Hnl].
  assert (Hh : Ascii.eqb c0 "#" = false).
  { destruct (Ascii.eqb c0 "#") eqn:E; [|reflexivity].
    apply Ascii.eqb_eq in E. subst c0. contradiction Hhash; reflexivity. }
  rewrite app_cons in *. cbn [decodeLoop readContinuation].
  rewrite Hnl, Hh, Hsp, Htab. cbn [orb].
  unfold makeExpr. rewrite Hparse. reflexivity.
Qed.

End Reparse.

(** C5 (as amended).  For every [Expression] the tokenizer's [Decode]
    returns whose body has no line break before its end, whose name
    does not begin with [#], and whose name is empty only when its
    body is blank (a blank line or a closing comment), the source text
    [String] reconstructs is tokenized again into one expression with
    the same name, whose body is the original body without its
    leading white space and with exactly one closing newline. *)
Theorem String_reparses_single_line
    (d d' : Decoder) (e : Expression) (file : string) (st : list Expanded) :
  Decoder_Decode d = (inl e, d') ->
  Str.IndexAny (Str.TrimSuffix (Body e) Str.NL) Str.NL = None ->
  Str.head (Name e) <> Some "#"%char ->
  (Name e = EmptyString ->
   Str.TrimLeftSpace (Str.TrimSuffix (Body e) Str.NL) = EmptyString) ->
  Decoder_Decode
    (NewDecoder (Expanded_String {| Expr := e; File := file; Stack := st |}))
  = (inl {| Line := 1; Comment := "";
            Name := Name e;
            Body := Str.TrimLeftSpace (Str.TrimSuffix (Body e) Str.NL) +:+ Str.NL |},
     {| r := []; line := 1 |}).
Proof.
  intros Hdec Hline Hhash Hblankline.
  destruct (Reparse.Decode_name _ _ _ Hdec) as [Hblank Htrim].
  unfold Expanded_String. cbn [Expr Name Body].
  set (tail := Str.TrimSuffix (Body e) Str.NL) in *.
  assert (Hpre : Str.HasPrefix tail Str.NL = false).
  { destruct tail as [|c t]; [reflexivity|].
    apply SpaceFacts.IndexAny_None_cons in Hline as [Hc _].
    unfold Str.NL in Hc. cbn [Str.inSet] in Hc. rewrite orb_false_r in Hc.
    unfold Str.HasPrefix, Str.NL. cbn [String.prefix].
    destruct (ascii_dec Str.nl c) as [<-|_]; [|reflexivity].
    rewrite Ascii.eqb_refl in Hc. discriminate Hc. }
  rewrite Hpre.
  pose proof (SpaceFacts.trimLeftSpaceFrom_IndexAny Str.NL tail 0 Hline) as Htl.
  pose proof (SpaceFacts.TrimLeftSpace_head tail) as Hhead.
  fold (Str.TrimLeftSpace tail) in Htl.
  set (tl := Str.TrimLeftSpace tail) in *.
  destruct (Name e) as [|c0 name'] eqn:Ename.
  { (* a blank line *)
    rewrite (Hblankline eq_refl). reflexivity. }
  rewrite <- Ename in *.
  assert (Hne : Name e <> EmptyString) by (rewrite Ename; discriminate).
  clear Hblankline.
  assert (Hnl : Str.IndexAny (Name e) Str.NL = None).
  { eapply SpaceFacts.IndexAny_None_sub; [|exact Hblank].
    intros x Hx. unfold blanks, Str.NL in *. cbn [Str.inSet] in *.
    rewrite orb_false_r in Hx. rewrite Hx. rewrite !orb_true_r. reflexivity. }
  destruct tl as [|c t] eqn:Etl; cbn [Str.isEmpty].
  - change Str.NL with (String Str.nl "").
    rewrite (Reparse.Decode_command_line (Name e) "" Str.nl);
      [|exact Hne|exact Hblank|exact Hhash|reflexivity
       |apply Reparse.lines_of_single; exact Hnl].
    rewrite Htrim. reflexivity.
  - rewrite StrFacts.app_cons.
    rewrite (Reparse.Decode_command_line (Name e) (String c t +:+ Str.NL) Str.space);
      [|exact Hne|exact Hblank|exact Hhash|reflexivity|].
    + rewrite Htrim. cbn [Str.TrimLeft Str.inSet]. rewrite Ascii.eqb_refl. cbn [orb].
      rewrite (SpaceFacts.TrimLeft_id (String c t +:+ Str.NL)); [reflexivity|].
      rewrite StrFacts.app_cons. eapply SpaceFacts.wsWidth_zero_head. exact Hhead.
    + change (String Str.space (String c t +:+ Str.NL))
        with ((String Str.space (String c t)) +:+ Str.NL).
      rewrite <- StrFacts.app_assoc. apply Reparse.lines_of_single.
      apply SpaceFacts.IndexAny_None_app. split; [exact Hnl|].
      apply SpaceFacts.IndexAny_None_cons. split; [reflexivity|exact Htl].
Qed.

(* ===================================================================== *)
(** * The budget of the model does not matter *)
(* ===================================================================== *)

(** A result obtained within some budget is the result for every
    larger budget: [OutOfFuel] is the only thing a budget decides. *)

Section Budget.

Variables rec1 rec2 : Expanded -> ExpandingDecoder -> Outcome (option Expanded).

Hypothesis rec_mono :
  forall expr d res d',
    rec1 expr d = (res, d') -> res <> OutOfFuel -> rec2 expr d = (res, d').

Lemma templateLoop_mono (iter : nat) :
  forall t callsite args dec expanded d res d',
    templateLoop rec1 iter t callsite args dec expanded d = (res, d') ->
    res <> OutOfFuel ->
    templateLoop rec2 iter t callsite args dec expanded d = (res, d').
Proof.
  induction iter as [|iter IH];
    intros t callsite args dec0 expanded d res d' H Hres; simpl in H |- *.
  { inversion H; subst. contradiction Hres; reflexivity. }
  destruct (Decoder_Decode dec0) as [[raw|[|ln msg]] dec1]; try exact H.
  destruct (Os.Expand (Name raw) _ _) as [name u1].
  destruct (Os.Expand (Body raw) _ _) as [body u2].
  destruct (negb (Str.isEmpty u2)); [exact H|].
  destruct (String.eqb name "define"); [exact H|].
  destruct (rec1 _ d) as [res1 d1] eqn:Hrec.
  assert (Hne : res1 <> OutOfFuel).
  { intros ->. inversion H; subst. contradiction Hres; reflexivity. }
  rewrite (rec_mono _ _ _ _ Hrec Hne).
  destruct res1 as [[r1|]|e1| |]; try exact H; apply IH; assumption.
Qed.

Lemma expandTemplateBody_mono t callsite d res d' :
  expandTemplateBody rec1 t callsite d = (res, d') ->
  res <> OutOfFuel ->
  expandTemplateBody rec2 t callsite d = (res, d').
Proof.
  unfold expandTemplateBody. intros H Hres.
  destruct (negb (Nat.eqb _ _)); [exact H|].
  destruct (templateLoop rec1 _ _ _ _ _ _ _) as [res1 d1] eqn:Hloop.
  assert (Hne : res1 <> OutOfFuel).
  { intros ->. inversion H; subst. contradiction Hres; reflexivity. }
  rewrite (templateLoop_mono _ _ _ _ _ _ _ _ _ Hloop Hne). exact H.
Qed.

Lemma expandTemplate_mono t callsite d res d' :
  expandTemplate rec1 t callsite d = (res, d') ->
  res <> OutOfFuel ->
  expandTemplate rec2 t callsite d = (res, d').
Proof.
  unfold expandTemplate. intros H Hres.
  destruct (stack_push _ _) as [initial s].
  destruct (negb initial); [exact H|].
  destruct (expandTemplateBody rec1 _ _ _) as [res1 d1] eqn:Hbody.
  assert (Hne : res1 <> OutOfFuel).
  { intros ->. inversion H; subst. contradiction Hres; reflexivity. }
  rewrite (expandTemplateBody_mono _ _ _ _ _ Hbody Hne). exact H.
Qed.

End Budget.

Lemma expand_mono (depth : nat) :
  forall depth' expr d res d',
    (depth <= depth')%nat ->
    expand depth expr d = (res, d') -> res <> OutOfFuel ->
    expand depth' expr d = (res, d').
Proof.
  induction depth as [|depth IH]; intros depth' expr d res d' Hle H Hres.
  - destruct depth' as [|depth']; [exact H|].
    simpl in H |- *.
    destruct (String.eqb (Name (Expr expr)) "define"); [exact H|].
    destruct (String.eqb (Name (Expr expr)) "include"); [exact H|].
    destruct (Str.isEmpty (Name (Expr expr))); [exact H|].
    destruct (defs d !! Name (Expr expr)) as [t|]; [|exact H].
    destruct (Str.isEmpty (tbody t)); [exact H|].
    inversion H; subst. contradiction Hres; reflexivity.
  - destruct depth' as [|depth']; [lia|].
    simpl in H |- *.
    destruct (String.eqb (Name (Expr expr)) "define"); [exact H|].
    destruct (String.eqb (Name (Expr expr)) "include"); [exact H|].
    destruct (Str.isEmpty (Name (Expr expr))); [exact H|].
    destruct (defs d !! Name (Expr expr)) as [t|]; [|exact H].
    destruct (Str.isEmpty (tbody t)); [exact H|].
    eapply expandTemplate_mono; [|exact H|exact Hres].
    intros expr0 d0 res0 d0' H0 Hres0. apply (IH depth'); [lia|assumption..].
Qed.

Lemma decodeExpanded_mono (depth depth' : nat) (iter : nat) :
  (depth <= depth')%nat ->
  forall iter' d res d',
    (iter <= iter')%nat ->
    decodeExpanded depth iter d = (res, d') -> res <> OutOfFuel ->
    decodeExpanded depth' iter' d = (res, d').
Proof.
  intros Hdepth. induction iter as [|iter IH]; intros iter' d res d' Hle H Hres.
  { simpl in H. inversion H; subst. contradiction Hres; reflexivity. }
  destruct iter' as [|iter']; [lia|]. simpl in H |- *.
  destruct (pending d) as [|x rest]; [|exact H].
  destruct (List.rev (decoderStack d)) as [|frame fs]; [exact H|].
  destruct (Decoder_Decode (dec frame)) as [[raw|[|ln msg]] dec1].
  - destruct (expand depth _ _) as [res1 d1] eqn:Hexp.
    assert (Hne : res1 <> OutOfFuel).
    { intros ->. inversion H; subst. contradiction Hres; reflexivity. }
    rewrite (expand_mono depth depth' _ _ _ _ Hdepth Hexp Hne).
    destruct res1 as [[r1|]|e1| |]; try exact H. apply IH; [lia|assumption..].
  - apply IH; [lia|assumption..].
  - exact H.
Qed.

(** Whatever [Decode] returns within a budget, it returns within every
    larger one. *)
Lemma Decode_mono (fuel fuel' : nat) (d : ExpandingDecoder)
    (res : result error Expanded) (d' : ExpandingDecoder) :
  (fuel <= fuel')%nat ->
  Decode fuel d = (res, d') -> res <> OutOfFuel ->
  Decode fuel' d = (res, d').
Proof.
  unfold Decode. intros Hle H Hres. destruct (err d); [exact H|].
  eapply decodeExpanded_mono; eauto.
Qed.

(* ===================================================================== *)
(** * Template names *)
(* ===================================================================== *)

Lemma makeTemplate_unfold (decl : Expanded) :
  Name (Expr decl) = "define" ->
  makeTemplate decl
  = if Str.isEmpty (declaredName decl) then Err DefineMissingName
    else if Str.ContainsAny (declaredName decl) invalidNameBytes
    then Err (DefineInvalidName (declaredName decl))
    else Ok {| decl := decl; tname := declaredName decl;
               params := Str.Fields
                 (snd (cutField (fst (fst (Str.CutNL (Body (Expr decl)))))));
               tbody := snd (fst (Str.CutNL (Body (Expr decl)))) |}.
Proof.
  intros Hname. unfold makeTemplate, declaredName, invalidNameBytes.
  rewrite Hname. cbn [String.eqb Ascii.eqb Bool.eqb negb].
  destruct (Str.CutNL (Body (Expr decl))) as [[h b] f]. cbn [fst snd].
  destruct (cutField h) as [nm rest]. reflexivity.
Qed.

(** C8 (as amended).  For every [define] expression the engine
    processes, a template name that is empty, or that contains a
    space, a carriage return, a vertical tab or a form feed, is
    rejected with a definition error, and the engine is left as it
    was: no template is stored. *)
Theorem define_rejects_invalid_name
    (d : ExpandingDecoder) (expr : Expanded) (depth : nat) :
  Name (Expr expr) = "define" ->
  declaredName expr = EmptyString
  \/ Str.ContainsAny (declaredName expr) invalidNameBytes = true ->
  exists c : Cause,
    (c = DefineMissingName \/ c = DefineInvalidName (declaredName expr))
    /\ define d expr = (Err c, d)
    /\ expand depth expr d = (Err (ExpressionError expr c), d).
Proof.
  intros Hname Hbad.
  assert (Hmk : exists c,
             (c = DefineMissingName \/ c = DefineInvalidName (declaredName expr))
             /\ makeTemplate expr = Err c).
  { rewrite (makeTemplate_unfold _ Hname).
    destruct (Str.isEmpty (declaredName expr)) eqn:E; [eauto|].
    destruct Hbad as [Hbad|Hbad]; [rewrite Hbad in E; discriminate E|].
    rewrite Hbad. eauto. }
  destruct Hmk as (c & Hc & Hmk). exists c. split; [exact Hc|].
  assert (Hdefine : define d expr = (Err c, d))
    by (unfold define; rewrite Hmk; reflexivity).
  split; [exact Hdefine|].
  destruct depth; simpl; rewrite Hname; cbn [String.eqb Ascii.eqb Bool.eqb];
    rewrite Hdefine; reflexivity.
Qed.

(** The name [makeTemplate] reads is cut at the first white-space
    rune, so the second test of the name never finds anything. *)
Lemma IndexSpace_no_invalid (s : string) :
  match Str.IndexSpace s with
  | Some i => Str.IndexAny (Str.take i s) invalidNameBytes = None
  | None => Str.IndexAny s invalidNameBytes = None
  end.
Proof.
  assert (Hws : forall c rest,
             Str.wsWidth (String c rest) = O ->
             Str.inSet c invalidNameBytes = false).
  { intros c rest. rewrite SpaceFacts.wsWidth_cons. unfold Str.spaceWidth. intros H.
    destruct ((9 <=? Str.byte c) && (Str.byte c <=? 13) || (Str.byte c =? 32))%N eqn:E;
      [discriminate H|].
    destruct (Str.inSet c invalidNameBytes) eqn:Hin; [|reflexivity].
    unfold invalidNameBytes in Hin. cbn [Str.inSet] in Hin.
    repeat (apply orb_true_iff in Hin as [Hin|Hin];
            [apply Ascii.eqb_eq in Hin; subst c; discriminate E|]).
    discriminate Hin. }
  induction s as [|c s IH]; [reflexivity|].
  cbn [Str.IndexSpace].
  destruct (Str.wsWidth (String c s)) eqn:E; [|reflexivity].
  specialize (Hws c s E).
  destruct (Str.IndexSpace s) as [i|]; cbn [option_map Str.take];
    apply SpaceFacts.IndexAny_None_cons; auto.
Qed.

Lemma declaredName_no_invalid (decl : Expanded) :
  Str.ContainsAny (declaredName decl) invalidNameBytes = false.
Proof.
  unfold declaredName, cutField, Str.ContainsAny.
  set (s := Str.TrimLeftSpace _).
  pose proof (IndexSpace_no_invalid s) as H.
  destruct (Str.IndexSpace s) as [i|]; cbn [fst]; rewrite H; reflexivity.
Qed.

(* ===================================================================== *)
(** * The scenarios, decided *)
(* ===================================================================== *)

(** C4, as stated, fails on the body: for the script that defines
    [greet] with parameter [name] and body line [echo Hello, $name!]
    and then calls [greet Alice], no expression the engine returns has
    the reconstructed text [echo Hello, Alice!\n], the name [echo] and
    the body [Hello, Alice!]: the body keeps its newline. *)
Lemma greet_body_is_not_bare :
  ~ exists (e : Expanded) (d' : ExpandingDecoder),
      Decode 3 Scenario.greetEngine = (Ok e, d')
      /\ Expanded_String e = "echo Hello, Alice!" +:+ Str.NL
      /\ Name (Expr e) = "echo"
      /\ Body (Expr e) = "Hello, Alice!".
Proof.
  intros (e & d' & H & _ & _ & Hbody).
  assert (He : fst (Decode 3 Scenario.greetEngine) = Ok Scenario.greetOutput)
    by (vm_compute; reflexivity).
  rewrite H in He. simpl in He. inversion He; subst e.
  vm_compute in Hbody. discriminate Hbody.
Qed.

(** C4 (as amended).  For the script that defines template [greet]
    with the single parameter [name] and body line
    [echo Hello, $name!] and then contains the call [greet Alice], the
    engine returns for that call exactly one expression: its
    reconstructed source text is exactly [echo Hello, Alice!\n], its
    name is [echo] and its body is [Hello, Alice!\n]; nothing is left
    pending and the next call reports the end of input. *)
Theorem greet_Alice_expands (k : nat) :
  exists d1 d2 : ExpandingDecoder,
    Decode (3 + k) Scenario.greetEngine = (Ok Scenario.greetOutput, d1)
    /\ Expanded_String Scenario.greetOutput = "echo Hello, Alice!" +:+ Str.NL
    /\ Name (Expr Scenario.greetOutput) = "echo"
    /\ Body (Expr Scenario.greetOutput) = "Hello, Alice!" +:+ Str.NL
    /\ pending d1 = []
    /\ Decode (3 + k) d1 = (Err io_EOF, d2).
Proof.
  exists (snd (Decode 3 Scenario.greetEngine)).
  exists (snd (Decode 3 (snd (Decode 3 Scenario.greetEngine)))).
  split; [|split; [|split; [|split; [|split]]]].
  - apply (Decode_mono 3); [lia| |discriminate]. vm_compute. reflexivity.
  - vm_compute. reflexivity.
  - reflexivity.
  - reflexivity.
  - vm_compute. reflexivity.
  - apply (Decode_mono 3); [lia| |discriminate]. vm_compute. reflexivity.
Qed.



(** C8, as stated, fails for control characters: the [define] of a
    template named [a\x01b] is not rejected; [define] returns no
    error and the template is stored under that name, and the engine
    reads the script to its end without any error. *)
Lemma define_accepts_control_character :
  (exists d' : ExpandingDecoder,
      define Scenario.controlEngine Scenario.controlDefine = (Ok tt, d')
      /\ is_Some (defs d' !! Scenario.controlName))
  /\ (exists d' : ExpandingDecoder,
         Decode 3 Scenario.controlEngine = (Err io_EOF, d')
         /\ is_Some (defs d' !! Scenario.controlName)).
Proof.
  split.
  - exists (snd (define Scenario.controlEngine Scenario.controlDefine)).
    split; [vm_compute; reflexivity|]. vm_compute. eexists; reflexivity.
  - exists (snd (Decode 3 Scenario.controlEngine)).
    split; [vm_compute; reflexivity|]. vm_compute. eexists; reflexivity.
Qed.

Lemma define_rejects_invalid_name_witness :
  Name (Expr Scenario.namelessDefine) = "define"
  /\ (declaredName Scenario.namelessDefine = EmptyString
      \/ Str.ContainsAny (declaredName Scenario.namelessDefine) invalidNameBytes = true)
  /\ exists c : Cause,
       (c = DefineMissingName
        \/ c = DefineInvalidName (declaredName Scenario.namelessDefine))
       /\ define Scenario.controlEngine Scenario.namelessDefine
          = (Err c, Scenario.controlEngine)
       /\ expand 1 Scenario.namelessDefine Scenario.controlEngine
          = (Err (ExpressionError Scenario.namelessDefine c), Scenario.controlEngine).
Proof.
  split; [reflexivity|]. split; [left; reflexivity|].
  apply (define_rejects_invalid_name Scenario.controlEngine Scenario.namelessDefine 1).
  - reflexivity.
  - left. reflexivity.
Defined.

(** C6 fails on the recursion path.  For the script [define a] with
    body [a], followed by the call [a], the engine starts with an
    empty call stack, the call ends in a recursion error, and the call
    stack is not empty afterwards: [expandTemplate] returns the
    recursion error before its deferred pop is set up, the frame the
    inner call pushed is popped in place of the outer one, and the
    outer frame stays, with its name no longer marked as seen. *)
Theorem recursion_error_leaves_frame (k : nat) :
  exists (x : Expanded) (msg : string) (d' : ExpandingDecoder),
    Decode (3 + k) Scenario.selfEngine
    = (Err (ExpressionError x (RecursionDetected msg)), d')
    /\ callStack Scenario.selfEngine = {| frames := []; seen := ∅ |}
    /\ callStack d' = {| frames := [Scenario.selfCall]; seen := ∅ |}.
Proof.
  exists {| Expr := {| Line := 1; Comment := ""; Name := "a"; Body := Str.NL |};
            File := "m"; Stack := [Scenario.selfCall] |}.
  eexists.
  exists (snd (Decode 3 Scenario.selfEngine)).
  split; [|split].
  - apply (Decode_mono 3); [lia| |discriminate]. vm_compute. reflexivity.
  - reflexivity.
  - vm_compute. reflexivity.
Qed.

(** The same defect at the call itself: a call whose name is active
    returns with one frame more on the call stack than it found. *)
Lemma expandTemplate_active_frames
    (rec : Expanded -> ExpandingDecoder -> Outcome (option Expanded))
    (t : template) (callsite : Expanded) (d : ExpandingDecoder) :
  seen_ok (callStack d) ->
  Name (Expr callsite) ∈ frameNames (callStack d) ->
  frames (callStack (snd (expandTemplate rec t callsite d)))
  = frames (callStack d) ++ [withStack callsite (frames (callStack d))].
Proof.
  intros Hok Hin.
  destruct (expandTemplate_active rec t callsite d Hok Hin) as [msg ->].
  reflexivity.
Qed.

Lemma Decode_sticky_witness :
  Decode 2 Scenario.spaceEngine
  = (Err Scenario.spaceError, snd (Decode 2 Scenario.spaceEngine))
  /\ Decode 9 (snd (Decode 2 Scenario.spaceEngine))
     = (Err Scenario.spaceError, snd (Decode 2 Scenario.spaceEngine)).
Proof.
  assert (H : Decode 2 Scenario.spaceEngine
              = (Err Scenario.spaceError, snd (Decode 2 Scenario.spaceEngine)))
    by (vm_compute; reflexivity).
  split; [exact H|].
  apply (Decode_sticky 2 Scenario.spaceEngine Scenario.spaceError _ H 9%nat).
Defined.

Lemma expansion_refines_tokenizer_witness :
  Expanding_stream 6 2
    (SetRoot (NewExpandingDecoder "main.lb"
                (MapFS [("main.lb", Scenario.plainScript)])) "")
  = (annotate (Path.Join "" "main.lb")
       <$> fst (Decoder_stream 6 (NewDecoder Scenario.plainScript)),
     wrapDecodeError (Path.Join "" "main.lb")
       <$> snd (Decoder_stream 6 (NewDecoder Scenario.plainScript))).
Proof.
  apply (expansion_refines_tokenizer "main.lb" Scenario.plainScript ""
           (MapFS [("main.lb", Scenario.plainScript)]) 6 2).
  - reflexivity.
  - lia.
  - vm_compute. repeat (constructor; [split; discriminate|]). constructor.
Defined.

(** C5, as stated, fails for an expression with a continuation line:
    the tokenizer returns [cmd] with body [a\nb\n] for the input
    [cmd a\n\tb\n]; its reconstructed text is [cmd a\nb\n], without
    the tab, and tokenizing that text gives [cmd] with body [a\n],
    which differs from the original body in more than white space. *)
Lemma String_drops_continuation :
  Decoder_Decode (NewDecoder Scenario.twoLineScript)
  = (inl Scenario.twoLineExpr, {| r := []; line := 2 |})
  /\ ~ exists (e' : Expression) (d' : Decoder),
         Decoder_Decode (NewDecoder (Expanded_String (annotate "" Scenario.twoLineExpr)))
         = (inl e', d')
         /\ Name e' = Name Scenario.twoLineExpr
         /\ Str.Fields (Body e') = Str.Fields (Body Scenario.twoLineExpr).
Proof.
  split; [vm_compute; reflexivity|].
  intros (e' & d' & H & _ & Hbody).
  assert (He : fst (Decoder_Decode
                      (NewDecoder (Expanded_String (annotate "" Scenario.twoLineExpr))))
               = inl {| Line := 1; Comment := ""; Name := "cmd";
                        Body := "a" +:+ Str.NL |})
    by (vm_compute; reflexivity).
  rewrite H in He. simpl in He. inversion He; subst e'.
  vm_compute in Hbody. discriminate Hbody.
Qed.

Lemma String_reparses_single_line_witness :
  Decoder_Decode (NewDecoder ("echo   hello world" +:+ Str.NL))
  = (inl Scenario.echoExpr, {| r := []; line := 1 |})
  /\ Decoder_Decode
       (NewDecoder (Expanded_String (annotate "main.lb" Scenario.echoExpr)))
     = (inl {| Line := 1; Comment := ""; Name := "echo";
               Body := "hello world" +:+ Str.NL |},
        {| r := []; line := 1 |}).
Proof.
  assert (H : Decoder_Decode (NewDecoder ("echo   hello world" +:+ Str.NL))
              = (inl Scenario.echoExpr, {| r := []; line := 1 |}))
    by (vm_compute; reflexivity).
  split; [exact H|].
  apply (String_reparses_single_line _ _ Scenario.echoExpr "main.lb" [] H).
  - vm_compute. reflexivity.
  - discriminate.
  - discriminate.
Defined.

(* ===================================================================== *)
(** * The tokenizer, line by line *)
(* ===================================================================== *)

Module LineFacts.
Import Str StrFacts SpaceFacts.

Lemma concatLines_app (a b : list string) :
  concatLines (a ++ b) = concatLines a +:+ concatLines b.
Proof.
  induction a as [|x a IH]; [reflexivity|].
  cbn [concatLines foldr app]. fold (concatLines (a ++ b)). fold (concatLines a).
  rewrite IH, app_assoc. reflexivity.
Qed.

(** Comment lines are collected and the loop goes on behind them. *)
Lemma decodeLoop_skip_comments (cs : list string) :
  forall (rest : list string) (ln : Z) (comments : string),
    Forall (fun l => isCommentLine l = true) cs ->
    decodeLoop (cs ++ rest) ln comments
    = decodeLoop rest (ln + Z.of_nat (length cs)) (comments +:+ concatLines cs).
Proof.
  induction cs as [|c cs IH]; intros rest ln comments Hcs.
  - cbn [app length concatLines foldr]. rewrite app_nil_r.
    replace (ln + Z.of_nat 0) with ln by lia. reflexivity.
  - apply Forall_cons in Hcs as [Hc Hcs].
    destruct c as [|a tl]; [discriminate Hc|]. cbn [isCommentLine] in Hc.
    apply Ascii.eqb_eq in Hc. subst a.
    cbn [app decodeLoop]. cbn [Ascii.eqb Bool.eqb nl andb].
    rewrite (IH rest (ln + 1) _ Hcs).
    cbn [concatLines foldr length]. fold (concatLines cs).
    rewrite app_assoc. f_equal. lia.
Qed.

Lemma readContinuation_all (conts : list string) :
  forall (rest : list string) (ln : Z) (body : string),
    Forall (fun l => isTabLine l = true) conts ->
    Forall (fun l => HasSuffix l NL = true) (List.removelast conts) ->
    isTabLine (hd EmptyString rest) = false ->
    readContinuation (conts ++ rest) ln body
    = (body +:+ concatLines (drop 1 <$> conts),
       {| r := rest; line := ln + Z.of_nat (length conts) |}).
Proof.
  induction conts as [|c conts IH]; intros rest ln body Htab Hnl Hrest.
  - cbn [app fmap list_fmap concatLines foldr length]. rewrite app_nil_r.
    replace (ln + Z.of_nat 0) with ln by lia.
    destruct rest as [|[|a tl] rest']; try reflexivity.
    cbn [hd isTabLine] in Hrest. cbn [readContinuation]. rewrite Hrest. reflexivity.
  - apply Forall_cons in Htab as [Hc Htab].
    destruct c as [|a tl]; [discriminate Hc|]. cbn [isTabLine] in Hc.
    cbn [app readContinuation]. rewrite Hc.
    cbn [fmap list_fmap concatLines foldr drop length].
    change (list_fmap string string (drop 1) conts) with (drop 1 <$> conts).
    fold (concatLines (drop 1 <$> conts)).
    destruct conts as [|c2 conts].
    + cbn [app fmap list_fmap concatLines foldr]. rewrite app_nil_r.
      destruct (HasSuffix (String a tl) NL).
      * destruct rest as [|[|b tl'] rest']; cbn [readContinuation];
          try (f_equal; f_equal; lia).
        cbn [hd isTabLine] in Hrest. rewrite Hrest. f_equal; f_equal; lia.
      * f_equal; f_equal; lia.
    + cbn [List.removelast] in Hnl. apply Forall_cons in Hnl as [Ha Hnl].
      rewrite Ha. rewrite (IH rest (ln + 1) _ Htab Hnl Hrest).
      rewrite app_assoc. f_equal. f_equal. cbn [length]. lia.
Qed.

End LineFacts.

(** X1.  How [Decode] groups lines.  When the unread input is a run of
    comment lines, then a command line (one that starts with none of
    newline, [#], space and tab), then lines that start with a tab
    (each but possibly the last ended by a newline), and what follows
    does not start with a tab, one call of [Decode] returns the
    expression whose comment is the comment lines and whose name and
    body are read from the command line followed by the tab lines
    without their tabs; its line number is that of the command line,
    and the decoder is left in front of what follows. *)
Theorem Decode_groups_lines
    (d : Decoder) (cs conts rest : list string) (cmd : string) :
  r d = cs ++ cmd :: conts ++ rest ->
  Forall (fun l => isCommentLine l = true) cs ->
  isCommandLine cmd = true ->
  Forall (fun l => isTabLine l = true) conts ->
  Forall (fun l => Str.HasSuffix l Str.NL = true) (List.removelast conts) ->
  isTabLine (hd EmptyString rest) = false ->
  Decoder_Decode d
  = (inl (makeExpr (line d + Z.of_nat (length cs) + 1) (concatLines cs)
                   (cmd +:+ concatLines (Str.drop 1 <$> conts))),
     {| r := rest;
        line := line d + Z.of_nat (length cs) + 1 + Z.of_nat (length conts) |}).
Proof.
  intros Hr Hcs Hcmd Htab Hnl Hrest. unfold Decoder_Decode. rewrite Hr.
  rewrite (LineFacts.decodeLoop_skip_comments cs _ _ _ Hcs), StrFacts.app_nil_l.
  destruct cmd as [|c tl]; [discriminate Hcmd|]. cbn [isCommandLine] in Hcmd.
  apply negb_true_iff in Hcmd.
  apply orb_false_iff in Hcmd as [Hcmd Ht].
  apply orb_false_iff in Hcmd as [Hcmd Hs].
  apply orb_false_iff in Hcmd as [Hn Hh].
  cbn [decodeLoop]. rewrite Hn, Hh, Hs, Ht. cbn [orb].
  rewrite (LineFacts.readContinuation_all conts rest _ _ Htab Hnl Hrest).
  reflexivity.
Qed.

Lemma Decode_groups_lines_witness :
  Decoder_Decode (NewDecoder Scenario.twoLineScript)
  = (inl (makeExpr (0 + Z.of_nat (length (@nil string)) + 1) (concatLines [])
                   (("cmd a" +:+ Str.NL)
                      +:+ concatLines (Str.drop 1 <$> [String Str.tab "b" +:+ Str.NL]))),
     {| r := [];
        line := 0 + Z.of_nat (length (@nil string)) + 1
                + Z.of_nat (length [String Str.tab "b" +:+ Str.NL]) |}).
Proof.
  apply (Decode_groups_lines (NewDecoder Scenario.twoLineScript)
           [] [String Str.tab "b" +:+ Str.NL] [] ("cmd a" +:+ Str.NL)).
  - reflexivity.
  - constructor.
  - reflexivity.
  - repeat constructor.
  - constructor.
  - reflexivity.
Defined.

(** X2.  A line that starts with a space or a tab where a command is
    expected (at the start, after a complete expression, or directly
    after comment lines) makes [Decode] return the syntax error
    [unexpected whitespace at start of line] with the number of that
    line.  The comment lines read before it are dropped, and the
    decoder is left behind the line: the next call reads on. *)
Theorem Decode_rejects_indented_line
    (d : Decoder) (cs rest : list string) (l : string) :
  r d = cs ++ l :: rest ->
  Forall (fun l => isCommentLine l = true) cs ->
  isIndentedLine l = true ->
  Decoder_Decode d
  = (inr (SyntaxError (line d + Z.of_nat (length cs) + 1) unexpectedWhitespace),
     {| r := rest; line := line d + Z.of_nat (length cs) + 1 |}).
Proof.
  intros Hr Hcs Hl. unfold Decoder_Decode. rewrite Hr.
  rewrite (LineFacts.decodeLoop_skip_comments cs _ _ _ Hcs).
  destruct l as [|c tl]; [discriminate Hl|]. cbn [isIndentedLine] in Hl.
  cbn [decodeLoop].
  destruct (Ascii.eqb c Str.nl) eqn:Hn.
  { apply Ascii.eqb_eq in Hn. subst c. discriminate Hl. }
  destruct (Ascii.eqb c "#") eqn:Hh.
  { apply Ascii.eqb_eq in Hh. subst c. discriminate Hl. }
  rewrite Hl. reflexivity.
Qed.

Lemma Decode_rejects_indented_line_witness :
  Decoder_Decode
    (NewDecoder ("# c" +:+ Str.NL +:+ String Str.tab "x" +:+ Str.NL +:+ "y"))
  = (inr (SyntaxError (0 + Z.of_nat (length ["# c" +:+ Str.NL]) + 1)
                      unexpectedWhitespace),
     {| r := ["y"]; line := 0 + Z.of_nat (length ["# c" +:+ Str.NL]) + 1 |}).
Proof.
  apply (Decode_rejects_indented_line
           (NewDecoder ("# c" +:+ Str.NL +:+ String Str.tab "x" +:+ Str.NL +:+ "y"))
           ["# c" +:+ Str.NL] ["y"] (String Str.tab "x" +:+ Str.NL)).
  - reflexivity.
  - repeat constructor.
  - reflexivity.
Defined.

Module TokenFacts.
Import Str StrFacts SpaceFacts.

Lemma decodeLoop_comment_run (rs : list string) :
  forall (ln : Z) (comments : string) (e : Expression) (d' : Decoder),
    decodeLoop rs ln comments = (inl e, d') ->
    exists cs rest : list string,
      rs = cs ++ rest
      /\ Forall (fun l => isCommentLine l = true) cs
      /\ isCommentLine (hd EmptyString rest) = false
      /\ Comment e = comments +:+ concatLines cs.
Proof.
  induction rs as [|l rs IH]; intros ln comments e d' H.
  - exists [], []. cbn [decodeLoop] in H.
    destruct (isEmpty comments); inversion H; subst.
    rewrite makeExpr_Comment. cbn [concatLines foldr]. rewrite app_nil_r.
    repeat split; constructor.
  - destruct l as [|c tl].
    + exists [], (EmptyString :: rs). cbn [decodeLoop] in H.
      destruct (isEmpty comments); inversion H; subst.
      rewrite makeExpr_Comment. cbn [concatLines foldr]. rewrite app_nil_r.
      repeat split; constructor.
    + cbn [decodeLoop] in H.
      destruct (Ascii.eqb c nl) eqn:Hn.
      { exists [], (String c tl :: rs). inversion H; subst.
        rewrite makeExpr_Comment. cbn [concatLines foldr]. rewrite app_nil_r.
        apply Ascii.eqb_eq in Hn. subst c. repeat split; constructor. }
      destruct (Ascii.eqb c "#") eqn:Hh.
      { apply IH in H as (cs & rest & -> & Hcs & Hrest & Hc).
        exists (String c tl :: cs), rest. split; [reflexivity|].
        split; [constructor; [exact Hh|exact Hcs]|]. split; [exact Hrest|].
        rewrite Hc. cbn [concatLines foldr]. fold (concatLines cs).
        apply app_assoc. }
      destruct (Ascii.eqb c space || Ascii.eqb c tab); [discriminate H|].
      destruct (readContinuation _ _ _) as [body d2].
      exists [], (String c tl :: rs). inversion H; subst.
      rewrite makeExpr_Comment. cbn [concatLines foldr]. rewrite app_nil_r.
      split; [reflexivity|]. split; [constructor|]. split; [exact Hh|reflexivity].
Qed.

Lemma TrimLeft_idem (s cs : string) : TrimLeft (TrimLeft s cs) cs = TrimLeft s cs.
Proof.
  induction s as [|c s IH]; [reflexivity|].
  cbn [TrimLeft]. destruct (inSet c cs) eqn:E; [exact IH|].
  cbn [TrimLeft]. rewrite E. reflexivity.
Qed.

Lemma parseBody_tail (body : string) :
  TrimLeft (snd (parseBody body)) (String space (String tab ""))
  = snd (parseBody body).
Proof.
  unfold parseBody. destruct (IndexAny body _); cbn [snd]; [|reflexivity].
  apply TrimLeft_idem.
Qed.

Lemma makeExpr_body (ln : Z) (comment body : string) :
  Body (makeExpr ln comment body) = snd (parseBody body).
Proof. unfold makeExpr. destruct (parseBody body). reflexivity. Qed.

End TokenFacts.

(** X3.  The [Comment] of every expression [Decode] returns is the run of
    lines that start with [#] at the head of the unread input,
    concatenated as they are; the line behind them does not start with
    [#].  So [Comment] never holds a blank line. *)
Theorem Decode_comment_is_the_comment_lines
    (d d' : Decoder) (e : Expression) :
  Decoder_Decode d = (inl e, d') ->
  exists cs rest : list string,
    r d = cs ++ rest
    /\ Forall (fun l => isCommentLine l = true) cs
    /\ isCommentLine (hd EmptyString rest) = false
    /\ Comment e = concatLines cs.
Proof.
  intros H. apply TokenFacts.decodeLoop_comment_run in H as (cs & rest & H1 & H2 & H3 & H4).
  exists cs, rest. rewrite StrFacts.app_nil_l in H4. auto.
Qed.

Lemma Decode_comment_is_the_comment_lines_witness :
  exists cs rest : list string,
    r (NewDecoder ("# a" +:+ Str.NL +:+ "# b" +:+ Str.NL +:+ Str.NL +:+ "x")) = cs ++ rest
    /\ Forall (fun l => isCommentLine l = true) cs
    /\ isCommentLine (hd EmptyString rest) = false
    /\ Comment {| Line := 3; Comment := "# a" +:+ Str.NL +:+ "# b" +:+ Str.NL;
                  Name := ""; Body := Str.NL |} = concatLines cs.
Proof.
  apply (Decode_comment_is_the_comment_lines
           (NewDecoder ("# a" +:+ Str.NL +:+ "# b" +:+ Str.NL +:+ Str.NL +:+ "x"))
           {| r := ["x"]; line := 3 |}).
  reflexivity.
Defined.

(** X4.  Every expression [Decode] returns has a name that holds no space,
    tab or newline and has no white space at either end, and a body
    that does not start with a space or a tab. *)
Theorem Decode_name_and_body_shape (d d' : Decoder) (e : Expression) :
  Decoder_Decode d = (inl e, d') ->
  Str.IndexAny (Name e) blanks = None
  /\ Str.TrimSpace (Name e) = Name e
  /\ Str.TrimLeft (Body e) (String Str.space (String Str.tab "")) = Body e.
Proof.
  intros H. destruct (Reparse.Decode_name d e d' H) as [H1 H2].
  split; [exact H1|]. split; [exact H2|].
  apply Reparse.decodeLoop_makeExpr in H as (ln & c & b & ->).
  rewrite TokenFacts.makeExpr_body. apply TokenFacts.parseBody_tail.
Qed.

Lemma Decode_name_and_body_shape_witness :
  Str.IndexAny (Name Scenario.twoLineExpr) blanks = None
  /\ Str.TrimSpace (Name Scenario.twoLineExpr) = Name Scenario.twoLineExpr
  /\ Str.TrimLeft (Body Scenario.twoLineExpr) (String Str.space (String Str.tab ""))
     = Body Scenario.twoLineExpr.
Proof.
  apply (Decode_name_and_body_shape (NewDecoder Scenario.twoLineScript)
           {| r := []; line := 2 |}).
  reflexivity.
Defined.

Module LocateFacts.
Import Str StrFacts SpaceFacts.

Lemma lines_of_proper (input : string) : properLines (lines_of input).
Proof.
  induction input as [|c s IH]; [exact I|].
  cbn [lines_of]. destruct (Ascii.eqb c nl) eqn:Hc.
  - apply Ascii.eqb_eq in Hc. subst c. cbn [properLines].
    split; [discriminate|]. split; [reflexivity|exact IH].
  - destruct (lines_of s) as [|l ls]; cbn [properLines] in *.
    + split; [discriminate|]. split; [intros H; contradiction|exact I].
    + destruct IH as (Hne & Hnl & Hrest).
      split; [discriminate|]. split; [|exact Hrest].
      intros H. rewrite HasSuffix_cons, (Hnl H). apply orb_true_r.
Qed.

Lemma properLines_drop (j : nat) :
  forall ls : list string, properLines ls -> properLines (List.skipn j ls).
Proof.
  induction j as [|j IH]; intros ls H; [exact H|].
  destruct ls as [|l ls]; [exact I|]. cbn [List.skipn]. apply IH.
  destruct H as (_ & _ & H). exact H.
Qed.

Lemma parseBody_empty : parseBody EmptyString = (EmptyString, EmptyString).
Proof. reflexivity. Qed.

Lemma parseBody_blank (tl : string) : fst (parseBody (String nl tl)) = EmptyString.
Proof. reflexivity. Qed.

Lemma IndexAny_app_Some (a b cs : string) (i : nat) :
  IndexAny a cs = Some i -> IndexAny (a +:+ b) cs = Some i /\ take i (a +:+ b) = take i a.
Proof.
  revert i. induction a as [|c a IH]; intros i H; [discriminate H|].
  rewrite app_cons, IndexAny_cons in *.
  destruct (inSet c cs).
  - inversion H; subst. split; reflexivity.
  - destruct (IndexAny a cs) as [k|] eqn:Hk; [|discriminate H].
    inversion H; subst. destruct (IH k eq_refl) as [-> Ht].
    split; [reflexivity|]. cbn [take]. rewrite Ht. reflexivity.
Qed.

Lemma HasSuffix_NL_blank (l : string) :
  HasSuffix l NL = true -> exists i, IndexAny l blanks = Some i.
Proof.
  intros H. apply HasSuffix_inv in H as [p ->].
  destruct (IndexAny (p +:+ NL) blanks) as [i|] eqn:E; [eauto|].
  apply IndexAny_None_app in E as [_ E]. discriminate E.
Qed.

(** The name is read from the command line alone. *)
Lemma parseBody_name_app (l extra : string) :
  extra = EmptyString \/ HasSuffix l NL = true ->
  fst (parseBody (l +:+ extra)) = fst (parseBody l).
Proof.
  intros [->|H]; [rewrite app_nil_r; reflexivity|].
  destruct (HasSuffix_NL_blank l H) as [i Hi].
  unfold parseBody. fold blanks.
  destruct (IndexAny_app_Some l extra blanks i Hi) as [-> ->]. rewrite Hi.
  reflexivity.
Qed.

Lemma readContinuation_extends (rs : list string) :
  forall (ln : Z) (body : string),
    exists extra : string,
      fst (readContinuation rs ln body) = body +:+ extra
      /\ (rs = [] -> extra = EmptyString).
Proof.
  induction rs as [|l rs IH]; intros ln body.
  - exists "". cbn [readContinuation fst]. rewrite app_nil_r. auto.
  - destruct l as [|c tl]; cbn [readContinuation].
    + exists "". cbn [fst]. rewrite app_nil_r. split; [reflexivity|discriminate].
    + destruct (Ascii.eqb c tab).
      * destruct (HasSuffix (String c tl) NL).
        -- destruct (IH (ln + 1) (body +:+ tl)) as (extra & He & _).
           exists (tl +:+ extra). rewrite He, app_assoc.
           split; [reflexivity|discriminate].
        -- exists tl. cbn [fst]. split; [reflexivity|discriminate].
      * exists "". cbn [fst]. rewrite app_nil_r. split; [reflexivity|discriminate].
Qed.

Lemma readContinuation_state (rs : list string) :
  forall (ln : Z) (body : string),
    exists j : nat,
      r (snd (readContinuation rs ln body)) = List.skipn j rs
      /\ line (snd (readContinuation rs ln body)) = ln + Z.of_nat j.
Proof.
  induction rs as [|l rs IH]; intros ln body.
  - exists O. cbn. split; [reflexivity|lia].
  - destruct l as [|c tl]; cbn [readContinuation].
    + exists O. cbn. split; [reflexivity|lia].
    + destruct (Ascii.eqb c tab).
      * destruct (HasSuffix (String c tl) NL).
        -- destruct (IH (ln + 1) (body +:+ tl)) as (j & Hr & Hl).
           exists (S j). cbn [List.skipn]. split; [exact Hr|lia].
        -- exists 1%nat. cbn. split; [reflexivity|lia].
      * exists O. cbn. split; [reflexivity|lia].
Qed.

(** Where one run of the outer loop leaves the decoder: behind the
    lines it read, the counter advanced by their number, or at the end
    of the input. *)
Lemma decodeLoop_state (rs : list string) :
  forall (ln : Z) (comments : string),
    (exists j : nat,
        r (snd (decodeLoop rs ln comments)) = List.skipn j rs
        /\ line (snd (decodeLoop rs ln comments)) = ln + Z.of_nat j)
    \/ r (snd (decodeLoop rs ln comments)) = [].
Proof.
  induction rs as [|l rs IH]; intros ln comments.
  - right. cbn [decodeLoop]. destruct (isEmpty comments); reflexivity.
  - destruct l as [|c tl]; cbn [decodeLoop].
    + left. exists 1%nat. destruct (isEmpty comments); cbn; split; try reflexivity; lia.
    + destruct (Ascii.eqb c nl).
      { left. exists 1%nat. cbn. split; [reflexivity|lia]. }
      destruct (Ascii.eqb c "#").
      { destruct (IH (ln + 1) (comments +:+ String c tl)) as [(j & Hr & Hl)|Hr].
        - left. exists (S j). cbn [List.skipn]. split; [exact Hr|lia].
        - right. exact Hr. }
      destruct (Ascii.eqb c space || Ascii.eqb c tab).
      { left. exists 1%nat. cbn. split; [reflexivity|lia]. }
      destruct (readContinuation_state rs (ln + 1) (String c tl)) as (j & Hr & Hl).
      destruct (readContinuation rs (ln + 1) (String c tl)) as [body d2].
      cbn [snd] in *. left. exists (S j). cbn [List.skipn]. split; [exact Hr|lia].
Qed.

(** A named expression stands on the line its name was read from. *)
Lemma decodeLoop_locates (rs : list string) :
  forall (ln : Z) (comments : string) (e : Expression) (d' : Decoder),
    properLines rs ->
    decodeLoop rs ln comments = (inl e, d') ->
    Name e <> EmptyString ->
    exists (k : nat) (l : string),
      rs !! k = Some l /\ Line e = ln + Z.of_nat k + 1
      /\ Name e = fst (parseBody l).
Proof.
  induction rs as [|l rs IH]; intros ln comments e d' Hp H Hname.
  - cbn [decodeLoop] in H. destruct (isEmpty comments); inversion H; subst.
    contradiction Hname. reflexivity.
  - destruct Hp as (Hne & Hnl & Hp).
    destruct l as [|c tl]; [contradiction Hne; reflexivity|].
    cbn [decodeLoop] in H.
    destruct (Ascii.eqb c nl) eqn:Hn.
    { inversion H; subst. apply Ascii.eqb_eq in Hn. subst c.
      contradiction Hname. rewrite Reparse.makeExpr_name. reflexivity. }
    destruct (Ascii.eqb c "#").
    { destruct (IH _ _ _ _ Hp H Hname) as (k & l & Hk & Hl & Hnm).
      exists (S k), l. split; [exact Hk|]. split; [lia|exact Hnm]. }
    destruct (Ascii.eqb c space || Ascii.eqb c tab); [discriminate H|].
    destruct (readContinuation_extends rs (ln + 1) (String c tl)) as (extra & He & Hnil).
    destruct (readContinuation rs (ln + 1) (String c tl)) as [body d2].
    cbn [fst] in He. subst body. inversion H; subst.
    exists O, (String c tl). split; [reflexivity|].
    rewrite makeExpr_Line, Reparse.makeExpr_name. split; [lia|].
    apply parseBody_name_app.
    destruct rs as [|l2 rs]; [left; apply Hnil; reflexivity|right].
    apply Hnl. discriminate.
Qed.

Lemma reading_Decode (lines : list string) (d : Decoder) :
  reading lines d -> reading lines (snd (Decoder_Decode d)).
Proof.
  intros [(pre & Hl & Hn)|Hr]; unfold Decoder_Decode.
  - destruct (decodeLoop_state (r d) (line d) "") as [(j & Hr & Hj)|Hr].
    + destruct (decide (j <= length (r d))%nat) as [Hle|Hgt].
      * left. exists (pre ++ List.firstn j (r d)). rewrite Hr, Hj, Hn.
        rewrite <- List.app_assoc, List.firstn_skipn. split; [exact Hl|].
        rewrite List.length_app, List.length_firstn. lia.
      * right. rewrite Hr. apply List.skipn_all2. lia.
    + right. exact Hr.
  - right. rewrite Hr. cbn [decodeLoop isEmpty snd r]. reflexivity.
Qed.

Lemma proper_Decode (d : Decoder) :
  properLines (r d) -> properLines (r (snd (Decoder_Decode d))).
Proof.
  intros Hp. unfold Decoder_Decode.
  destruct (decodeLoop_state (r d) (line d) "") as [(j & Hr & _)|Hr]; rewrite Hr.
  - apply properLines_drop. exact Hp.
  - exact I.
Qed.

Lemma Decoder_calls_locate (lines : list string) (n : nat) :
  forall d : Decoder,
    reading lines d -> properLines (r d) ->
    List.Forall
      (fun e => Name e <> EmptyString ->
                exists l : string,
                  lines !! Z.to_nat (Line e - 1) = Some l
                  /\ Name e = fst (parseBody l))
      (Decoder_calls n d).
Proof.
  induction n as [|n IH]; intros d Hrd Hp; cbn [Decoder_calls]; [constructor|].
  pose proof (reading_Decode lines d Hrd) as Hrd'.
  pose proof (proper_Decode d Hp) as Hp'.
  destruct (Decoder_Decode d) as [[e|err] d'] eqn:Hdec; cbn [snd] in *;
    [|apply IH; assumption].
  constructor; [|apply IH; assumption].
  intros Hname. unfold Decoder_Decode in Hdec.
  destruct (decodeLoop_locates _ _ _ _ _ Hp Hdec Hname) as (k & l & Hk & Hl & Hnm).
  exists l. split; [|exact Hnm].
  destruct Hrd as [(pre & Hlines & Hn)|Hr]; [|rewrite Hr in Hk; discriminate Hk].
  rewrite Hlines, Hl, Hn.
  replace (Z.to_nat (Z.of_nat (length pre) + Z.of_nat k + 1 - 1))
    with (length pre + k)%nat by lia.
  rewrite lookup_app_r by lia.
  replace (length pre + k - length pre)%nat with k by lia. exact Hk.
Qed.

End LocateFacts.

(** X5.  [Line] is the number of the input line the name was read from:
    for every expression with a non-empty name among those returned
    by any number of calls of [Decode] on an input, the input has a
    line of that number, counted from 1, and [parseBody] reads the
    expression's name from that line. *)
Theorem Line_locates_the_command (input : string) (n : nat) :
  List.Forall
    (fun e => Name e <> EmptyString ->
              exists l : string,
                lines_of input !! Z.to_nat (Line e - 1) = Some l
                /\ Name e = fst (parseBody l))
    (Decoder_calls n (NewDecoder input)).
Proof.
  apply LocateFacts.Decoder_calls_locate.
  - left. exists []. split; reflexivity.
  - apply LocateFacts.lines_of_proper.
Qed.

Module StreamFacts.

Lemma Decoder_Decode_at_end (d : Decoder) :
  r d = [] ->
  Decoder_Decode d = (inr DecEOF, {| r := []; line := line d + 1 |}).
Proof. intros H. unfold Decoder_Decode. rewrite H. reflexivity. Qed.

Lemma Decoder_stream_bound (n : nat) :
  forall d : Decoder,
    (length (r d) < n)%nat ->
    (exists stop, snd (Decoder_stream n d) = Some stop)
    /\ (length (fst (Decoder_stream n d)) <= length (r d))%nat.
Proof.
  induction n as [|n IH]; intros d Hlt; [lia|].
  cbn [Decoder_stream].
  destruct (Decoder_Decode d) as [[e|stop] d'] eqn:Hdec.
  - apply Decoder_Decode_consumes in Hdec.
    destruct (IH d') as [[stop Hs] Hlen]; [lia|].
    destruct (Decoder_stream n d') as [es st]. cbn [fst snd length] in *.
    split; [eauto|lia].
  - cbn [fst snd length]. split; [eauto|lia].
Qed.

Lemma Decoder_EOF_end (rs : list string) :
  forall (ln : Z) (comments : string) (d' : Decoder),
    Forall (fun l => l <> EmptyString) rs ->
    decodeLoop rs ln comments = (inr DecEOF, d') -> r d' = [].
Proof.
  induction rs as [|l rs IH]; intros ln comments d' Hne H.
  - cbn [decodeLoop] in H. destruct (Str.isEmpty comments); inversion H; reflexivity.
  - apply Forall_cons in Hne as [Hl Hne].
    destruct l as [|c tl]; [contradiction Hl; reflexivity|].
    cbn [decodeLoop] in H.
    destruct (Ascii.eqb c Str.nl); [discriminate H|].
    destruct (Ascii.eqb c "#"); [eapply IH; eauto|].
    destruct (Ascii.eqb c Str.space || Ascii.eqb c Str.tab); [discriminate H|].
    destruct (readContinuation _ _ _). discriminate H.
Qed.

Lemma properLines_nonempty (ls : list string) :
  properLines ls -> Forall (fun l => l <> EmptyString) ls.
Proof.
  induction ls as [|l ls IH]; intros H; [constructor|].
  destruct H as (Hl & _ & H). constructor; auto.
Qed.

Lemma Decoder_after_end (n : nat) :
  forall d : Decoder, r d = [] -> r (Decoder_after n d) = [].
Proof.
  induction n as [|n IH]; intros d H; [exact H|].
  cbn [Decoder_after]. apply IH. rewrite (Decoder_Decode_at_end d H). reflexivity.
Qed.

Lemma Decoder_after_proper (n : nat) :
  forall d : Decoder, properLines (r d) -> properLines (r (Decoder_after n d)).
Proof.
  induction n as [|n IH]; intros d H; [exact H|].
  cbn [Decoder_after]. apply IH, LocateFacts.proper_Decode, H.
Qed.

Lemma Decoder_after_add (n m : nat) (d : Decoder) :
  Decoder_after (n + m) d = Decoder_after m (Decoder_after n d).
Proof.
  revert d. induction n as [|n IH]; intros d; [reflexivity|].
  cbn [Nat.add Decoder_after]. apply IH.
Qed.

End StreamFacts.

(** X6.  A read loop over the tokenizer ends: on an input of L lines, a
    loop of more than L calls that stops at the first error does stop
    at one (the end of input or a syntax error), after at most L
    expressions. *)
Theorem Decoder_stream_ends (input : string) (n : nat) :
  (length (lines_of input) < n)%nat ->
  (exists stop : DecodeError,
      snd (Decoder_stream n (NewDecoder input)) = Some stop)
  /\ (length (fst (Decoder_stream n (NewDecoder input)))
      <= length (lines_of input))%nat.
Proof. intros H. apply StreamFacts.Decoder_stream_bound. exact H. Qed.

Lemma Decoder_stream_ends_witness :
  (exists stop : DecodeError,
      snd (Decoder_stream 5 (NewDecoder Scenario.plainScript)) = Some stop)
  /\ (length (fst (Decoder_stream 5 (NewDecoder Scenario.plainScript)))
      <= length (lines_of Scenario.plainScript))%nat.
Proof.
  apply (Decoder_stream_ends Scenario.plainScript 5).
  vm_compute. lia.
Defined.

(** X7.  The end of input is final for the tokenizer: once a call of
    [Decode] on an input has returned [io.EOF], every later call
    returns [io.EOF]. *)
Theorem Decoder_EOF_is_final (input : string) (n m : nat) :
  fst (Decoder_Decode (Decoder_after n (NewDecoder input))) = inr DecEOF ->
  (n <= m)%nat ->
  fst (Decoder_Decode (Decoder_after m (NewDecoder input))) = inr DecEOF.
Proof.
  intros H Hle.
  assert (Hend : r (Decoder_after (S n) (NewDecoder input)) = []).
  { replace (S n) with (n + 1)%nat by lia. rewrite StreamFacts.Decoder_after_add.
    cbn [Decoder_after].
    destruct (Decoder_Decode (Decoder_after n (NewDecoder input))) as [res d'] eqn:Hdec.
    cbn [fst snd] in *. subst res. unfold Decoder_Decode in Hdec.
    eapply StreamFacts.Decoder_EOF_end; [|exact Hdec].
    apply StreamFacts.properLines_nonempty, StreamFacts.Decoder_after_proper.
    apply LocateFacts.lines_of_proper. }
  destruct (decide (m = n)) as [->|Hne]; [exact H|].
  replace m with (S n + (m - S n))%nat by lia.
  rewrite StreamFacts.Decoder_after_add.
  rewrite StreamFacts.Decoder_Decode_at_end; [reflexivity|].
  apply StreamFacts.Decoder_after_end. exact Hend.
Qed.

Lemma Decoder_EOF_is_final_witness :
  fst (Decoder_Decode (Decoder_after 1 (NewDecoder ("x" +:+ Str.NL)))) = inr DecEOF
  /\ fst (Decoder_Decode (Decoder_after 4 (NewDecoder ("x" +:+ Str.NL)))) = inr DecEOF.
Proof.
  split; [reflexivity|].
  apply (Decoder_EOF_is_final ("x" +:+ Str.NL) 1 4); [reflexivity|lia].
Defined.

(* ===================================================================== *)
(** * Fields and arguments *)
(* ===================================================================== *)

Module FieldFacts.
Import Str StrFacts SpaceFacts ArgsFacts.

Lemma wsWidth_app_zero (s z : string) : wsWidth (s +:+ z) = O -> wsWidth s = O.
Proof.
  intros H. destruct (wsWidth s) eqn:E; [reflexivity|].
  rewrite wsWidth_app in H by (rewrite E; discriminate). congruence.
Qed.

Lemma IndexSpace_cons (c : ascii) (s : string) :
  IndexSpace (String c s)
  = match wsWidth (String c s) with
    | O => option_map S (IndexSpace s)
    | S _ => Some O
    end.
Proof. reflexivity. Qed.

(** the bytes before the first white space contain none *)
Lemma IndexSpace_take (s : string) :
  forall i : nat, IndexSpace s = Some i -> IndexSpace (take i s) = None.
Proof.
  induction s as [|c s IH]; intros i H; [discriminate H|].
  rewrite IndexSpace_cons in H.
  destruct (wsWidth (String c s)) eqn:E; [|inversion H; reflexivity].
  destruct (IndexSpace s) as [k|] eqn:Hk; [|discriminate H].
  inversion H; subst. cbn [take]. rewrite IndexSpace_cons.
  rewrite (wsWidth_app_zero (String c (take k s)) (drop k s)).
  - rewrite (IH k eq_refl). reflexivity.
  - rewrite app_cons, take_drop. exact E.
Qed.

Lemma IndexSpace_None_app (a b : string) :
  IndexSpace (a +:+ b) = None -> IndexSpace b = None.
Proof.
  induction a as [|c a IH]; intros H; [exact H|].
  rewrite app_cons, IndexSpace_cons in H.
  destruct (wsWidth (String c (a +:+ b))); [|discriminate H].
  destruct (IndexSpace (a +:+ b)); [discriminate H|]. apply IH. reflexivity.
Qed.

(** a text without white space does not end with a newline *)
Lemma IndexSpace_None_NL (s : string) :
  IndexSpace s = None -> TrimSuffix s NL = s.
Proof.
  intros H. destruct (TrimSuffix_spec s NL) as [[_ Hs]|[_ Hs]]; [|exact Hs].
  rewrite Hs in H. apply IndexSpace_None_app in H. discriminate H.
Qed.

(** ** The bytes of a white-space rune *)

Lemma wsWidth_le (s : string) : (wsWidth s <= len s)%nat.
Proof.
  destruct s as [|c1 [|c2 [|c3 s]]]; unfold len; cbn [String.length];
    [cbn; lia| | |];
    rewrite wsWidth_cons; cbn [head drop]; unfold spaceWidth; width_cases; lia.
Qed.

Lemma wsWidth_take (s : string) :
  wsWidth s <> O -> wsWidth (take (wsWidth s) s) = wsWidth s.
Proof.
  destruct s as [|c1 [|c2 [|c3 s]]];
    [intros H; contradiction H; reflexivity| | |];
    rewrite !wsWidth_cons; cbn [head drop]; unfold spaceWidth; width_cases;
    intros H; try (contradiction H; reflexivity);
    cbn [take]; rewrite wsWidth_cons; cbn [head drop]; unfold spaceWidth;
    width_known; reflexivity.
Qed.

Lemma trimLeftSpaceFrom_skip (k : nat) :
  forall s : string,
    (k <= len s)%nat -> trimLeftSpaceFrom k s = TrimLeftSpace (drop k s).
Proof.
  induction k as [|k IH]; intros s H; [reflexivity|].
  destruct s as [|c s]; [unfold len in H; cbn in H; lia|].
  cbn [trimLeftSpaceFrom drop]. apply IH.
  unfold len in *. cbn [String.length] in H. lia.
Qed.

(** Trimming on the left passes over one rune at a time. *)
Lemma TrimLeftSpace_step (s : string) :
  wsWidth s <> O -> TrimLeftSpace s = TrimLeftSpace (drop (wsWidth s) s).
Proof.
  intros H. pose proof (wsWidth_le s) as Hle.
  destruct s as [|c s]; [contradiction H; reflexivity|].
  unfold TrimLeftSpace at 1. cbn [trimLeftSpaceFrom].
  destruct (wsWidth (String c s)) as [|w] eqn:E; [contradiction H; reflexivity|].
  cbn [drop]. apply trimLeftSpaceFrom_skip.
  unfold len in *. cbn [String.length] in Hle. lia.
Qed.

Lemma len_take (n : nat) (s : string) : (n <= len s)%nat -> len (take n s) = n.
Proof.
  revert s. induction n as [|n IH]; intros s H; [reflexivity|].
  destruct s as [|c s]; [unfold len in H; cbn in H; lia|].
  unfold len in *. cbn [take String.length] in *. rewrite IH; lia.
Qed.

(** What [TrimLeftSpace] removes is white space, all of it. *)
Lemma TrimLeftSpace_gap (n : nat) :
  forall s : string,
    (len s <= n)%nat ->
    exists gap : string,
      s = gap +:+ TrimLeftSpace s /\ TrimLeftSpace gap = EmptyString.
Proof.
  induction n as [|n IH]; intros s Hn.
  - destruct s; [|unfold len in Hn; cbn in Hn; lia]. exists "". split; reflexivity.
  - destruct (wsWidth s) as [|w] eqn:E.
    + exists "". rewrite (TrimLeftSpace_id s E). split; reflexivity.
    + assert (Hw : wsWidth s <> O) by (rewrite E; discriminate).
      pose proof (wsWidth_le s) as Hle.
      destruct (IH (drop (wsWidth s) s)) as (gap & Hgap & Hblank).
      { pose proof (take_drop (wsWidth s) s) as Htd.
        apply (f_equal len) in Htd. rewrite len_app, len_take in Htd by exact Hle.
        lia. }
      exists (take (wsWidth s) s +:+ gap). split.
      * rewrite (TrimLeftSpace_step s Hw), app_assoc, <- Hgap, take_drop. reflexivity.
      * assert (Hwt : wsWidth (take (wsWidth s) s +:+ gap) = wsWidth s).
        { rewrite wsWidth_app; rewrite (wsWidth_take s Hw); [reflexivity|exact Hw]. }
        rewrite TrimLeftSpace_step by (rewrite Hwt; exact Hw).
        rewrite Hwt. rewrite <- (len_take (wsWidth s) s Hle) at 1.
        rewrite drop_app_len. exact Hblank.
Qed.

End FieldFacts.

(** X8.  [cutField] cuts at white space: the field it returns holds no
    white space, the rest does not begin with white space, and the
    argument is: white space, the field, white space, the rest, in this
    order.  When the rest is not empty, the white space between the
    field and the rest is not empty either. *)
Theorem cutField_cuts_at_white_space (s : string) :
  Str.IndexSpace (fst (cutField s)) = None
  /\ Str.wsWidth (snd (cutField s)) = O
  /\ exists lead gap : string,
       s = lead +:+ fst (cutField s) +:+ gap +:+ snd (cutField s)
       /\ Str.TrimLeftSpace lead = EmptyString
       /\ Str.TrimLeftSpace gap = EmptyString
       /\ (snd (cutField s) <> EmptyString -> gap <> EmptyString).
Proof.
  unfold cutField.
  destruct (FieldFacts.TrimLeftSpace_gap (Str.len s) s (le_n _)) as (lead & Hlead & Hl).
  destruct (Str.IndexSpace (Str.TrimLeftSpace s)) as [i|] eqn:E; cbn [fst snd].
  - split; [apply FieldFacts.IndexSpace_take; exact E|].
    split; [apply SpaceFacts.TrimLeftSpace_head|].
    destruct (FieldFacts.TrimLeftSpace_gap _ (Str.drop i (Str.TrimLeftSpace s)) (le_n _))
      as (gap & Hgap & Hg).
    exists lead, gap. split; [|split; [exact Hl|split; [exact Hg|]]].
    + rewrite <- Hgap, StrFacts.take_drop. exact Hlead.
    + intros _ ->. rewrite StrFacts.app_nil_l in Hgap.
      apply ArgsFacts.IndexSpace_hit in E. rewrite Hgap in E.
      apply E. apply SpaceFacts.TrimLeftSpace_head.
  - split; [exact E|]. split; [reflexivity|].
    exists lead, "". rewrite StrFacts.app_nil_l, StrFacts.app_nil_r.
    split; [exact Hlead|]. split; [exact Hl|]. split; [reflexivity|].
    intros H. contradiction H. reflexivity.
Qed.

Module ParseFacts.
Import Str StrFacts SpaceFacts ArgsFacts.

Lemma cutField_field (s : string) : IndexSpace (fst (cutField s)) = None.
Proof.
  unfold cutField.
  destruct (IndexSpace (TrimLeftSpace s)) as [i|] eqn:E; cbn [fst];
    [apply FieldFacts.IndexSpace_take|]; exact E.
Qed.

Lemma parseArgsLoop_length (iter : nat) :
  forall (s : string) (n : Z),
    0 < n -> Z.of_nat (length (parseArgsLoop iter s n false)) <= n.
Proof.
  induction iter as [|iter IH]; intros s n Hn; cbn [parseArgsLoop]; [cbn; lia|].
  destruct (isEmpty s); [cbn; lia|].
  destruct (n =? 1) eqn:E; cbn [andb negb]; [cbn; lia|].
  destruct (cutField s) as [arg s']. cbn [length].
  specialize (IH s' (n - 1)). lia.
Qed.

Lemma parseArgsLoop_fields (iter : nat) :
  forall (s : string) (n : Z) (unlimited : bool) (i : nat) (x : string),
    parseArgsLoop iter s n unlimited !! i = Some x ->
    unlimited = true \/ Z.of_nat i + 1 < n ->
    IndexSpace x = None.
Proof.
  induction iter as [|iter IH]; intros s n unlimited i x H Hi;
    cbn [parseArgsLoop] in H; [discriminate H|].
  destruct (isEmpty s); [discriminate H|].
  destruct ((n =? 1) && negb unlimited) eqn:E.
  - apply andb_true_iff in E as [E1 E2]. apply negb_true_iff in E2.
    destruct i; [|discriminate H].
    destruct Hi as [Hi|Hi]; [congruence|lia].
  - pose proof (cutField_field s) as Hf.
    destruct (cutField s) as [arg s']. cbn [fst] in Hf.
    destruct i as [|i]; [inversion H; subst; exact Hf|].
    cbn in H. eapply IH; [exact H|].
    destruct Hi as [Hi|Hi]; [left; exact Hi|right; lia].
Qed.

Lemma parseArgsLoop_nonempty (iter : nat) (s : string) (n : Z) (unlimited : bool) :
  s <> EmptyString -> iter <> O -> parseArgsLoop iter s n unlimited <> [].
Proof.
  intros Hs Hi. destruct iter; [contradiction Hi; reflexivity|].
  cbn [parseArgsLoop]. destruct s; [contradiction Hs; reflexivity|].
  cbn [isEmpty]. destruct (_ && _); [discriminate|].
  destruct (cutField _). discriminate.
Qed.

(** The last round of the loop: [n == 1]. *)
Lemma parseArgsLoop_last (iter : nat) (s : string) :
  (len s <= iter)%nat ->
  parseArgsLoop iter s 1 false = if isEmpty s then [] else [s].
Proof.
  intros H. destruct iter.
  - destruct s; [reflexivity|unfold len in H; cbn in H; lia].
  - cbn [parseArgsLoop]. destruct (isEmpty s); reflexivity.
Qed.

(** A round that cuts a field. *)
Lemma parseArgsLoop_cut (iter : nat) (s : string) (n : Z) :
  (len s <= iter)%nat -> n <> 1 ->
  parseArgsLoop iter s n false
  = if isEmpty s then []
    else fst (cutField s) :: parseArgsLoop (pred iter) (snd (cutField s)) (n - 1) false.
Proof.
  intros H Hn. destruct iter.
  - destruct s; [reflexivity|unfold len in H; cbn in H; lia].
  - cbn [parseArgsLoop pred]. destruct (isEmpty s); [reflexivity|].
    destruct (Z.eqb_spec n 1); [lia|]. cbn [andb].
    destruct (cutField s). reflexivity.
Qed.

Lemma cutField_empty : cutField EmptyString = (EmptyString, EmptyString).
Proof. reflexivity. Qed.

Lemma cutField_rest_len (s : string) (iter : nat) :
  (len s <= iter)%nat -> (len (snd (cutField s)) <= pred iter)%nat.
Proof.
  intros H. destruct s as [|c s]; [rewrite cutField_empty; unfold len; cbn; lia|].
  pose proof (cutField_shrinks (String c s)) as Hlt.
  assert (String c s <> "") by discriminate. specialize (Hlt H0). lia.
Qed.

Lemma At_0_cons (x : string) (l : list string) :
  Args_At (x :: l) 0 = Some (TrimSuffix x NL).
Proof.
  unfold Args_At.
  assert (E : (0 <? 0) || (Z.of_nat (length (x :: l)) <=? 0) = false).
  { apply orb_false_iff. split; [reflexivity|]. apply Z.leb_gt. cbn [length]. lia. }
  rewrite E. reflexivity.
Qed.

Lemma At_S_cons (x : string) (l : list string) (i : Z) :
  0 <= i -> Args_At (x :: l) (i + 1) = Args_At l i.
Proof.
  intros Hi. unfold Args_At.
  assert (E : (i + 1 <? 0) || (Z.of_nat (length (x :: l)) <=? i + 1)
              = (i <? 0) || (Z.of_nat (length l) <=? i)).
  { cbn [length].
    destruct (Z.ltb_spec (i + 1) 0), (Z.ltb_spec i 0); try lia.
    destruct (Z.leb_spec (Z.of_nat (S (length l))) (i + 1)),
             (Z.leb_spec (Z.of_nat (length l)) i); try lia; reflexivity. }
  rewrite E. clear E.
  destruct ((i <? 0) || (Z.of_nat (length l) <=? i)); [reflexivity|].
  replace (Z.to_nat (i + 1)) with (S (Z.to_nat i)) by lia. reflexivity.
Qed.

Lemma At_1_cons (x : string) (l : list string) : Args_At (x :: l) 1 = Args_At l 0.
Proof. apply (At_S_cons x l 0). lia. Qed.

Lemma At_2_cons (x : string) (l : list string) : Args_At (x :: l) 2 = Args_At l 1.
Proof. apply (At_S_cons x l 1). lia. Qed.

Lemma At_nil (i : Z) : Args_At [] i = Some EmptyString.
Proof.
  unfold Args_At. cbn [length].
  destruct (Z.ltb_spec i 0); [reflexivity|].
  destruct (Z.leb_spec (Z.of_nat 0) i); [reflexivity|lia].
Qed.

End ParseFacts.

(** X9.  The bounds of [ParseArgs]: it returns no argument when [n] is 0 or
    the text is empty; at most [n] arguments when [n] is positive; at
    least one argument when [n] is not 0 and the text is not empty;
    and every argument but the [n]-th (every argument, when [n] is
    negative) holds no white space. *)
Theorem ParseArgs_bounds (s : string) (n : Z) :
  (n = 0 \/ s = EmptyString -> ParseArgs s n = [])
  /\ (0 < n -> Z.of_nat (length (ParseArgs s n)) <= n)
  /\ (n <> 0 -> s <> EmptyString -> ParseArgs s n <> [])
  /\ (forall (i : nat) (x : string),
         ParseArgs s n !! i = Some x ->
         n < 0 \/ Z.of_nat i + 1 < n ->
         Str.IndexSpace x = None).
Proof.
  unfold ParseArgs. split; [|split; [|split]].
  - intros [->| ->]; [reflexivity|]. destruct (n =? 0); reflexivity.
  - intros Hn. destruct (Z.eqb_spec n 0); [lia|]. destruct (Z.ltb_spec n 0); [lia|].
    apply ParseFacts.parseArgsLoop_length. exact Hn.
  - intros Hn Hs. destruct (Z.eqb_spec n 0); [lia|].
    apply ParseFacts.parseArgsLoop_nonempty; [exact Hs|].
    destruct s; [contradiction Hs; reflexivity|discriminate].
  - intros i x H Hi. destruct (n =? 0) eqn:E; [discriminate H|].
    eapply ParseFacts.parseArgsLoop_fields; [exact H|].
    destruct Hi as [Hi|Hi]; [left; apply Z.ltb_lt; exact Hi|right; exact Hi].
Qed.

(** X10.  [ParseArgs2] and [ParseArgs3] return, and never panic: the first
    field (the first two fields) that [cutField] cuts, and the text
    that remains without one closing newline.  Fields and text that
    are missing are empty. *)
Theorem ParseArgs2_ParseArgs3_cut_fields (s : string) :
  ParseArgs2 s
  = Some (fst (cutField s), Str.TrimSuffix (snd (cutField s)) Str.NL)
  /\ ParseArgs3 s
     = Some (fst (cutField s),
             fst (cutField (snd (cutField s))),
             Str.TrimSuffix (snd (cutField (snd (cutField s)))) Str.NL).
Proof.
  pose proof (ParseFacts.cutField_field s) as Hf1.
  pose proof (ParseFacts.cutField_field (snd (cutField s))) as Hf2.
  pose proof (ParseFacts.cutField_rest_len s (Str.len s) (le_n _)) as Hl1.
  pose proof (ParseFacts.cutField_rest_len (snd (cutField s)) _ Hl1) as Hl2.
  unfold ParseArgs2, ParseArgs3, ParseArgs.
  change (2 =? 0) with false. change (3 =? 0) with false.
  change (2 <? 0) with false. change (3 <? 0) with false. cbv iota.
  rewrite !(ParseFacts.parseArgsLoop_cut (Str.len s) s) by (try apply le_n; lia).
  destruct s as [|c s'] eqn:Hs; [split; reflexivity|]. rewrite <- Hs in *.
  replace (Str.isEmpty s) with false by (rewrite Hs; reflexivity).
  change (2 - 1) with 1. change (3 - 1) with 2.
  rewrite (ParseFacts.parseArgsLoop_last _ _ Hl1).
  rewrite (ParseFacts.parseArgsLoop_cut _ _ 2 Hl1) by lia. change (2 - 1) with 1.
  rewrite (ParseFacts.parseArgsLoop_last _ _ Hl2).
  rewrite !ParseFacts.At_0_cons, !ParseFacts.At_1_cons, ParseFacts.At_2_cons.
  rewrite (FieldFacts.IndexSpace_None_NL _ Hf1).
  destruct (snd (cutField s)) as [|c1 r1] eqn:Hr1.
  - cbn [Str.isEmpty]. rewrite !ParseFacts.At_nil. split; reflexivity.
  - cbn [Str.isEmpty]. rewrite !ParseFacts.At_0_cons. split; [reflexivity|].
    rewrite (FieldFacts.IndexSpace_None_NL _ Hf2), ParseFacts.At_1_cons.
    destruct (snd (cutField (String c1 r1))) as [|c2 r2].
    + cbn [Str.isEmpty]. rewrite ParseFacts.At_nil. reflexivity.
    + cbn [Str.isEmpty]. rewrite ParseFacts.At_0_cons. reflexivity.
Qed.

Module FieldsFacts.
Import Str StrFacts SpaceFacts ArgsFacts FieldFacts.

Lemma fieldsFrom_cons (skip : nat) (cur : string) (c : ascii) (rest : string) :
  fieldsFrom skip cur (String c rest)
  = match skip with
    | S k => fieldsFrom k cur rest
    | O => match wsWidth (String c rest) with
           | O => fieldsFrom O (cur +:+ String c "") rest
           | S k => flush cur ++ fieldsFrom k "" rest
           end
    end.
Proof. reflexivity. Qed.

Lemma fieldsFrom_nil (skip : nat) (cur : string) :
  fieldsFrom skip cur EmptyString = flush cur.
Proof. destruct skip; reflexivity. Qed.

(** a text without white space is one field *)
Lemma fieldsFrom_field (s : string) :
  forall cur : string,
    IndexSpace s = None -> fieldsFrom O cur s = flush (cur +:+ s).
Proof.
  induction s as [|c s IH]; intros cur H.
  - rewrite fieldsFrom_nil, app_nil_r. reflexivity.
  - rewrite IndexSpace_cons in H. rewrite fieldsFrom_cons.
    destruct (wsWidth (String c s)); [|discriminate H].
    destruct (IndexSpace s); [discriminate H|].
    rewrite (IH _ eq_refl), app_assoc. reflexivity.
Qed.

(** the field in progress ends at the first white space *)
Lemma fieldsFrom_cut (s : string) :
  forall (cur : string) (i : nat),
    IndexSpace s = Some i ->
    fieldsFrom O cur s = flush (cur +:+ take i s) ++ fieldsFrom O "" (drop i s).
Proof.
  induction s as [|c s IH]; intros cur i H; [discriminate H|].
  rewrite IndexSpace_cons in H. rewrite fieldsFrom_cons.
  destruct (wsWidth (String c s)) as [|w] eqn:E.
  - destruct (IndexSpace s) as [k|] eqn:Hk; [|discriminate H].
    inversion H; subst. cbn [take drop].
    rewrite (IH _ k eq_refl), app_assoc. reflexivity.
  - inversion H; subst. cbn [take drop]. rewrite app_nil_r, fieldsFrom_cons, E.
    reflexivity.
Qed.

(** leading white space starts no field *)
Lemma fieldsFrom_trim (s : string) :
  forall k : nat, fieldsFrom k "" s = fieldsFrom O "" (trimLeftSpaceFrom k s).
Proof.
  induction s as [|c s IH]; intros k.
  - rewrite fieldsFrom_nil. reflexivity.
  - rewrite fieldsFrom_cons. cbn [trimLeftSpaceFrom].
    destruct k as [|k]; [|apply IH].
    destruct (wsWidth (String c s)) as [|w] eqn:E.
    + rewrite fieldsFrom_cons, E. reflexivity.
    + cbn [flush isEmpty app]. apply IH.
Qed.

Lemma Fields_trim (s : string) : Fields s = Fields (TrimLeftSpace s).
Proof. apply fieldsFrom_trim. Qed.

Lemma IndexSpace_zero (s : string) : IndexSpace s = Some O -> wsWidth s <> O.
Proof. intros H. apply IndexSpace_hit in H. exact H. Qed.

(** [cutField] takes the first field off. *)
Lemma Fields_cutField (s : string) :
  TrimLeftSpace s <> EmptyString ->
  Fields s = fst (cutField s) :: Fields (snd (cutField s)).
Proof.
  intros Hne. rewrite Fields_trim. unfold cutField.
  pose proof (TrimLeftSpace_head s) as Hhead.
  destruct (IndexSpace (TrimLeftSpace s)) as [i|] eqn:E; cbn [fst snd].
  - unfold Fields at 1. rewrite (fieldsFrom_cut _ _ i E), app_nil_l.
    fold (Fields (drop i (TrimLeftSpace s))). rewrite (Fields_trim (drop i _)).
    destruct i as [|i]; [apply IndexSpace_zero in E; contradiction|].
    destruct (TrimLeftSpace s) as [|c t]; [discriminate E|]. reflexivity.
  - unfold Fields at 1. rewrite (fieldsFrom_field _ _ E), app_nil_l.
    destruct (TrimLeftSpace s); [contradiction Hne; reflexivity|]. reflexivity.
Qed.

Lemma cutField_rest_trimmed (s : string) :
  TrimLeftSpace (snd (cutField s)) = snd (cutField s).
Proof.
  apply TrimLeftSpace_id. unfold cutField.
  destruct (IndexSpace (TrimLeftSpace s)); cbn [snd];
    [apply TrimLeftSpace_head|reflexivity].
Qed.

Lemma parseArgsLoop_unlimited (iter : nat) :
  forall (s : string) (n : Z),
    (len s <= iter)%nat -> TrimLeftSpace s = s -> n < 0 ->
    parseArgsLoop iter s n true = Fields s.
Proof.
  induction iter as [|iter IH]; intros s n Hlen Ht Hn.
  - destruct s; [reflexivity|unfold len in Hlen; cbn in Hlen; lia].
  - cbn [parseArgsLoop]. destruct s as [|c s'] eqn:Hs; [reflexivity|].
    rewrite <- Hs in *. replace (isEmpty s) with false by (rewrite Hs; reflexivity).
    rewrite andb_false_r.
    assert (Hne : TrimLeftSpace s <> "") by (rewrite Ht, Hs; discriminate).
    rewrite (Fields_cutField s Hne).
    pose proof (cutField_rest_trimmed s) as Hrt.
    pose proof (ParseFacts.cutField_rest_len s (S iter) Hlen) as Hrl.
    destruct (cutField s) as [arg rest]. cbn [fst snd pred] in *.
    f_equal. apply IH; [exact Hrl|exact Hrt|lia].
Qed.

Lemma Fields_nonempty (s : string) :
  TrimLeftSpace s <> EmptyString -> (1 <= length (Fields s))%nat.
Proof. intros H. rewrite (Fields_cutField s H). cbn [length]. lia. Qed.

Lemma parseArgsLoop_count (iter : nat) :
  forall (s : string) (n : Z),
    (len s <= iter)%nat -> TrimLeftSpace s <> EmptyString -> 0 < n ->
    Z.of_nat (length (parseArgsLoop iter s n false))
    = Z.min n (Z.of_nat (length (Fields s))).
Proof.
  induction iter as [|iter IH]; intros s n Hlen Ht Hn.
  - destruct s; [contradiction Ht; reflexivity|unfold len in Hlen; cbn in Hlen; lia].
  - pose proof (Fields_nonempty s Ht) as Hf.
    cbn [parseArgsLoop]. destruct s as [|c s'] eqn:Hs; [contradiction Ht; reflexivity|].
    rewrite <- Hs in *. replace (isEmpty s) with false by (rewrite Hs; reflexivity).
    destruct (Z.eqb_spec n 1) as [->|Hn1]; cbn [andb negb]; [cbn [length]; lia|].
    rewrite (Fields_cutField s Ht).
    pose proof (cutField_rest_trimmed s) as Hrt.
    pose proof (ParseFacts.cutField_rest_len s (S iter) Hlen) as Hrl.
    destruct (cutField s) as [arg rest]. cbn [fst snd pred length] in *.
    destruct rest as [|c1 r1] eqn:Hrest.
    + destruct iter; cbn [parseArgsLoop isEmpty length]; cbn; lia.
    + rewrite <- Hrest in *.
      assert (Hne : TrimLeftSpace rest <> "") by (rewrite Hrt, Hrest; discriminate).
      specialize (IH rest (n - 1) Hrl Hne). lia.
Qed.

End FieldsFacts.

(** X11.  For a text that is not white space only, [ParseArgs] with a
    negative [n] returns the fields of [strings.Fields], and with a
    positive [n] it returns as many arguments as the text has fields,
    but at most [n]. *)
Theorem ParseArgs_counts_fields (s : string) :
  Str.TrimLeftSpace s <> EmptyString ->
  (forall n : Z, n < 0 -> ParseArgs s n = Str.Fields s)
  /\ (forall n : Z,
        0 < n ->
        Z.of_nat (length (ParseArgs s n))
        = Z.min n (Z.of_nat (length (Str.Fields s)))).
Proof.
  intros Hne. unfold ParseArgs. split; intros n Hn.
  - destruct (Z.eqb_spec n 0); [lia|]. destruct (Z.ltb_spec n 0); [|lia].
    destruct (Str.wsWidth s) eqn:E.
    + apply FieldsFacts.parseArgsLoop_unlimited; [apply le_n| |exact Hn].
      apply SpaceFacts.TrimLeftSpace_id. exact E.
    + pose proof (ParseFacts.cutField_rest_len s _ (le_n _)) as Hrl.
      pose proof (FieldsFacts.cutField_rest_trimmed s) as Hrt.
      rewrite (FieldsFacts.Fields_cutField s Hne).
      destruct s as [|c s'] eqn:Hs; [discriminate E|]. rewrite <- Hs in *.
      replace (Str.len s) with (S (pred (Str.len s))) by (rewrite Hs; reflexivity).
      cbn [parseArgsLoop]. replace (Str.isEmpty s) with false by (rewrite Hs; reflexivity).
      rewrite andb_false_r. destruct (cutField s) as [arg rest]. cbn [fst snd] in *.
      f_equal. apply FieldsFacts.parseArgsLoop_unlimited; [exact Hrl|exact Hrt|lia].
  - destruct (Z.eqb_spec n 0); [lia|]. destruct (Z.ltb_spec n 0); [lia|].
    apply FieldsFacts.parseArgsLoop_count; [apply le_n|exact Hne|exact Hn].
Qed.

Lemma ParseArgs_counts_fields_witness :
  ParseArgs "  a b  c " (-1) = Str.Fields "  a b  c "
  /\ Z.of_nat (length (ParseArgs "  a b  c " 2))
     = Z.min 2 (Z.of_nat (length (Str.Fields "  a b  c "))).
Proof.
  destruct (ParseArgs_counts_fields "  a b  c ") as [H1 H2]; [discriminate|].
  split; [apply H1; lia|apply H2; lia].
Defined.

(* ===================================================================== *)
(** * The engine: stacks, registry and includes *)
(* ===================================================================== *)

(** X12.  [pop] after [push] returns the frame that was pushed and leaves
    the frames as they were before the push, with the name of the
    frame removed from [seen]: the stack is as it was before the push
    exactly when the name was not marked then. *)
Theorem stack_push_then_pop (s : stack) (x : Expanded) :
  stack_pop (snd (stack_push s x))
  = Some (x, {| frames := frames s; seen := delete (Name (Expr x)) (seen s) |})
  /\ ({| frames := frames s; seen := delete (Name (Expr x)) (seen s) |} = s
      <-> seen s !! Name (Expr x) = None).
Proof.
  split.
  - unfold stack_pop, stack_push. cbn [snd frames seen].
    rewrite List.rev_unit, List.removelast_last, delete_insert_eq. reflexivity.
  - split; intros H.
    + apply (f_equal seen) in H. cbn [seen] in H. rewrite <- H.
      apply lookup_delete_eq.
    + rewrite (delete_id _ _ H). destruct s; reflexivity.
Qed.

(* ===================================================================== *)
(** * What a step of the engine keeps *)
(* ===================================================================== *)

Section Frame.

(** a relation between the engine before and after a step *)
Variable R : ExpandingDecoder -> ExpandingDecoder -> Prop.

Hypothesis R_refl : forall d, R d d.
Hypothesis R_trans : forall a b c, R a b -> R b c -> R a c.
Hypothesis R_callStack : forall d s, R d (set_callStack d s).
Hypothesis R_pending : forall d l, R d (set_pending d l).
Hypothesis R_include :
  forall e d res d', expandInclude e d = (res, d') -> R d d'.

Section FrameRec.

Variable rec : Expanded -> ExpandingDecoder -> Outcome (option Expanded).

Hypothesis rec_R :
  forall e d res d',
    Name (Expr e) <> "define" -> rec e d = (res, d') -> R d d'.

Lemma templateLoop_R (iter : nat) :
  forall t callsite args dec expanded d res d',
    templateLoop rec iter t callsite args dec expanded d = (res, d') -> R d d'.
Proof.
  induction iter as [|iter IH];
    intros t callsite args dec0 expanded d res d' H; simpl in H.
  { inversion H; subst. apply R_refl. }
  destruct (Decoder_Decode dec0) as [[raw|[|ln msg]] dec1];
    try (inversion H; subst; apply R_refl).
  destruct (Os.Expand (Name raw) _ _) as [name u1].
  destruct (Os.Expand (Body raw) _ _) as [body u2].
  destruct (negb (Str.isEmpty u2)); [inversion H; subst; apply R_refl|].
  destruct (String.eqb name "define") eqn:Hdef; [inversion H; subst; apply R_refl|].
  apply String.eqb_neq in Hdef.
  destruct (rec _ d) as [res1 d1] eqn:Hrec.
  apply rec_R in Hrec; [|exact Hdef].
  destruct res1 as [[r1|]|e1| |]; try (inversion H; subst; exact Hrec).
  - apply IH in H. eapply R_trans; eauto.
  - apply IH in H. eapply R_trans; eauto.
Qed.

Lemma expandTemplateBody_R t callsite d res d' :
  expandTemplateBody rec t callsite d = (res, d') -> R d d'.
Proof.
  unfold expandTemplateBody. intros H.
  destruct (negb _); [inversion H; subst; apply R_refl|].
  destruct (templateLoop _ _ _ _ _ _ _ _) as [res1 d1] eqn:Hloop.
  apply templateLoop_R in Hloop.
  destruct res1 as [[|first rest]|e1| |]; inversion H; subst; try exact Hloop.
  eapply R_trans; [exact Hloop|apply R_pending].
Qed.

Lemma expandTemplate_R t callsite d res d' :
  expandTemplate rec t callsite d = (res, d') -> R d d'.
Proof.
  unfold expandTemplate. intros H.
  destruct (stack_push _ _) as [initial s].
  destruct (negb initial); [inversion H; subst; apply R_callStack|].
  destruct (expandTemplateBody _ _ _ _) as [res1 d1] eqn:Hbody.
  apply expandTemplateBody_R in Hbody.
  assert (Hd1 : R d d1) by (eapply R_trans; [apply R_callStack|exact Hbody]).
  destruct (stack_pop (callStack d1)) as [[x s1]|];
    destruct res1; inversion H; subst; try exact Hd1;
    (eapply R_trans; [exact Hd1|apply R_callStack]).
Qed.

End FrameRec.

(** Whatever is not a [define] keeps [R]; inside a template body
    nothing is a [define]. *)
Lemma expand_R_inner (depth : nat) :
  forall e d res d',
    Name (Expr e) <> "define" -> expand depth e d = (res, d') -> R d d'.
Proof.
  induction depth as [|depth IH]; intros e d res d' Hne H; simpl in H.
  all: apply String.eqb_neq in Hne; rewrite Hne in H.
  all: destruct (String.eqb (Name (Expr e)) "include");
    [eapply R_include; exact H|].
  all: destruct (Str.isEmpty (Name (Expr e))); [inversion H; subst; apply R_refl|].
  all: destruct (defs d !! Name (Expr e)) as [t|];
    [|inversion H; subst; apply R_refl].
  all: destruct (Str.isEmpty (tbody t)); [inversion H; subst; apply R_refl|].
  - inversion H; subst. apply R_refl.
  - eapply expandTemplate_R; [|exact H]. exact IH.
Qed.

Hypothesis R_define :
  forall e d res d', define d e = (res, d') -> R d d'.

Lemma expand_R (depth : nat) (e : Expanded) (d : ExpandingDecoder)
    (res : result error (option Expanded)) (d' : ExpandingDecoder) :
  expand depth e d = (res, d') -> R d d'.
Proof.
  intros H. destruct (String.eqb (Name (Expr e)) "define") eqn:Hdef.
  - assert (H' : match define d e with
                 | (Ok _, d) => (Ok None, d)
                 | (Err c, d) => (Err (ExpressionError e c), d)
                 | (Panic, d) => (Panic, d)
                 | (OutOfFuel, d) => (OutOfFuel, d)
                 end = (res, d'))
      by (destruct depth; simpl in H; rewrite Hdef in H; exact H).
    destruct (define d e) as [[u|c| |] d1] eqn:Hdefine;
      inversion H'; subst; eapply R_define; exact Hdefine.
  - apply String.eqb_neq in Hdef. eapply expand_R_inner; eauto.
Qed.

Hypothesis R_decoderStack :
  forall d dec', R d (set_decoderStack d (updateTop (decoderStack d) dec')).
Hypothesis R_pop :
  forall d, R d (popInclude (set_decoderStack d (List.removelast (decoderStack d)))).
Hypothesis R_err : forall d e, R d (set_err d e).

Lemma decodeExpanded_R (depth iter : nat) :
  forall d res d', decodeExpanded depth iter d = (res, d') -> R d d'.
Proof.
  induction iter as [|iter IH]; intros d res d' H; simpl in H.
  { inversion H; subst. apply R_refl. }
  destruct (pending d) as [|x rest]; [|inversion H; subst; apply R_pending].
  destruct (List.rev (decoderStack d)) as [|frame fs];
    [inversion H; subst; apply R_err|].
  destruct (Decoder_Decode (dec frame)) as [[raw|[|ln msg]] dec'].
  - destruct (expand depth _ _) as [res1 d1] eqn:Hexp.
    apply expand_R in Hexp.
    assert (Hd1 : R d d1) by (eapply R_trans; [apply R_decoderStack|exact Hexp]).
    destruct res1 as [[r1|]|e1| |]; try (inversion H; subst; exact Hd1).
    + apply IH in H. eapply R_trans; eauto.
    + inversion H; subst. eapply R_trans; [exact Hd1|apply R_err].
  - apply IH in H. eapply R_trans; [apply R_pop|exact H].
  - inversion H; subst. eapply R_trans; [apply R_decoderStack|apply R_err].
Qed.

Lemma Decode_R (fuel : nat) (d : ExpandingDecoder)
    (res : result error Expanded) (d' : ExpandingDecoder) :
  Decode fuel d = (res, d') -> R d d'.
Proof.
  unfold Decode. intros H. destruct (err d); [inversion H; subst; apply R_refl|].
  eapply decodeExpanded_R; exact H.
Qed.

End Frame.

(* ===================================================================== *)
(** * The registry of templates *)
(* ===================================================================== *)

Lemma define_grows (e : Expanded) (d : ExpandingDecoder)
    (res : result Cause unit) (d' : ExpandingDecoder) :
  define d e = (res, d') -> defs d ⊆ defs d'.
Proof.
  unfold define. intros H.
  destruct (makeTemplate e) as [t|c| |]; try (inversion H; subst; reflexivity).
  destruct (defs d !! tname t) eqn:E; inversion H; subst; [reflexivity|].
  cbn [defs set_defs]. apply insert_subseteq. exact E.
Qed.

(** X13.  [Decode] never removes or replaces a template: every template
    registered before a call is registered after it, unchanged,
    whatever the outcome of the call. *)
Theorem Decode_keeps_templates (fuel : nat) (d : ExpandingDecoder) :
  defs d ⊆ defs (snd (Decode fuel d)).
Proof.
  destruct (Decode fuel d) as [res d'] eqn:H. cbn [snd]. revert H.
  apply (Decode_R (fun a b => defs a ⊆ defs b)).
  - intros a. reflexivity.
  - intros a b c Hab Hbc. etransitivity; eauto.
  - intros a s. reflexivity.
  - intros a l. reflexivity.
  - intros e a r b H. apply expandInclude_preserves in H as [_ ->]. reflexivity.
  - intros e a r b H. eapply define_grows; exact H.
  - intros a dec'. reflexivity.
  - intros a. destruct (popInclude_preserves
      (set_decoderStack a (List.removelast (decoderStack a)))) as [_ ->]. reflexivity.
  - intros a e. reflexivity.
Qed.

(** X14.  Only a top-level [define] changes the registry: a call of
    [expand] for an expression of any other name, whatever its
    outcome, leaves the registry, the file system, the root and the
    sticky error as they were (a [define] that a template body
    expands to is rejected, not run). *)
Theorem expansion_defines_nothing (depth : nat) (expr : Expanded)
    (d : ExpandingDecoder) (res : result error (option Expanded))
    (d' : ExpandingDecoder) :
  Name (Expr expr) <> "define" ->
  expand depth expr d = (res, d') ->
  defs d' = defs d /\ fsys d' = fsys d /\ root d' = root d /\ err d' = err d.
Proof.
  apply (expand_R_inner
           (fun a b => defs b = defs a /\ fsys b = fsys a /\ root b = root a
                       /\ err b = err a)).
  - intros a. auto.
  - intros a b c (H1 & H2 & H3 & H4) (H5 & H6 & H7 & H8).
    repeat split; congruence.
  - intros a s. auto.
  - intros a l. auto.
  - intros e a r b H. unfold expandInclude in H.
    destruct (Args_At _ 0) as [p|]; [|inversion H; subst; auto].
    destruct (Str.isEmpty p); [inversion H; subst; auto|].
    destruct (Str.Contains p "/"); [inversion H; subst; auto|].
    destruct (Str.HasSuffix p ".linebased"); [inversion H; subst; auto|].
    unfold pushInclude in H. destruct (existsb _ _); [inversion H; subst; auto|].
    cbn [negb fsys set_includeStack] in H.
    destruct (fsys a _); inversion H; subst; auto.
    unfold popInclude. cbn [includeStack set_includeStack].
    destruct (includeStack a ++ _); auto.
Qed.

(* ===================================================================== *)
(** * The include stack *)
(* ===================================================================== *)

Module IncludeFacts.

Lemma removelast_fmap {A B : Type} (f : A -> B) (l : list A) :
  f <$> List.removelast l = List.removelast (f <$> l).
Proof.
  induction l as [|x l IH]; [reflexivity|].
  destruct l as [|y l]; [reflexivity|].
  cbn [List.removelast fmap list_fmap] in *. f_equal. exact IH.
Qed.

Lemma NoDup_removelast {A : Type} (l : list A) :
  NoDup l -> NoDup (List.removelast l).
Proof.
  intros H. destruct l as [|x l] using List.rev_ind; [exact H|].
  rewrite List.removelast_last. apply NoDup_app in H as [H _]. exact H.
Qed.

Lemma updateTop_files (ds : list decoderFrame) (dec' : Decoder) :
  file <$> updateTop ds dec' = file <$> ds.
Proof.
  unfold updateTop. destruct ds as [|x l] using List.rev_ind; [reflexivity|].
  rewrite List.rev_unit, List.removelast_last, !fmap_app. reflexivity.
Qed.

Lemma popInclude_eq (d : ExpandingDecoder) :
  popInclude d = set_includeStack d (List.removelast (includeStack d)).
Proof.
  unfold popInclude. destruct (includeStack d) eqn:E; [|reflexivity].
  destruct d. cbn in E. subst. reflexivity.
Qed.

Lemma pushInclude_pop (d : ExpandingDecoder) (name : string) :
  fst (pushInclude d name) = true ->
  popInclude (snd (pushInclude d name)) = d.
Proof.
  unfold pushInclude. destruct (existsb _ _); [discriminate|]. intros _.
  cbn [snd]. rewrite popInclude_eq. cbn [includeStack set_includeStack].
  rewrite List.removelast_last. destruct d; reflexivity.
Qed.

Lemma pushInclude_spec (d : ExpandingDecoder) (name : string) :
  (fst (pushInclude d name) = false
   /\ name ∈ includeStack d /\ snd (pushInclude d name) = d)
  \/ (fst (pushInclude d name) = true
      /\ (name ∉ includeStack d)
      /\ snd (pushInclude d name)
         = set_includeStack d (includeStack d ++ [name])).
Proof.
  unfold pushInclude. destruct (existsb _ _) eqn:E; [left|right]; cbn [fst snd].
  - split; [reflexivity|]. split; [|reflexivity].
    apply List.existsb_exists in E as (x & Hin & Hx).
    apply String.eqb_eq in Hx. subst x. apply list_elem_of_In. exact Hin.
  - split; [reflexivity|]. split; [|reflexivity].
    intros Hin. apply list_elem_of_In in Hin.
    assert (existsb (String.eqb name) (includeStack d) = true); [|congruence].
    apply List.existsb_exists. exists name. split; [exact Hin|apply String.eqb_refl].
Qed.

Lemma define_stacks (d : ExpandingDecoder) (e : Expanded)
    (res : result Cause unit) (d' : ExpandingDecoder) :
  define d e = (res, d') ->
  includeStack d' = includeStack d /\ decoderStack d' = decoderStack d.
Proof.
  unfold define. intros H.
  destruct (makeTemplate e) as [t| | |]; try destruct (defs d !! tname t);
    inversion H; subst; split; reflexivity.
Qed.

Lemma expandInclude_includes (e : Expanded) (d : ExpandingDecoder)
    (res : result error (option Expanded)) (d' : ExpandingDecoder) :
  expandInclude e d = (res, d') -> includes_ok d -> includes_ok d'.
Proof.
  unfold expandInclude. intros H [Hfiles Hnd].
  destruct (Args_At _ 0) as [p|]; [|inversion H; subst; split; assumption].
  destruct (Str.isEmpty p); [inversion H; subst; split; assumption|].
  destruct (Str.Contains p "/"); [inversion H; subst; split; assumption|].
  destruct (Str.HasSuffix p ".linebased"); [inversion H; subst; split; assumption|].
  destruct (pushInclude_spec d (p +:+ ".linebased"))
    as [(Hf & Hin & Hs)|(Hf & Hnin & Hs)];
    pose proof (pushInclude_pop d (p +:+ ".linebased")) as Hpop;
    destruct (pushInclude d _) as [pushed d1]; cbn [fst snd] in *; subst pushed.
  - inversion H; subst. split; assumption.
  - cbn [negb] in H. destruct (fsys d1 _).
    + inversion H; subst. unfold includes_ok.
      cbn [includeStack decoderStack set_includeStack set_decoderStack].
      rewrite fmap_app, Hfiles. split; [reflexivity|].
      rewrite <- Hfiles. apply NoDup_app. split; [exact Hnd|].
      split; [|apply NoDup_singleton].
      intros x Hx Hx'. apply list_elem_of_singleton in Hx'. subst x. contradiction.
    + inversion H; subst. rewrite (Hpop eq_refl). split; assumption.
Qed.

End IncludeFacts.

(** X15.  The include stack and the decoder stack move in step: in a new
    engine, and after every call of [Decode] on an engine where it
    held before, the include stack lists the files of the decoder
    stack, bottom to top, and holds no file twice. *)
Theorem include_stack_in_step :
  (forall (name : string) (fs : FS), includes_ok (NewExpandingDecoder name fs))
  /\ (forall (fuel : nat) (d : ExpandingDecoder),
         includes_ok d -> includes_ok (snd (Decode fuel d))).
Proof.
  split.
  - intros name fs. unfold NewExpandingDecoder, includes_ok.
    destruct (fs name); cbn; split;
      try reflexivity; try apply NoDup_nil_2; apply NoDup_singleton.
  - intros fuel d. destruct (Decode fuel d) as [res d'] eqn:H. cbn [snd]. revert H.
    apply (Decode_R (fun a b => includes_ok a -> includes_ok b)).
    + auto.
    + auto.
    + intros a s H. exact H.
    + intros a l H. exact H.
    + intros e a r b H. eapply IncludeFacts.expandInclude_includes; exact H.
    + intros e a r b H [H1 H2]. apply IncludeFacts.define_stacks in H as [Hi Hd].
      unfold includes_ok. rewrite Hi, Hd. split; assumption.
    + intros a dec' [H1 H2]. unfold includes_ok.
      cbn [includeStack decoderStack set_decoderStack].
      rewrite IncludeFacts.updateTop_files. split; assumption.
    + intros a [H1 H2]. rewrite IncludeFacts.popInclude_eq. unfold includes_ok.
      cbn [includeStack decoderStack set_decoderStack set_includeStack].
      rewrite IncludeFacts.removelast_fmap, H1. split; [reflexivity|].
      rewrite <- H1. apply IncludeFacts.NoDup_removelast. exact H2.
    + intros a e H. exact H.
Qed.

(** X16.  An [include] is all or nothing.  Either [expand] returns an error
    and leaves the engine exactly as it was (a missing filename, a
    slash, the extension, a cycle, or a file that cannot be opened,
    after which the include stack has been popped again); or it
    returns nothing, having pushed one decoder for the file named by
    the argument with [.linebased] appended, which was not on the
    include stack and which the file system opened, and that name on
    the include stack. *)
Theorem include_is_all_or_nothing (depth : nat) (expr : Expanded)
    (d : ExpandingDecoder) :
  Name (Expr expr) = "include" ->
  (exists e : error, expand depth expr d = (Err e, d))
  \/ (exists path input : string,
         Args_At (ParseArgs (Body (Expr expr)) 1) 0 = Some path
         /\ (path +:+ ".linebased" ∉ includeStack d)
         /\ fsys d (path +:+ ".linebased") = inl input
         /\ expand depth expr d
            = (Ok None,
               set_decoderStack
                 (set_includeStack d (includeStack d ++ [path +:+ ".linebased"]))
                 (decoderStack d
                    ++ [ {| dec := NewDecoder input;
                            file := path +:+ ".linebased" |} ]))).
Proof.
  intros Hname.
  assert (Hexp : expand depth expr d = expandInclude expr d).
  { destruct depth; simpl; rewrite Hname; reflexivity. }
  rewrite Hexp. unfold expandInclude.
  destruct (Args_At_returns (ParseArgs (Body (Expr expr)) 1) 0) as [p Hp].
  rewrite Hp.
  destruct (Str.isEmpty p); [left; eauto|].
  destruct (Str.Contains p "/"); [left; eauto|].
  destruct (Str.HasSuffix p ".linebased"); [left; eauto|].
  destruct (IncludeFacts.pushInclude_spec d (p +:+ ".linebased"))
    as [(Hf & Hin & Hs)|(Hf & Hnin & Hs)];
    pose proof (IncludeFacts.pushInclude_pop d (p +:+ ".linebased")) as Hpop;
    destruct (pushInclude d _) as [pushed d1]; cbn [fst snd] in *; subst pushed.
  - left. subst d1. eauto.
  - cbn [negb]. destruct (fsys d1 _) as [input|msg] eqn:Hfs.
    + right. exists p, input. subst d1. cbn [fsys set_includeStack] in Hfs.
      split; [reflexivity|]. split; [exact Hnin|]. split; [exact Hfs|reflexivity].
    + left. rewrite (Hpop eq_refl). eauto.
Qed.

Lemma include_is_all_or_nothing_witness :
  (exists e : error,
      expand 0 {| Expr := {| Line := 1; Comment := ""; Name := "include";
                             Body := "other" +:+ Str.NL |};
                  File := "main.linebased"; Stack := [] |}
             (NewExpandingDecoder "main.linebased" Scenario.linebasedFiles)
      = (Err e, NewExpandingDecoder "main.linebased" Scenario.linebasedFiles))
  \/ (exists path input : string,
         Args_At (ParseArgs ("other" +:+ Str.NL) 1) 0 = Some path
         /\ (path +:+ ".linebased"
               ∉ includeStack (NewExpandingDecoder "main.linebased" Scenario.linebasedFiles))
         /\ fsys (NewExpandingDecoder "main.linebased" Scenario.linebasedFiles)
                 (path +:+ ".linebased") = inl input
         /\ expand 0 {| Expr := {| Line := 1; Comment := ""; Name := "include";
                                   Body := "other" +:+ Str.NL |};
                        File := "main.linebased"; Stack := [] |}
                   (NewExpandingDecoder "main.linebased" Scenario.linebasedFiles)
            = (Ok None,
               set_decoderStack
                 (set_includeStack (NewExpandingDecoder "main.linebased" Scenario.linebasedFiles)
                    (includeStack (NewExpandingDecoder "main.linebased" Scenario.linebasedFiles)
                       ++ [path +:+ ".linebased"]))
                 (decoderStack (NewExpandingDecoder "main.linebased" Scenario.linebasedFiles)
                    ++ [ {| dec := NewDecoder input;
                            file := path +:+ ".linebased" |} ]))).
Proof.
  apply (include_is_all_or_nothing 0
           {| Expr := {| Line := 1; Comment := ""; Name := "include";
                         Body := "other" +:+ Str.NL |};
              File := "main.linebased"; Stack := [] |}
           (NewExpandingDecoder "main.linebased" Scenario.linebasedFiles)).
  reflexivity.
Defined.

(** X17.  A template is registered once: a [define] that succeeds stores
    its template, which keeps the defining expression, under the
    declared name, which was free; a later [define] of the same name
    is rejected with the [redefined] error citing the file and the
    line of the first one, and changes nothing. *)
Theorem define_registers_once
    (d d1 : ExpandingDecoder) (e1 e2 : Expanded) :
  define d e1 = (Ok tt, d1) ->
  Name (Expr e2) = "define" ->
  declaredName e2 = declaredName e1 ->
  defs d !! declaredName e1 = None
  /\ (exists t : template,
         decl t = e1 /\ tname t = declaredName e1
         /\ d1 = set_defs d (<[declaredName e1 := t]> (defs d)))
  /\ define d1 e2
     = (Err (TemplateRedefined (declaredName e1) (File e1) (Line (Expr e1))), d1).
Proof.
  intros H1 Hname Hsame.
  assert (Hn1 : Name (Expr e1) = "define").
  { unfold define, makeTemplate in H1.
    destruct (String.eqb (Name (Expr e1)) "define") eqn:E;
      [apply String.eqb_eq; exact E|discriminate H1]. }
  unfold define in H1. rewrite (makeTemplate_unfold e1 Hn1) in H1.
  destruct (Str.isEmpty (declaredName e1)) eqn:Hempty; [discriminate H1|].
  destruct (Str.ContainsAny (declaredName e1) invalidNameBytes) eqn:Hbad;
    [discriminate H1|].
  cbn [tname] in H1.
  destruct (defs d !! declaredName e1) eqn:Hlook; [discriminate H1|].
  inversion H1; subst d1. clear H1.
  split; [reflexivity|].
  split; [refine (ex_intro _ _ (conj _ (conj _ eq_refl))); reflexivity|].
  unfold define. rewrite (makeTemplate_unfold e2 Hname), Hsame, Hempty, Hbad.
  cbn [tname defs set_defs]. rewrite lookup_insert_eq. reflexivity.
Qed.

Lemma define_registers_once_witness :
  defs Scenario.controlEngine !! declaredName Scenario.controlDefine = None
  /\ (exists t : template,
         decl t = Scenario.controlDefine
         /\ tname t = declaredName Scenario.controlDefine
         /\ snd (define Scenario.controlEngine Scenario.controlDefine)
            = set_defs Scenario.controlEngine
                (<[declaredName Scenario.controlDefine := t]>
                   (defs Scenario.controlEngine)))
  /\ define (snd (define Scenario.controlEngine Scenario.controlDefine))
            Scenario.controlDefine
     = (Err (TemplateRedefined (declaredName Scenario.controlDefine)
                               (File Scenario.controlDefine)
                               (Line (Expr Scenario.controlDefine))),
        snd (define Scenario.controlEngine Scenario.controlDefine)).
Proof.
  apply (define_registers_once Scenario.controlEngine
           (snd (define Scenario.controlEngine Scenario.controlDefine))
           Scenario.controlDefine Scenario.controlDefine).
  - vm_compute. reflexivity.
  - reflexivity.
  - reflexivity.
Defined.

(** X18.  A call of a template that is not being expanded, with a number of
    arguments other than the number of parameters, is rejected with
    the [expects n arguments, got m] error on the call site, and the
    engine is left exactly as it was: the frame pushed for the call
    has been popped. *)
Theorem wrong_argument_count_is_rejected (depth : nat) (expr : Expanded)
    (d : ExpandingDecoder) (t : template) :
  templateCall (defs d) (Name (Expr expr)) ->
  defs d !! Name (Expr expr) = Some t ->
  seen_ok (callStack d) ->
  Name (Expr expr) ∉ frameNames (callStack d) ->
  length (ParseArgs (Body (Expr expr)) (Z.of_nat (length (params t))))
  <> length (params t) ->
  expand (S depth) expr d
  = (Err (ExpressionError
            (withStack expr (frames (callStack d)))
            (ArgumentCount (tname t) (Z.of_nat (length (params t)))
               (Z.of_nat (length (ParseArgs (Body (Expr expr))
                                    (Z.of_nat (length (params t)))))))),
     d).
Proof.
  intros (Hdef & Hinc & Hemp & t' & Ht' & Hbody) Ht Hok Hfresh Hcount.
  rewrite Ht in Ht'. inversion Ht'; subst t'. clear Ht'.
  cbn [expand]. rewrite Hdef, Hinc, Hemp, Ht, Hbody.
  unfold expandTemplate, framesCopy.
  set (cs := withStack expr (frames (callStack d))).
  assert (Hnone : seen (callStack d) !! Name (Expr cs) = None).
  { cbn [cs withStack Expr]. rewrite (Hok (Name (Expr expr))).
    destruct (decide _); [contradiction|reflexivity]. }
  pose proof (stack_pop_push (callStack d) cs Hnone) as Hpop.
  unfold stack_push in *. cbn [snd] in Hpop. rewrite Hnone. cbn [default negb].
  unfold expandTemplateBody. cbn [withStack Expr Body cs].
  destruct (Nat.eqb_spec
              (length (ParseArgs (Body (Expr expr)) (Z.of_nat (length (params t)))))
              (length (params t))) as [E|E]; [contradiction|].
  cbn [negb callStack set_callStack]. cbn [cs withStack Expr Name] in Hpop.
  cbn [Name]. rewrite Hpop. destruct d; reflexivity.
Qed.

(* ===================================================================== *)
(** * Stack traces *)
(* ===================================================================== *)

Module TraceFacts.

Lemma expandInclude_pending (e : Expanded) (d : ExpandingDecoder)
    (res : result error (option Expanded)) (d' : ExpandingDecoder) :
  expandInclude e d = (res, d') -> pending d' = pending d.
Proof.
  unfold expandInclude. intros H.
  destruct (Args_At _ 0) as [p|]; [|inversion H; subst; reflexivity].
  destruct (Str.isEmpty p); [inversion H; subst; reflexivity|].
  destruct (Str.Contains p "/"); [inversion H; subst; reflexivity|].
  destruct (Str.HasSuffix p ".linebased"); [inversion H; subst; reflexivity|].
  unfold pushInclude in H. destruct (existsb _ _); [inversion H; subst; reflexivity|].
  cbn [negb fsys set_includeStack] in H.
  destruct (fsys d _); inversion H; subst; [reflexivity|].
  rewrite IncludeFacts.popInclude_eq. reflexivity.
Qed.

Section Trace.

Variable rec : Expanded -> ExpandingDecoder -> Outcome (option Expanded).

Hypothesis rec_traces :
  forall e d res d',
    seen_ok (callStack d) -> Name (Expr e) <> "define" ->
    rec e d = (Ok res, d') ->
    traces (frames (callStack d)) d e res d'.

Lemma templateLoop_traces (iter : nat) :
  forall t callsite args dec expanded d out d',
    seen_ok (callStack d) ->
    frames (callStack d) <> [] ->
    Forall (fun p => frames (callStack d) `prefix_of` Stack p) expanded ->
    templateLoop rec iter t callsite args dec expanded d = (Ok out, d') ->
    callStack d' = callStack d
    /\ Forall (fun p => frames (callStack d) `prefix_of` Stack p) out
    /\ exists new : list Expanded,
         pending d' = pending d ++ new
         /\ Forall (fun p => frames (callStack d) `prefix_of` Stack p) new.
Proof.
  induction iter as [|iter IH];
    intros t callsite args dec0 expanded d out d' Hok Hne Hexp H; simpl in H;
    [discriminate H|].
  destruct (Decoder_Decode dec0) as [[raw|[|ln msg]] dec1]; [| |discriminate H].
  2:{ inversion H; subst. split; [reflexivity|]. split; [exact Hexp|].
      exists []. rewrite List.app_nil_r. split; [reflexivity|constructor]. }
  destruct (Os.Expand (Name raw) _ _) as [name u1].
  destruct (Os.Expand (Body raw) _ _) as [body u2].
  destruct (negb (Str.isEmpty u2)); [discriminate H|].
  destruct (String.eqb name "define") eqn:Hdef; [discriminate H|].
  apply String.eqb_neq in Hdef.
  destruct (rec _ d) as [[[res1|]|e1| |] d1] eqn:Hrec; try discriminate H.
  - apply rec_traces in Hrec as (Hc & new1 & Hp1 & Hn1 & Hr1); [|exact Hok|exact Hdef].
    specialize (Hr1 res1 eq_refl). cbn [Expr Name] in Hr1.
    apply IH in H as (Hc2 & Hout & new2 & Hp2 & Hn2).
    + rewrite Hc in *. split; [exact Hc2|]. split; [exact Hout|].
      exists (new1 ++ new2). rewrite Hp2, Hp1, List.app_assoc.
      split; [reflexivity|]. apply Forall_app. split; assumption.
    + rewrite Hc. exact Hok.
    + rewrite Hc. exact Hne.
    + rewrite Hc. apply Forall_app. split; [exact Hexp|].
      constructor; [|constructor].
      destruct (Str.isEmpty name).
      * subst res1. cbn [Stack withStack framesCopy]. reflexivity.
      * destruct (Stack res1) as [|x st] eqn:Est; [|rewrite Est; exact Hr1].
        destruct Hr1 as [k Hk]. destruct (frames (callStack d)); [contradiction|].
        discriminate Hk.
  - apply rec_traces in Hrec as (Hc & new1 & Hp1 & Hn1 & Hr1); [|exact Hok|exact Hdef].
    apply IH in H as (Hc2 & Hout & new2 & Hp2 & Hn2).
    + rewrite Hc in *. split; [exact Hc2|]. split; [exact Hout|].
      exists (new1 ++ new2). rewrite Hp2, Hp1, List.app_assoc.
      split; [reflexivity|]. apply Forall_app. split; assumption.
    + rewrite Hc. exact Hok.
    + rewrite Hc. exact Hne.
    + rewrite Hc. exact Hexp.
Qed.

Lemma expandTemplate_traces t callsite d res d' :
  seen_ok (callStack d) ->
  expandTemplate rec t callsite d = (Ok res, d') ->
  callStack d' = callStack d
  /\ exists new : list Expanded,
       pending d' = pending d ++ new
       /\ forall p,
            res = Some p \/ p ∈ new ->
            (frames (callStack d) ++ [withStack callsite (frames (callStack d))])
              `prefix_of` Stack p.
Proof.
  unfold expandTemplate, framesCopy. intros Hok H.
  set (cs := withStack callsite (frames (callStack d))) in *.
  destruct (stack_push (callStack d) cs) as [initial s] eqn:Hpush.
  assert (Hs : s = snd (stack_push (callStack d) cs)) by (rewrite Hpush; reflexivity).
  assert (Hi : initial = fst (stack_push (callStack d) cs)) by (rewrite Hpush; reflexivity).
  destruct initial; cbn [negb] in H; [|discriminate H].
  destruct (stack_push_fresh _ _ Hok (eq_sym Hi)) as [_ Hnone].
  assert (Hfs : frames s = frames (callStack d) ++ [cs]) by (rewrite Hs; reflexivity).
  destruct (expandTemplateBody rec t cs (set_callStack d s)) as [res1 d1] eqn:Hbody.
  unfold expandTemplateBody in Hbody.
  destruct (negb _); [inversion Hbody; subst; destruct (stack_pop _) as [[? ?]|];
                      discriminate H|].
  destruct (templateLoop _ _ _ _ _ _ _ _) as [[out|e1| |] d2] eqn:Hloop.
  2:{ inversion Hbody; subst. destruct (stack_pop _) as [[? ?]|]; discriminate H. }
  2:{ inversion Hbody; subst. destruct (stack_pop _) as [[? ?]|]; discriminate H. }
  2:{ inversion Hbody; subst. discriminate H. }
  apply templateLoop_traces in Hloop as (Hc & Hout & new & Hp & Hn).
  2:{ cbn [callStack set_callStack]. rewrite Hs. apply seen_ok_push. exact Hok. }
  2:{ cbn [callStack set_callStack]. rewrite Hfs.
      destruct (frames (callStack d)); discriminate. }
  2:{ constructor. }
  cbn [callStack set_callStack pending set_pending] in Hc, Hout, Hp, Hn.
  rewrite Hfs in Hout, Hn.
  assert (Hpop : forall d3, callStack d3 = s ->
                            stack_pop (callStack d3) = Some (cs, callStack d)).
  { intros d3 ->. rewrite Hs. apply stack_pop_push. exact Hnone. }
  destruct out as [|first rest]; inversion Hbody; subst res1 d1; clear Hbody.
  - rewrite (Hpop d2 Hc) in H. inversion H; subst. split; [reflexivity|].
    exists new. split; [exact Hp|]. intros p [Hp'|Hp']; [discriminate Hp'|].
    rewrite Forall_forall in Hn. apply Hn. exact Hp'.
  - cbn [callStack set_pending] in H.
    rewrite (Hpop _ Hc) in H. inversion H; subst. split; [reflexivity|].
    exists (new ++ rest). cbn [pending set_callStack set_pending].
    rewrite Hp, List.app_assoc. split; [reflexivity|].
    apply Forall_cons in Hout as [Hfirst Hrest].
    intros p [Hp'|Hp'].
    + inversion Hp'; subst. exact Hfirst.
    + apply elem_of_app in Hp' as [Hp'|Hp'];
        [rewrite Forall_forall in Hn; apply Hn|
         rewrite Forall_forall in Hrest; apply Hrest]; exact Hp'.
Qed.

End Trace.

Lemma prefix_of_app_l {A : Type} (a b l : list A) :
  (a ++ b) `prefix_of` l -> a `prefix_of` l.
Proof. intros [k ->]. exists (b ++ k). rewrite List.app_assoc. reflexivity. Qed.

Lemma expand_traces (depth : nat) :
  forall e d res d',
    seen_ok (callStack d) -> Name (Expr e) <> "define" ->
    expand depth e d = (Ok res, d') ->
    traces (frames (callStack d)) d e res d'.
Proof.
  induction depth as [|depth IH]; intros e d res d' Hok Hne H.
  all: pose proof (expand_balanced _ _ _ _ _ Hok H) as [Hc _].
  all: simpl in H.
  all: apply String.eqb_neq in Hne; rewrite Hne in H.
  all: split; [exact Hc|].
  all: destruct (String.eqb (Name (Expr e)) "include") eqn:Hinc;
    [ exists [];
      pose proof (expandInclude_pending _ _ _ _ H) as Hp;
      rewrite List.app_nil_r; split; [exact Hp|]; split; [constructor|];
      intros p ->; unfold expandInclude in H;
      destruct (Args_At _ 0) as [q|]; [|discriminate H];
      destruct (Str.isEmpty q); [discriminate H|];
      destruct (Str.Contains q "/"); [discriminate H|];
      destruct (Str.HasSuffix q ".linebased"); [discriminate H|];
      destruct (pushInclude d _) as [[] d1]; cbn [negb] in H; [|discriminate H];
      destruct (fsys d1 _); discriminate H |].
  all: destruct (Str.isEmpty (Name (Expr e))) eqn:Hemp;
    [ inversion H; subst; exists []; rewrite List.app_nil_r;
      split; [reflexivity|]; split; [constructor|];
      intros p Hp; inversion Hp; reflexivity |].
  all: assert (Hpass : forall r dd, passThrough e d = (Ok r, dd) ->
             exists new : list Expanded,
               pending dd = pending d ++ new
               /\ Forall (fun p => frames (callStack d) `prefix_of` Stack p) new
               /\ (forall p, r = Some p -> frames (callStack d) `prefix_of` Stack p))
    by (intros r dd Hr; inversion Hr; subst; exists []; rewrite List.app_nil_r;
        split; [reflexivity|]; split; [constructor|];
        intros p Hp; inversion Hp; reflexivity).
  all: destruct (defs d !! Name (Expr e)) as [t|]; [|apply Hpass; exact H].
  all: destruct (Str.isEmpty (tbody t)); [apply Hpass; exact H|].
  - discriminate H.
  - apply (expandTemplate_traces (expand depth) IH) in H as (_ & new & Hp & Hall);
      [|exact Hok].
    exists new. split; [exact Hp|]. split.
    + apply Forall_forall. intros p Hin.
      eapply prefix_of_app_l. apply Hall. right. exact Hin.
    + intros p ->. eapply prefix_of_app_l. apply Hall. left. reflexivity.
Qed.

End TraceFacts.

(** X19.  What a template call produces carries the call: every expression
    that a successful call of a template returns or queues has in its
    [Stack] the frames that were active at the call, followed by the
    call itself; what was pending before stays in front of what is
    queued. *)
Theorem template_results_carry_the_call (depth : nat) (expr : Expanded)
    (d : ExpandingDecoder) (res : option Expanded) (d' : ExpandingDecoder) :
  seen_ok (callStack d) ->
  templateCall (defs d) (Name (Expr expr)) ->
  expand depth expr d = (Ok res, d') ->
  exists new : list Expanded,
    pending d' = pending d ++ new
    /\ forall p : Expanded,
         res = Some p \/ p ∈ new ->
         (frames (callStack d) ++ [withStack expr (frames (callStack d))])
           `prefix_of` Stack p.
Proof.
  intros Hok (Hdef & Hinc & Hemp & t & Ht & Hbody) H.
  destruct depth as [|depth]; simpl in H; rewrite Hdef, Hinc, Hemp, Ht, Hbody in H;
    [discriminate H|].
  apply (TraceFacts.expandTemplate_traces (expand depth)) in H as (_ & Hnew);
    [exact Hnew| |exact Hok].
  intros e0 d0 r0 d0' Hok0 Hne0 H0.
  eapply TraceFacts.expand_traces; eauto.
Qed.

Lemma pair_is_a_template : templateCall (defs Scenario.pairEngine) "pair".
Proof.
  split; [reflexivity|]. split; [reflexivity|]. split; [reflexivity|].
  exists Scenario.pairTemplate. split; [vm_compute; reflexivity|reflexivity].
Qed.

Lemma template_results_carry_the_call_witness :
  exists new : list Expanded,
    pending (snd (expand 1 Scenario.pairCall Scenario.pairEngine))
    = pending Scenario.pairEngine ++ new
    /\ forall p : Expanded,
         Some {| Expr := {| Line := 1; Comment := ""; Name := "echo";
                            Body := "x" +:+ Str.NL |};
                 File := "m"; Stack := [Scenario.pairCall] |} = Some p
         \/ p ∈ new ->
         (frames (callStack Scenario.pairEngine)
            ++ [withStack Scenario.pairCall (frames (callStack Scenario.pairEngine))])
           `prefix_of` Stack p.
Proof.
  apply (template_results_carry_the_call 1 Scenario.pairCall Scenario.pairEngine).
  - apply seen_ok_empty.
  - apply pair_is_a_template.
  - vm_compute. reflexivity.
Defined.

Lemma wrong_argument_count_is_rejected_witness :
  expand 1 Scenario.shortCall Scenario.pairEngine
  = (Err (ExpressionError
            (withStack Scenario.shortCall (frames (callStack Scenario.pairEngine)))
            (ArgumentCount (tname Scenario.pairTemplate)
               (Z.of_nat (length (params Scenario.pairTemplate)))
               (Z.of_nat (length (ParseArgs (Body (Expr Scenario.shortCall))
                                    (Z.of_nat (length (params Scenario.pairTemplate)))))))),
     Scenario.pairEngine).
Proof.
  apply (wrong_argument_count_is_rejected 0 Scenario.shortCall Scenario.pairEngine
           Scenario.pairTemplate).
  - apply pair_is_a_template.
  - vm_compute. reflexivity.
  - apply seen_ok_empty.
  - intros H. inversion H.
  - vm_compute. discriminate.
Defined.

Lemma expansion_defines_nothing_witness :
  defs (snd (expand 1 Scenario.pairCall Scenario.pairEngine))
  = defs Scenario.pairEngine
  /\ fsys (snd (expand 1 Scenario.pairCall Scenario.pairEngine))
     = fsys Scenario.pairEngine
  /\ root (snd (expand 1 Scenario.pairCall Scenario.pairEngine))
     = root Scenario.pairEngine
  /\ err (snd (expand 1 Scenario.pairCall Scenario.pairEngine))
     = err Scenario.pairEngine.
Proof.
  apply (expansion_defines_nothing 1 Scenario.pairCall Scenario.pairEngine
           (fst (expand 1 Scenario.pairCall Scenario.pairEngine))).
  - discriminate.
  - apply surjective_pairing.
Defined.

(* ===================================================================== *)
(** * No panic, and a root file that cannot be opened *)
(* ===================================================================== *)

Lemma decodeExpanded_safe (depth iter : nat) :
  forall d : ExpandingDecoder, fst (decodeExpanded depth iter d) <> Panic.
Proof.
  induction iter as [|iter IH]; intros d; cbn [decodeExpanded]; [discriminate|].
  destruct (pending d); [|discriminate].
  destruct (List.rev (decoderStack d)) as [|frame fs]; [discriminate|].
  destruct (Decoder_Decode (dec frame)) as [[raw|[|ln msg]] dec'];
    [|apply IH|discriminate].
  destruct (expand depth _ _) as [res1 d1] eqn:Hexp.
  apply expand_safe in Hexp as [Hnp _].
  destruct res1 as [[r1|]|e1| |]; try discriminate; [apply IH|contradiction].
Qed.

Lemma slices_Index_lt (l : list string) (x : string) :
  forall i : nat, slices_Index l x = Some i -> (i < length l)%nat.
Proof.
  induction l as [|y l IH]; intros i H; [discriminate H|].
  cbn [slices_Index] in H. destruct (String.eqb y x).
  - inversion H; subst. cbn [length]. lia.
  - destruct (slices_Index l x) as [k|]; [|discriminate H].
    inversion H; subst. specialize (IH k eq_refl). cbn [length]. lia.
Qed.

(** X20.  [Decode] never panics, whatever the state of the engine and the
    budget: the panic of [pop] on an empty stack, the internal error
    of [makeTemplate] and an index out of range in [Args.At] are not
    reached.  And the index [getParam] uses into the arguments is in
    range once the number of arguments has been checked: it finds the
    argument and returns it without one closing newline. *)
Theorem Decode_never_panics (fuel : nat) (d : ExpandingDecoder) :
  fst (Decode fuel d) <> Panic
  /\ (forall (t : template) (args : Args) (name : string) (i : nat),
         length args = length (params t) ->
         slices_Index (params t) name = Some i ->
         exists a : string,
           args !! i = Some a
           /\ fst (getParam t args name "") = Str.TrimSuffix a Str.NL).
Proof.
  split.
  - unfold Decode. destruct (err d); [discriminate|]. apply decodeExpanded_safe.
  - intros t args name i Hlen Hi. pose proof (slices_Index_lt _ _ _ Hi) as Hlt.
    destruct (lookup_lt_is_Some_2 args i) as [a Ha]; [lia|].
    exists a. split; [exact Ha|]. unfold getParam. rewrite Hi. cbn [fst].
    rewrite (nth_lookup_Some _ _ _ _ Ha). reflexivity.
Qed.

(** X21.  A root file that cannot be opened: [NewExpandingDecoder] keeps the
    error, and every call of [Decode], whatever root was set, returns
    it and changes nothing; its text is the name of the file (or
    [<unknown>] for an empty name), [:1: ] and the text of the error
    of [Open]. *)
Theorem missing_root_file_is_reported
    (name msg : string) (fs : FS) (root : string) (fuel : nat)
    (Quote : string -> string) :
  fs name = inr msg ->
  exists e : error,
    Decode fuel (SetRoot (NewExpandingDecoder name fs) root)
    = (Err e, SetRoot (NewExpandingDecoder name fs) root)
    /\ Error Quote e
       = (if Str.isEmpty name then "<unknown>" else name) +:+ ":1: " +:+ msg.
Proof.
  intros Hfs. unfold NewExpandingDecoder. rewrite Hfs.
  eexists. split; [reflexivity|].
  unfold Error, locationForError, fileOrUnknown. cbn [Stack Expr Line File Cause_Error].
  change (1 =? 0) with false. cbv iota.
  rewrite StrFacts.app_assoc. reflexivity.
Qed.

Lemma missing_root_file_is_reported_witness :
  exists e : error,
    Decode 3 (SetRoot (NewExpandingDecoder "nope" (MapFS [])) "pkg")
    = (Err e, SetRoot (NewExpandingDecoder "nope" (MapFS [])) "pkg")
    /\ Error (fun s => s) e
       = (if Str.isEmpty "nope" then "<unknown>" else "nope") +:+ ":1: "
           +:+ ("open " +:+ "nope" +:+ ": file does not exist").
Proof.
  apply (missing_root_file_is_reported "nope" _ (MapFS []) "pkg" 3 (fun s => s)).
  reflexivity.
Defined.

(** X22.  Every call of [expand] that returns a value, or an error other
    than the recursion error, leaves the call stack exactly as it
    found it. *)
Theorem expand_restores_the_call_stack (depth : nat) (expr : Expanded)
    (d : ExpandingDecoder) (res : result error (option Expanded))
    (d' : ExpandingDecoder) :
  seen_ok (callStack d) ->
  expand depth expr d = (res, d') ->
  settled res ->
  callStack d' = callStack d.
Proof.
  intros Hok H Hres.
  destruct (expand_restores depth expr d res d' Hok H Hres) as [Hc _]. exact Hc.
Qed.

Lemma expand_restores_the_call_stack_witness :
  callStack (snd (expand 1 Scenario.shortCall Scenario.pairEngine))
  = callStack Scenario.pairEngine.
Proof.
  apply (expand_restores_the_call_stack 1 Scenario.shortCall Scenario.pairEngine
           (fst (expand 1 Scenario.shortCall Scenario.pairEngine))).
  - apply seen_ok_empty.
  - apply surjective_pairing.
  - vm_compute. exact I.
Defined.

(* ===================================================================== *)
(** * What a template call emits *)
(* ===================================================================== *)

Module BodyFacts.

Lemma expand_passes (depth : nat) (e : Expanded) (d : ExpandingDecoder) :
  passes (defs d) (Name (Expr e)) ->
  expand depth e d
  = (Ok (Some (if Str.isEmpty (Name (Expr e)) then e
               else withStack e (frames (callStack d)))), d).
Proof.
  intros (Hdef & Hinc & Hpass).
  apply String.eqb_neq in Hdef, Hinc.
  destruct depth; cbn [expand]; rewrite Hdef, Hinc.
  all: destruct (Str.isEmpty (Name (Expr e))) eqn:He; [reflexivity|].
  all: destruct Hpass as [Hn|[Hn|(t & Ht & Hb)]];
    [rewrite Hn in He; discriminate He
    |rewrite Hn; reflexivity
    |rewrite Ht, Hb; reflexivity].
Qed.

Lemma templateLoop_body (depth n : nat) :
  forall (iter : nat) (t : template) (cs : Expanded) (args : Args)
         (dec : Decoder) (expanded : list Expanded) (d : ExpandingDecoder)
         (es : list Expression),
    (length (r dec) < iter)%nat ->
    frames (callStack d) <> [] ->
    Decoder_stream n dec = (es, Some DecEOF) ->
    Forall (fun raw => snd (substitute t args raw) = EmptyString
                       /\ passes (defs d) (Name (fst (substitute t args raw)))) es ->
    templateLoop (expand depth) iter t cs args dec expanded d
    = (Ok (expanded ++ (emitted t args (frames (callStack d)) <$> es)), d).
Proof.
  induction n as [|n IH];
    intros iter t cs args dec0 expanded d es Hiter Hne Hs Hall;
    cbn [Decoder_stream] in Hs; [discriminate Hs|].
  destruct iter as [|iter]; [lia|]. cbn [templateLoop].
  destruct (Decoder_Decode dec0) as [[raw|[|ln msg]] dec1] eqn:Hdec.
  - destruct (Decoder_stream n dec1) as [es' stop] eqn:Hs'.
    inversion Hs; subst es stop. clear Hs.
    apply Forall_cons in Hall as [[Hu Hp] Hall].
    apply Decoder_Decode_consumes in Hdec.
    unfold emitted at 1. cbn [fmap list_fmap].
    unfold substitute in Hu, Hp |- *.
    destruct (Os.Expand (Name raw) _ _) as [name u1].
    destruct (Os.Expand (Body raw) _ _) as [body u2].
    cbn [fst snd Name] in *. subst u2. cbn [Str.isEmpty negb].
    destruct Hp as (Hdef & Hp). apply String.eqb_neq in Hdef as Hdef'.
    rewrite Hdef'.
    rewrite expand_passes by (split; [exact Hdef|exact Hp]).
    cbn [Expr Name].
    rewrite (IH iter t cs args dec1 _ d es') by (try lia; assumption).
    rewrite <- List.app_assoc. cbn [app]. f_equal. f_equal. f_equal.
    change (list_fmap Expression Expanded (emitted t args (frames (callStack d))) es')
      with (emitted t args (frames (callStack d)) <$> es').
    f_equal.
    destruct (Str.isEmpty name); cbn [Stack withStack framesCopy]; [reflexivity|].
    destruct (frames (callStack d)); [contradiction|reflexivity].
  - inversion Hs; subst es. cbn [fmap list_fmap]. rewrite List.app_nil_r. reflexivity.
  - inversion Hs.
Qed.

End BodyFacts.

(** X23.  A template call emits its body, substituted.  When a template
    that is not being expanded is called with as many arguments as it
    has parameters, the tokenizer reads its body to the end as the
    expressions [es], no parameter referred to is unknown, and none of
    [es], after substitution, is a builtin or the call of a template
    with a body, then [expand] returns the first of [es] and queues
    the others, in order, behind what was pending: each with its name
    and body substituted, with the file of the definition, and with
    the active frames followed by the call as its stack.  Nothing
    else changes. *)
Theorem template_call_emits_its_body
    (depth n : nat) (expr : Expanded) (d : ExpandingDecoder) (t : template)
    (es : list Expression) :
  templateCall (defs d) (Name (Expr expr)) ->
  defs d !! Name (Expr expr) = Some t ->
  seen_ok (callStack d) ->
  Name (Expr expr) ∉ frameNames (callStack d) ->
  length (ParseArgs (Body (Expr expr)) (Z.of_nat (length (params t))))
  = length (params t) ->
  Decoder_stream n (NewDecoder (tbody t)) = (es, Some DecEOF) ->
  Forall (fun raw =>
            snd (substitute t (ParseArgs (Body (Expr expr))
                                 (Z.of_nat (length (params t)))) raw)
            = EmptyString
            /\ passes (defs d)
                 (Name (fst (substitute t (ParseArgs (Body (Expr expr))
                                             (Z.of_nat (length (params t)))) raw))))
         es ->
  expand (S depth) expr d
  = (Ok (head (emitted t (ParseArgs (Body (Expr expr))
                            (Z.of_nat (length (params t))))
                 (frames (callStack d) ++ [withStack expr (frames (callStack d))])
                 <$> es)),
     set_pending d
       (pending d
          ++ tail (emitted t (ParseArgs (Body (Expr expr))
                                (Z.of_nat (length (params t))))
                     (frames (callStack d) ++ [withStack expr (frames (callStack d))])
                     <$> es))).
Proof.
  intros (Hdef & Hinc & Hemp & t' & Ht' & Hbody) Ht Hok Hfresh Hcount Hs Hall.
  rewrite Ht in Ht'. inversion Ht'; subst t'. clear Ht'.
  cbn [expand]. rewrite Hdef, Hinc, Hemp, Ht, Hbody.
  unfold expandTemplate, framesCopy.
  set (cs := withStack expr (frames (callStack d))).
  assert (Hnone : seen (callStack d) !! Name (Expr cs) = None).
  { cbn [cs withStack Expr]. rewrite (Hok (Name (Expr expr))).
    destruct (decide _); [contradiction|reflexivity]. }
  pose proof (stack_pop_push (callStack d) cs Hnone) as Hpop.
  unfold stack_push in *. cbn [snd] in Hpop. rewrite Hnone. cbn [default negb].
  unfold expandTemplateBody. cbn [withStack Expr Body cs].
  set (args := ParseArgs (Body (Expr expr)) (Z.of_nat (length (params t)))) in *.
  rewrite Hcount, Nat.eqb_refl. cbn [negb].
  set (d1 := set_callStack d _).
  assert (Hf1 : frames (callStack d1) = frames (callStack d) ++ [cs]) by reflexivity.
  rewrite (BodyFacts.templateLoop_body depth n _ t _ args (NewDecoder (tbody t)) [] d1 es).
  - rewrite Hf1. cbn [app].
    destruct (emitted t args (frames (callStack d) ++ [cs]) <$> es) as [|first rest];
      cbn [head tail callStack set_callStack set_pending d1 pending].
    + cbn [cs withStack Expr Name] in Hpop. cbn [Name]. rewrite Hpop.
      rewrite List.app_nil_r. destruct d; reflexivity.
    + cbn [cs withStack Expr Name] in Hpop. cbn [Name]. rewrite Hpop.
      destruct d; reflexivity.
  - cbn [NewDecoder r]. lia.
  - rewrite Hf1. destruct (frames (callStack d)); discriminate.
  - exact Hs.
  - exact Hall.
Qed.

Lemma template_call_emits_its_body_witness :
  expand 1 Scenario.pairCall Scenario.pairEngine
  = (Ok (head (emitted Scenario.pairTemplate
                 (ParseArgs (Body (Expr Scenario.pairCall))
                    (Z.of_nat (length (params Scenario.pairTemplate))))
                 (frames (callStack Scenario.pairEngine)
                    ++ [withStack Scenario.pairCall
                          (frames (callStack Scenario.pairEngine))])
                 <$> fst (Decoder_stream 3
                            (NewDecoder (tbody Scenario.pairTemplate))))),
     set_pending Scenario.pairEngine
       (pending Scenario.pairEngine
          ++ tail (emitted Scenario.pairTemplate
                     (ParseArgs (Body (Expr Scenario.pairCall))
                        (Z.of_nat (length (params Scenario.pairTemplate))))
                     (frames (callStack Scenario.pairEngine)
                        ++ [withStack Scenario.pairCall
                              (frames (callStack Scenario.pairEngine))])
                     <$> fst (Decoder_stream 3
                                (NewDecoder (tbody Scenario.pairTemplate)))))).
Proof.
  apply (template_call_emits_its_body 0 3 Scenario.pairCall Scenario.pairEngine
           Scenario.pairTemplate).
  - apply pair_is_a_template.
  - vm_compute. reflexivity.
  - apply seen_ok_empty.
  - intros H. inversion H.
  - vm_compute. reflexivity.
  - vm_compute. reflexivity.
  - assert (Hecho : passes (defs Scenario.pairEngine) "echo").
    { split; [discriminate|]. split; [discriminate|].
      right. left. vm_compute. reflexivity. }
    repeat (constructor; [split; [vm_compute; reflexivity|exact Hecho]|]).
    constructor.
Defined.

Module BodyErrors.

(** The loop over a body whose tokenizer stops at a syntax error: the
    expressions before it are dropped and the error is reported in
    the file of the definition. *)
Lemma templateLoop_syntax_error (depth n : nat) :
  forall (iter : nat) (t : template) (cs : Expanded) (args : Args)
         (dec : Decoder) (expanded : list Expanded) (d : ExpandingDecoder)
         (es : list Expression) (ln : Z) (msg : string),
    (length (r dec) < iter)%nat ->
    frames (callStack d) <> [] ->
    Decoder_stream n dec = (es, Some (SyntaxError ln msg)) ->
    Forall (fun raw => snd (substitute t args raw) = EmptyString
                       /\ passes (defs d) (Name (fst (substitute t args raw)))) es ->
    templateLoop (expand depth) iter t cs args dec expanded d
    = (Err (ExpressionError
              {| Expr := {| Line := ln; Comment := ""; Name := ""; Body := "" |};
                 File := File (decl t); Stack := [] |}
              (SyntaxMessage msg)), d).
Proof.
  induction n as [|n IH];
    intros iter t cs args dec0 expanded d es ln msg Hiter Hne Hs Hall;
    cbn [Decoder_stream] in Hs; [discriminate Hs|].
  destruct iter as [|iter]; [lia|]. cbn [templateLoop].
  destruct (Decoder_Decode dec0) as [[raw|[|ln' msg']] dec1] eqn:Hdec.
  - destruct (Decoder_stream n dec1) as [es' stop] eqn:Hs'.
    inversion Hs; subst es stop. clear Hs.
    apply Forall_cons in Hall as [[Hu Hp] Hall].
    apply Decoder_Decode_consumes in Hdec.
    unfold substitute in Hu, Hp.
    destruct (Os.Expand (Name raw) _ _) as [name u1].
    destruct (Os.Expand (Body raw) _ _) as [body u2].
    cbn [fst snd Name] in *. subst u2. cbn [Str.isEmpty negb].
    destruct Hp as (Hdef & Hp). apply String.eqb_neq in Hdef as Hdef'.
    rewrite Hdef'.
    rewrite BodyFacts.expand_passes by (split; [exact Hdef|exact Hp]).
    apply (IH iter t cs args dec1 _ d es'); try assumption. lia.
  - inversion Hs.
  - inversion Hs; subst. reflexivity.
Qed.

Lemma expandFrom_plain {St : Type} (mapping : string -> St -> string * St)
    (s : string) (st : St) :
  Os.indexByte s "$" = None -> Os.expandFrom mapping O s st = (s, st).
Proof.
  induction s as [|c s IH]; intros H; [reflexivity|].
  cbn [Os.indexByte] in H. cbn [Os.expandFrom].
  destruct (Ascii.eqb c "$"); [discriminate H|]. cbn [andb].
  destruct (Os.indexByte s "$"); [discriminate H|].
  rewrite (IH eq_refl). reflexivity.
Qed.

End BodyErrors.

(** X24.  A syntax error in a template body: when the tokenizer stops in
    the body at a syntax error, and the expressions before it pass as
    in X23, the call fails with that error, located in the file of the
    definition at the line counted within the body; the expressions
    before it are dropped and the engine is left exactly as it was. *)
Theorem template_body_syntax_error
    (depth n : nat) (expr : Expanded) (d : ExpandingDecoder) (t : template)
    (es : list Expression) (ln : Z) (msg : string) :
  templateCall (defs d) (Name (Expr expr)) ->
  defs d !! Name (Expr expr) = Some t ->
  seen_ok (callStack d) ->
  Name (Expr expr) ∉ frameNames (callStack d) ->
  length (ParseArgs (Body (Expr expr)) (Z.of_nat (length (params t))))
  = length (params t) ->
  Decoder_stream n (NewDecoder (tbody t)) = (es, Some (SyntaxError ln msg)) ->
  Forall (fun raw =>
            snd (substitute t (ParseArgs (Body (Expr expr))
                                 (Z.of_nat (length (params t)))) raw)
            = EmptyString
            /\ passes (defs d)
                 (Name (fst (substitute t (ParseArgs (Body (Expr expr))
                                             (Z.of_nat (length (params t)))) raw))))
         es ->
  expand (S depth) expr d
  = (Err (ExpressionError
            {| Expr := {| Line := ln; Comment := ""; Name := ""; Body := "" |};
               File := File (decl t); Stack := [] |}
            (SyntaxMessage msg)), d).
Proof.
  intros (Hdef & Hinc & Hemp & t' & Ht' & Hbody) Ht Hok Hfresh Hcount Hs Hall.
  rewrite Ht in Ht'. inversion Ht'; subst t'. clear Ht'.
  cbn [expand]. rewrite Hdef, Hinc, Hemp, Ht, Hbody.
  unfold expandTemplate, framesCopy.
  set (cs := withStack expr (frames (callStack d))).
  assert (Hnone : seen (callStack d) !! Name (Expr cs) = None).
  { cbn [cs withStack Expr]. rewrite (Hok (Name (Expr expr))).
    destruct (decide _); [contradiction|reflexivity]. }
  pose proof (stack_pop_push (callStack d) cs Hnone) as Hpop.
  unfold stack_push in *. cbn [snd] in Hpop. rewrite Hnone. cbn [default negb].
  unfold expandTemplateBody. cbn [withStack Expr Body cs].
  set (args := ParseArgs (Body (Expr expr)) (Z.of_nat (length (params t)))) in *.
  rewrite Hcount, Nat.eqb_refl. cbn [negb].
  set (d1 := set_callStack d _).
  assert (Hf1 : frames (callStack d1) = frames (callStack d) ++ [cs]) by reflexivity.
  rewrite (BodyErrors.templateLoop_syntax_error depth n _ t _ args
             (NewDecoder (tbody t)) [] d1 es ln msg).
  - cbn [callStack set_callStack d1].
    cbn [cs withStack Expr Name] in Hpop. cbn [Name]. rewrite Hpop.
    destruct d; reflexivity.
  - cbn [NewDecoder r]. lia.
  - rewrite Hf1. destruct (frames (callStack d)); discriminate.
  - exact Hs.
  - exact Hall.
Qed.

Lemma template_body_syntax_error_witness :
  expand 1 Scenario.badCall Scenario.badEngine
  = (Err (ExpressionError
            {| Expr := {| Line := 1; Comment := ""; Name := ""; Body := "" |};
               File := File (decl Scenario.badTemplate); Stack := [] |}
            (SyntaxMessage unexpectedWhitespace)), Scenario.badEngine).
Proof.
  apply (template_body_syntax_error 0 2 Scenario.badCall Scenario.badEngine
           Scenario.badTemplate []).
  - split; [reflexivity|]. split; [reflexivity|]. split; [reflexivity|].
    exists Scenario.badTemplate. split; [vm_compute; reflexivity|reflexivity].
  - vm_compute. reflexivity.
  - apply seen_ok_empty.
  - intros H. inversion H.
  - reflexivity.
  - reflexivity.
  - constructor.
Defined.

(** X25.  Text without a dollar sign is left alone: the substitution of
    [expandTemplate] returns an expression whose name and body hold no
    [$] as it is, and reports no unknown parameter. *)
Theorem substitute_leaves_plain_text (t : template) (args : Args) (raw : Expression) :
  Os.indexByte (Name raw) "$" = None ->
  Os.indexByte (Body raw) "$" = None ->
  substitute t args raw = (raw, EmptyString).
Proof.
  intros Hn Hb. unfold substitute, Os.Expand.
  rewrite (BodyErrors.expandFrom_plain _ _ _ Hn), (BodyErrors.expandFrom_plain _ _ _ Hb).
  destruct raw; reflexivity.
Qed.

Lemma substitute_leaves_plain_text_witness :
  substitute Scenario.pairTemplate ["x"; "y"] Scenario.echoExpr
  = (Scenario.echoExpr, EmptyString).
Proof.
  apply (substitute_leaves_plain_text Scenario.pairTemplate ["x"; "y"]
           Scenario.echoExpr); reflexivity.
Defined.

(* ===================================================================== *)
(** * Recursion through a chain of templates *)
(* ===================================================================== *)

Module ChainFacts.

(** What the loop has expanded before it comes to [e] has left the
    call stack and the registry as they were. *)
Lemma bodyReaches_keeps (t : template) (args : Args) (dec : Decoder)
    (d : ExpandingDecoder) (e : Expanded) (de : ExpandingDecoder) :
  bodyReaches t args dec d e de ->
  seen_ok (callStack d) ->
  callStack de = callStack d /\ defs de = defs d.
Proof.
  induction 1 as [dec d raw dec' Hdec Hu Hdef
                 |dec d raw dec' depth res d1 e de Hdec Hu Hdef Hexp Hrest IH];
    intros Hok; [split; reflexivity|].
  destruct (expand_balanced depth _ d res d1 Hok Hexp) as [Hc Hd].
  destruct IH as [Hc' Hd']; [rewrite Hc; exact Hok|].
  split; [congruence|]. rewrite Hd'. apply Hd. exact Hdef.
Qed.

(** An error of the call the loop comes to is the outcome of the
    loop. *)
Lemma templateLoop_reaches (t : template) (args : Args) (cs : Expanded)
    (dec : Decoder) (d : ExpandingDecoder) (e : Expanded) (de : ExpandingDecoder)
    (x : error) (dx : ExpandingDecoder) :
  bodyReaches t args dec d e de ->
  (exists N : nat, forall depth : nat, (N <= depth)%nat ->
      expand depth e de = (Err x, dx)) ->
  exists N : nat, forall depth : nat, (N <= depth)%nat ->
    forall (iter : nat) (acc : list Expanded),
      (length (r dec) < iter)%nat ->
      templateLoop (expand depth) iter t cs args dec acc d = (Err x, dx).
Proof.
  induction 1 as [dec d raw dec' Hdec Hu Hdef
                 |dec d raw dec' depth0 res d1 e de Hdec Hu Hdef Hexp Hrest IH];
    intros [N HN].
  - exists N. intros depth Hd iter acc Hit. specialize (HN depth Hd).
    destruct iter as [|iter]; [lia|]. cbn [templateLoop]. rewrite Hdec.
    unfold emitted, substitute in HN. unfold substitute in Hu, Hdef.
    destruct (Os.Expand (Name raw) _ _) as [name u1].
    destruct (Os.Expand (Body raw) _ _) as [body u2].
    cbn [fst snd Name] in *. subst u2. cbn [Str.isEmpty negb].
    apply String.eqb_neq in Hdef. rewrite Hdef. rewrite HN. reflexivity.
  - destruct (IH (ex_intro _ N HN)) as [N1 HN1].
    exists (Nat.max depth0 N1). intros depth Hd iter acc Hit.
    destruct iter as [|iter]; [lia|]. cbn [templateLoop]. rewrite Hdec.
    apply Decoder_Decode_consumes in Hdec.
    apply (expand_mono depth0 depth) in Hexp; [|lia|discriminate].
    unfold emitted, substitute in Hexp. unfold substitute in Hu, Hdef.
    destruct (Os.Expand (Name raw) _ _) as [name u1].
    destruct (Os.Expand (Body raw) _ _) as [body u2].
    cbn [fst snd Name] in *. subst u2. cbn [Str.isEmpty negb].
    apply String.eqb_neq in Hdef. rewrite Hdef. rewrite Hexp.
    destruct res as [res|]; apply HN1; lia.
Qed.

(** The call of a template that is being expanded. *)
Lemma expand_active (d : ExpandingDecoder) (c : Expanded) (depth : nat) :
  stack_ok (callStack d) (defs d) ->
  Name (Expr c) ∈ frameNames (callStack d) ->
  expand (S depth) c d
  = (Err (recursionError (withStack c (frames (callStack d)))),
     set_callStack d
       (snd (stack_push (callStack d) (withStack c (frames (callStack d)))))).
Proof.
  intros Hok Hin.
  destruct (ok_called _ _ Hok _ Hin) as (Hdef & Hinc & Hblank & t & Ht & Hbody).
  cbn [expand]. rewrite Hdef, Hinc, Hblank, Ht, Hbody.
  unfold expandTemplate, framesCopy.
  set (cs := withStack c (frames (callStack d))).
  pose proof (stack_push_fst (callStack d) cs (ok_seen _ _ Hok)) as Hfst.
  destruct (stack_push (callStack d) cs) as [initial s] eqn:Hpush.
  cbn [fst] in Hfst. subst initial.
  rewrite (bool_decide_eq_true_2 _ Hin). cbn [negb snd].
  unfold stack_push in Hpush. inversion Hpush; subst s. reflexivity.
Qed.

(** The chain ends in the recursion error, which every call of the
    chain hands on to its caller. *)
Lemma expand_recurses (c : Expanded) (d : ExpandingDecoder) (cs : Expanded) :
  recurses c d cs ->
  stack_ok (callStack d) (defs d) ->
  exists (dx : ExpandingDecoder) (N : nat), forall depth : nat, (N <= depth)%nat ->
    expand depth c d = (Err (recursionError cs), dx).
Proof.
  induction 1 as [c d Hin|c d t c1 d1 cs Hcall Ht Hfresh Hargs Hbody Hrec IH];
    intros Hok.
  - eexists. exists 1%nat. intros depth Hd.
    destruct depth as [|depth]; [lia|]. apply expand_active; assumption.
  - set (c0 := withStack c (frames (callStack d))) in *.
    assert (Hfst : fst (stack_push (callStack d) c0) = true).
    { rewrite (stack_push_fst _ _ (ok_seen _ _ Hok)).
      cbn [c0 withStack Expr]. rewrite bool_decide_eq_false_2 by exact Hfresh.
      reflexivity. }
    set (dp := set_callStack d (snd (stack_push (callStack d) c0))) in *.
    assert (Hokp : stack_ok (callStack dp) (defs dp)).
    { cbn [dp set_callStack callStack defs].
      apply stack_ok_push; [exact Hok|exact Hcall|exact Hfst]. }
    destruct (bodyReaches_keeps _ _ _ _ _ _ Hbody (ok_seen _ _ Hokp)) as [Hc1 Hd1].
    destruct IH as (dx & N1 & HN1); [rewrite Hc1, Hd1; exact Hokp|].
    destruct (templateLoop_reaches t _ c0 _ _ _ _ _ dx Hbody
                (ex_intro _ N1 HN1)) as [N2 HN2].
    (* the frame the last call has left is there for the deferred pop *)
    assert (Hne : frames (callStack dx) <> []).
    { destruct (expand_safe N1 c1 d1 _ dx (HN1 N1 (Nat.le_refl _))) as [_ Hlen].
      rewrite Hc1 in Hlen. cbn [dp set_callStack callStack stack_push snd frames] in Hlen.
      rewrite List.length_app in Hlen. cbn [length] in Hlen.
      destruct (frames (callStack dx)); [cbn [length] in Hlen; lia|discriminate]. }
    destruct (stack_pop (callStack dx)) as [[top s]|] eqn:Hpop.
    2:{ unfold stack_pop in Hpop.
        destruct (List.rev (frames (callStack dx))) eqn:Hrev; [|discriminate Hpop].
        apply (f_equal (@List.rev _)) in Hrev. rewrite List.rev_involutive in Hrev.
        contradiction. }
    exists (set_callStack dx s), (S (Nat.max N1 N2)). intros depth Hd.
    destruct depth as [|depth]; [lia|].
    destruct Hcall as (Hdef & Hinc & Hblank & t' & Ht' & Hb).
    rewrite Ht in Ht'. inversion Ht'; subst t'. clear Ht'.
    cbn [expand]. rewrite Hdef, Hinc, Hblank, Ht, Hb.
    unfold expandTemplate, framesCopy. fold c0.
    destruct (stack_push (callStack d) c0) as [initial sp] eqn:Hpush.
    cbn [fst] in Hfst. subst initial. cbn [negb snd] in *. fold dp.
    unfold expandTemplateBody. cbn [c0 withStack Expr Body].
    rewrite Hargs, Nat.eqb_refl. cbn [negb].
    rewrite (HN2 depth) by (cbn [NewDecoder r]; lia).
    rewrite Hpop. reflexivity.
Qed.

(** [expand] never removes or replaces a template. *)
Lemma expand_grows (depth : nat) (e : Expanded) (d : ExpandingDecoder)
    (res : result error (option Expanded)) (d' : ExpandingDecoder) :
  expand depth e d = (res, d') -> defs d ⊆ defs d'.
Proof.
  apply (expand_R (fun a b => defs a ⊆ defs b)).
  - intros a. reflexivity.
  - intros a b c Hab Hbc. etransitivity; eauto.
  - intros a s. reflexivity.
  - intros a l. reflexivity.
  - intros e0 a r b H. apply expandInclude_preserves in H as [_ ->]. reflexivity.
  - intros e0 a r b H. eapply define_grows; exact H.
Qed.

(** What [Decode] reads before the call leaves the call stack empty
    and removes no template. *)
Lemma readsCall_keeps (n : nat) (d : ExpandingDecoder) (c : Expanded)
    (dc : ExpandingDecoder) :
  readsCall n d c dc ->
  callStack d = {| frames := []; seen := ∅ |} ->
  callStack dc = {| frames := []; seen := ∅ |} /\ defs d ⊆ defs dc.
Proof.
  induction 1 as [d ds fr raw dec' Hp Hds Hdec
                 |n d ds fr raw dec' depth d1 c dc Hp Hds Hdec Hexp Hrest IH
                 |n d ds fr dec' c dc Hp Hds Hdec Hrest IH]; intros Hc.
  - split; [exact Hc|reflexivity].
  - pose proof (expand_grows _ _ _ _ _ Hexp) as Hsub.
    apply expand_balanced in Hexp as [Hc1 _];
      [|cbn [set_decoderStack callStack]; rewrite Hc; apply seen_ok_empty].
    destruct IH as [Hcc Hdd]; [rewrite Hc1; exact Hc|].
    split; [exact Hcc|]. etransitivity; [exact Hsub|exact Hdd].
  - destruct IH as [Hcc Hdd].
    { unfold popInclude. destruct (includeStack _); exact Hc. }
    split; [exact Hcc|]. etransitivity; [|exact Hdd].
    unfold popInclude. destruct (includeStack _); reflexivity.
Qed.

(** With a budget above the number of templates, [expand] gives the
    outcome it gives with any budget that is enough. *)
Lemma expand_within (depth depth0 : nat) (e : Expanded) (d : ExpandingDecoder)
    (res : result error (option Expanded)) (d' : ExpandingDecoder) :
  stack_ok (callStack d) (defs d) ->
  (inactive d < depth)%nat ->
  expand depth0 e d = (res, d') -> res <> OutOfFuel ->
  expand depth e d = (res, d').
Proof.
  intros Hok Hdepth Hexp Hres.
  pose proof (expand_returns depth e d Hok Hdepth) as Hret.
  destruct (expand depth e d) as [res1 d1] eqn:H1. cbn [fst] in Hret.
  apply (expand_mono depth (Nat.max depth depth0)) in H1; [|lia|exact Hret].
  apply (expand_mono depth0 (Nat.max depth depth0)) in Hexp; [|lia|exact Hres].
  congruence.
Qed.

(** An error of the call [Decode] comes to is what [Decode] returns
    and keeps. *)
Lemma decodeExpanded_readsCall (n : nat) (d : ExpandingDecoder) (c : Expanded)
    (dc : ExpandingDecoder) (x : error) (dx : ExpandingDecoder) :
  readsCall n d c dc ->
  callStack d = {| frames := []; seen := ∅ |} ->
  forall depth iter : nat,
    (n < iter)%nat -> (size (defs dc) < depth)%nat ->
    expand depth c dc = (Err x, dx) ->
    decodeExpanded depth iter d = (Err x, set_err dx (Some x)).
Proof.
  induction 1 as [d ds fr raw dec' Hp Hds Hdec
                 |n d ds fr raw dec' depth0 d1 c dc Hp Hds Hdec Hexp Hrest IH
                 |n d ds fr dec' c dc Hp Hds Hdec Hrest IH];
    intros Hc depth iter Hi Hd Hx.
  - destruct iter as [|iter]; [lia|]. cbn [decodeExpanded].
    rewrite Hp, Hds, List.rev_app_distr. cbn [List.rev app]. rewrite Hdec.
    rewrite <- Hds.
    change (filePath (set_decoderStack d (updateTop (decoderStack d) dec')) (file fr))
      with (filePath d (file fr)).
    rewrite Hx. reflexivity.
  - destruct iter as [|iter]; [lia|]. cbn [decodeExpanded].
    rewrite Hp, Hds, List.rev_app_distr. cbn [List.rev app]. rewrite Hdec.
    rewrite <- Hds.
    change (filePath (set_decoderStack d (updateTop (decoderStack d) dec')) (file fr))
      with (filePath d (file fr)).
    pose proof (expand_grows _ _ _ _ _ Hexp) as Hsub.
    pose proof Hexp as Hbal.
    apply expand_balanced in Hbal as [Hc1 _];
      [|cbn [set_decoderStack callStack]; rewrite Hc; apply seen_ok_empty].
    cbn [set_decoderStack callStack] in Hc1. rewrite Hc in Hc1.
    destruct (readsCall_keeps _ _ _ _ Hrest Hc1) as [_ Hdd].
    apply (expand_within depth) in Hexp; [| | |discriminate].
    + rewrite Hexp. apply IH; [exact Hc1|lia|exact Hd|exact Hx].
    + cbn [set_decoderStack callStack defs]. rewrite Hc. apply stack_ok_empty.
    + unfold inactive. cbn [set_decoderStack callStack defs]. rewrite Hc.
      cbn [frames length].
      apply map_subseteq_size in Hsub, Hdd.
      cbn [set_decoderStack defs] in Hsub. lia.
  - destruct iter as [|iter]; [lia|]. cbn [decodeExpanded].
    rewrite Hp, Hds, List.rev_app_distr. cbn [List.rev app]. rewrite Hdec.
    rewrite <- Hds. apply IH; [|lia|exact Hd|exact Hx].
    unfold popInclude. destruct (includeStack _); exact Hc.
Qed.

(** The first constructors, for a call and an engine that are given. *)
Lemma reads_call_at (d : ExpandingDecoder) (ds : list decoderFrame)
    (fr : decoderFrame) (raw : Expression) (dec' : Decoder) (c : Expanded)
    (dc : ExpandingDecoder) :
  pending d = [] ->
  decoderStack d = ds ++ [fr] ->
  Decoder_Decode (dec fr) = (inl raw, dec') ->
  c = {| Expr := raw; File := filePath d (file fr); Stack := [] |} ->
  dc = set_decoderStack d (updateTop (decoderStack d) dec') ->
  readsCall 0 d c dc.
Proof. intros Hp Hds Hdec -> ->. exact (reads_call d ds fr raw dec' Hp Hds Hdec). Qed.

Lemma recurses_active_at (c : Expanded) (d : ExpandingDecoder) (cs : Expanded) :
  Name (Expr c) ∈ frameNames (callStack d) ->
  cs = withStack c (frames (callStack d)) ->
  recurses c d cs.
Proof. intros Hin ->. exact (recurses_active c d Hin). Qed.

Lemma recurses_names (c : Expanded) (d : ExpandingDecoder) (cs : Expanded) :
  recurses c d cs ->
  Name (Expr cs) ∈ (fun e : Expanded => Name (Expr e)) <$> Stack cs.
Proof.
  induction 1 as [c d Hin|c d t c1 d1 cs Hcall Ht Hfresh Hargs Hbody Hrec IH];
    [exact Hin|exact IH].
Qed.

End ChainFacts.

(** C1.  A script in which a template calls itself, directly or
    through any number of other templates, makes [Decode] return the
    recursion error.  Let a call of [Decode] on an engine without
    error and with an empty call stack read its way, in [n] turns of
    its loop, to the expression [c] ([readsCall]), and let the
    expansion of [c] come, through a chain of calls of templates that
    are not being expanded, to the call [cs] of a template that is
    being expanded ([recurses]: the first template of the chain
    called again, or any other template on it).  Then [Decode], with
    any budget above [n] and above the number of registered
    templates, returns the recursion error of [expandTemplate] for
    [cs] and no expression: the call is not expanded, and every call
    of the chain hands the error on.  Every later call of [Decode]
    returns that error again, so the script produces nothing more.
    The same budget is enough however long the chain is, and the
    template rejected is one of those that the error lists as
    active. *)
Theorem recursion_is_rejected (n : nat) (d : ExpandingDecoder) (c : Expanded)
    (dc : ExpandingDecoder) (cs : Expanded) :
  err d = None ->
  callStack d = {| frames := []; seen := ∅ |} ->
  readsCall n d c dc ->
  recurses c dc cs ->
  exists d' : ExpandingDecoder,
    (forall fuel : nat, (n < fuel)%nat -> (size (defs dc) < fuel)%nat ->
       Decode fuel d = (Err (recursionError cs), d'))
    /\ (forall fuel : nat, Decode fuel d' = (Err (recursionError cs), d'))
    /\ (forall depth : nat, (size (defs dc) < depth)%nat ->
          fst (expand depth c dc) = Err (recursionError cs))
    /\ Name (Expr cs) ∈ (fun e : Expanded => Name (Expr e)) <$> Stack cs.
Proof.
  intros Herr Hstack Hreads Hrec.
  destruct (ChainFacts.readsCall_keeps n d c dc Hreads Hstack) as [Hdc _].
  assert (Hok : stack_ok (callStack dc) (defs dc))
    by (rewrite Hdc; apply stack_ok_empty).
  destruct (ChainFacts.expand_recurses c dc cs Hrec Hok) as (dx & N & HN).
  assert (Hall : forall depth : nat, (size (defs dc) < depth)%nat ->
                   expand depth c dc = (Err (recursionError cs), dx)).
  { intros depth Hdepth.
    apply (ChainFacts.expand_within depth N); [exact Hok| |apply HN; lia|discriminate].
    unfold inactive. rewrite Hdc. cbn [frames length]. lia. }
  exists (set_err dx (Some (recursionError cs))).
  split; [|split; [|split]].
  - intros fuel Hn Hfuel. unfold Decode. rewrite Herr.
    apply (ChainFacts.decodeExpanded_readsCall n d c dc); auto.
  - intros fuel. reflexivity.
  - intros depth Hdepth. rewrite (Hall depth Hdepth). reflexivity.
  - exact (ChainFacts.recurses_names c dc cs Hrec).
Qed.

Lemma recursion_is_rejected_witness :
  readsCall 3 Scenario.circleEngine Scenario.circleCall Scenario.circleCalled
  /\ recurses Scenario.circleCall Scenario.circleCalled Scenario.circleRejected
  /\ exists d' : ExpandingDecoder,
       (forall fuel : nat,
          (3 < fuel)%nat -> (size (defs Scenario.circleCalled) < fuel)%nat ->
          Decode fuel Scenario.circleEngine
          = (Err (recursionError Scenario.circleRejected), d'))
       /\ (forall fuel : nat,
             Decode fuel d' = (Err (recursionError Scenario.circleRejected), d'))
       /\ (forall depth : nat, (size (defs Scenario.circleCalled) < depth)%nat ->
             fst (expand depth Scenario.circleCall Scenario.circleCalled)
             = Err (recursionError Scenario.circleRejected))
       /\ Name (Expr Scenario.circleRejected)
          ∈ (fun e : Expanded => Name (Expr e)) <$> Stack Scenario.circleRejected.
Proof.
  assert (Hreads : readsCall 3 Scenario.circleEngine Scenario.circleCall
                     Scenario.circleCalled).
  { (* the three definitions, then the call *)
    eapply (reads_nothing _ _ [] _ _ _ 0%nat);
      [reflexivity|reflexivity|vm_compute; reflexivity|vm_compute; reflexivity|].
    eapply (reads_nothing _ _ [] _ _ _ 0%nat);
      [reflexivity|reflexivity|vm_compute; reflexivity|vm_compute; reflexivity|].
    eapply (reads_nothing _ _ [] _ _ _ 0%nat);
      [reflexivity|reflexivity|vm_compute; reflexivity|vm_compute; reflexivity|].
    eapply (ChainFacts.reads_call_at _ []);
      [reflexivity|reflexivity|vm_compute; reflexivity
      |vm_compute; reflexivity|vm_compute; reflexivity]. }
  assert (Hrec : recurses Scenario.circleCall Scenario.circleCalled
                   Scenario.circleRejected).
  { (* [a] calls [b] *)
    eapply recurses_through.
    { split; [reflexivity|]. split; [reflexivity|]. split; [reflexivity|].
      eexists. split; [vm_compute; reflexivity|reflexivity]. }
    { vm_compute. reflexivity. }
    { intros H. inversion H. }
    { vm_compute. reflexivity. }
    { eapply body_here;
        [vm_compute; reflexivity|vm_compute; reflexivity|vm_compute; discriminate]. }
    (* [b] calls [c] *)
    eapply recurses_through.
    { split; [reflexivity|]. split; [reflexivity|]. split; [reflexivity|].
      eexists. split; [vm_compute; reflexivity|reflexivity]. }
    { vm_compute. reflexivity. }
    { vm_compute. intros H. repeat (apply elem_of_cons in H as [H|H]; [discriminate H|]).
      inversion H. }
    { vm_compute. reflexivity. }
    { eapply body_here;
        [vm_compute; reflexivity|vm_compute; reflexivity|vm_compute; discriminate]. }
    (* [c] echoes, then calls [a] *)
    eapply recurses_through.
    { split; [reflexivity|]. split; [reflexivity|]. split; [reflexivity|].
      eexists. split; [vm_compute; reflexivity|reflexivity]. }
    { vm_compute. reflexivity. }
    { vm_compute. intros H. repeat (apply elem_of_cons in H as [H|H]; [discriminate H|]).
      inversion H. }
    { vm_compute. reflexivity. }
    { eapply body_later with (depth := 0%nat);
        [vm_compute; reflexivity|vm_compute; reflexivity|vm_compute; discriminate
        |vm_compute; reflexivity|].
      eapply body_here;
        [vm_compute; reflexivity|vm_compute; reflexivity|vm_compute; discriminate]. }
    (* [a] is being expanded *)
    apply ChainFacts.recurses_active_at; [|vm_compute; reflexivity].
    apply list_elem_of_In. vm_compute. left. reflexivity. }
  split; [exact Hreads|]. split; [exact Hrec|].
  exact (recursion_is_rejected 3 Scenario.circleEngine Scenario.circleCall
           Scenario.circleCalled Scenario.circleRejected eq_refl eq_refl
           Hreads Hrec).
Defined.

(* ===================================================================== *)
(** * A script read alone *)
(* ===================================================================== *)

Module AloneFacts.

Lemma expandInclude_closed (e : Expanded) (d : ExpandingDecoder)
    (res : result error (option Expanded)) (d' : ExpandingDecoder) :
  expandInclude e d = (res, d') -> closed d ->
  decoderStack d' = decoderStack d /\ includeStack d' = includeStack d
  /\ fsys d' = fsys d.
Proof.
  unfold expandInclude. intros H Hclosed.
  destruct (Args_At _ 0) as [p|]; [|inversion H; subst; auto].
  destruct (Str.isEmpty p); [inversion H; subst; auto|].
  destruct (Str.Contains p "/"); [inversion H; subst; auto|].
  destruct (Str.HasSuffix p ".linebased"); [inversion H; subst; auto|].
  destruct (IncludeFacts.pushInclude_spec d (p +:+ ".linebased"))
    as [(Hf & Hin & Hs)|(Hf & Hnin & Hs)];
    pose proof (IncludeFacts.pushInclude_pop d (p +:+ ".linebased")) as Hpop;
    destruct (pushInclude d _) as [pushed d1]; cbn [fst snd] in *; subst pushed.
  - inversion H; subst. auto.
  - cbn [negb] in H. destruct (Hclosed _ Hnin) as [msg Hmsg].
    assert (Hfs : fsys d1 (p +:+ ".linebased") = inr msg) by (subst d1; exact Hmsg).
    rewrite Hfs in H. inversion H; subst res d'. rewrite (Hpop eq_refl). auto.
Qed.

(** While nothing can be opened, [expand] leaves the two stacks of
    files alone. *)
Lemma expand_closed (depth : nat) (e : Expanded) (d : ExpandingDecoder)
    (res : result error (option Expanded)) (d' : ExpandingDecoder) :
  expand depth e d = (res, d') -> closed d ->
  decoderStack d' = decoderStack d /\ includeStack d' = includeStack d
  /\ fsys d' = fsys d.
Proof.
  apply (expand_R (fun a b => closed a ->
                              decoderStack b = decoderStack a
                              /\ includeStack b = includeStack a
                              /\ fsys b = fsys a)).
  - auto.
  - intros a b c Hab Hbc Ha. destruct (Hab Ha) as (H1 & H2 & H3).
    destruct Hbc as (H4 & H5 & H6).
    { intros f Hf. rewrite H2 in Hf. rewrite H3. apply Ha. exact Hf. }
    repeat split; congruence.
  - auto.
  - auto.
  - intros e0 a r b H. eapply expandInclude_closed; exact H.
  - intros e0 a r b H _. unfold define in H.
    destruct (makeTemplate e0) as [t| | |]; try destruct (defs a !! tname t);
      inversion H; subst; auto.
Qed.

End AloneFacts.

Module AloneLoop.

Lemma define_size (d : ExpandingDecoder) (e : Expanded)
    (res : result Cause unit) (d' : ExpandingDecoder) :
  define d e = (res, d') -> (size (defs d') <= S (size (defs d)))%nat.
Proof.
  unfold define. intros H.
  destruct (makeTemplate e) as [t| | |]; try (inversion H; subst; lia).
  destruct (defs d !! tname t) eqn:E; inversion H; subst; [lia|].
  cbn [defs set_defs]. rewrite map_size_insert, E. lia.
Qed.

Lemma expand_size (depth : nat) (e : Expanded) (d : ExpandingDecoder)
    (res : option Expanded) (d' : ExpandingDecoder) :
  seen_ok (callStack d) ->
  expand depth e d = (Ok res, d') ->
  (size (defs d') <= S (size (defs d)))%nat.
Proof.
  intros Hok H.
  destruct (String.eqb (Name (Expr e)) "define") eqn:Hdef.
  - assert (H' : match define d e with
                 | (Ok _, d) => (Ok None, d)
                 | (Err c, d) => (Err (ExpressionError e c), d)
                 | (Panic, d) => (Panic, d)
                 | (OutOfFuel, d) => (OutOfFuel, d)
                 end = (Ok res, d'))
      by (destruct depth; simpl in H; rewrite Hdef in H; exact H).
    destruct (define d e) as [[u|c| |] d1] eqn:Hdefine; inversion H'; subst.
    eapply define_size; exact Hdefine.
  - apply String.eqb_neq in Hdef.
    destruct (expand_balanced _ _ _ _ _ Hok H) as [_ Hd]. rewrite (Hd Hdef). lia.
Qed.

Lemma updateTop_single (fr : decoderFrame) (dec' : Decoder) :
  updateTop [fr] dec' = [ {| dec := dec'; file := file fr |} ].
Proof. reflexivity. Qed.

(** One call of [Decode] on a script read alone: with a budget above
    the lines of the script it returns, and the engine is as before. *)
Lemma decodeExpanded_alone (L depth : nat) (iter : nat) :
  forall d : ExpandingDecoder,
    reads_alone L d -> (L < depth)%nat -> (unread d + 1 < iter)%nat ->
    match decodeExpanded depth iter d with
    | (Ok _, d') => reads_alone L d'
    | (Err _, _) => True
    | (Panic, _) => False
    | (OutOfFuel, _) => False
    end.
Proof.
  induction iter as [|iter IH]; intros d Halone Hdepth Hiter; [lia|].
  cbn [decodeExpanded].
  destruct Halone as (Hclosed & Hcs & Hstack).
  destruct (pending d) as [|x rest] eqn:Hpend.
  2:{ split; [exact Hclosed|]. split; [exact Hcs|exact Hstack]. }
  destruct Hstack as [[Hds His]|(fr & Hds & His & Hsize)].
  { rewrite Hds. exact I. }
  rewrite Hds. cbn [List.rev app].
  assert (Hun : unread d = length (r (dec fr))) by (unfold unread; rewrite Hds; reflexivity).
  destruct (Decoder_Decode (dec fr)) as [[raw|[|ln msg]] dec'] eqn:Hdec.
  - apply Decoder_Decode_consumes in Hdec.
    rewrite updateTop_single.
    set (d1 := set_decoderStack d _).
    set (expr := {| Expr := raw; File := _; Stack := [] |}).
    assert (Hok1 : seen_ok (callStack d1)) by (cbn; rewrite Hcs; apply seen_ok_empty).
    assert (Hsok : stack_ok (callStack d1) (defs d1))
      by (cbn; rewrite Hcs; apply stack_ok_empty).
    assert (Hclosed1 : closed d1) by exact Hclosed.
    pose proof (expand_returns depth expr d1 Hsok) as Hret.
    destruct (expand depth expr d1) as [res1 d2] eqn:Hexp.
    pose proof (expand_safe _ _ _ _ _ Hexp) as [Hnp _].
    destruct (AloneFacts.expand_closed _ _ _ _ _ Hexp Hclosed1) as (Hd2 & Hi2 & Hf2).
    cbn [fst] in Hret.
    assert (Hin : (inactive d1 < depth)%nat).
    { unfold inactive. cbn [defs callStack d1 set_decoderStack]. rewrite Hcs.
      cbn [frames length]. lia. }
    specialize (Hret Hin).
    destruct res1 as [[r1|]|e1| |]; try exact I; try contradiction.
    + pose proof (expand_size _ _ _ _ _ Hok1 Hexp) as Hsz.
      destruct (expand_balanced _ _ _ _ _ Hok1 Hexp) as [Hc2 _].
      split; [|split].
      * intros f Hf. rewrite Hf2. apply Hclosed1. rewrite <- Hi2. exact Hf.
      * rewrite Hc2. exact Hcs.
      * right. exists {| dec := dec'; file := file fr |}.
        rewrite Hd2, Hi2. cbn [decoderStack includeStack d1 set_decoderStack dec file].
        split; [reflexivity|]. split; [exact His|].
        cbn [defs d1 set_decoderStack] in Hsz. lia.
    + pose proof (expand_size _ _ _ _ _ Hok1 Hexp) as Hsz.
      destruct (expand_balanced _ _ _ _ _ Hok1 Hexp) as [Hc2 _].
      apply IH; [|exact Hdepth|].
      * split; [|split].
        -- intros f Hf. rewrite Hf2. apply Hclosed1. rewrite <- Hi2. exact Hf.
        -- rewrite Hc2. exact Hcs.
        -- right. exists {| dec := dec'; file := file fr |}.
           rewrite Hd2, Hi2. cbn [decoderStack includeStack d1 set_decoderStack dec file].
           split; [reflexivity|]. split; [exact His|].
           cbn [defs d1 set_decoderStack] in Hsz. lia.
      * unfold unread. rewrite Hd2. cbn [decoderStack d1 set_decoderStack dec]. lia.
  - rewrite IncludeFacts.popInclude_eq.
    destruct iter as [|iter]; [lia|]. cbn [decodeExpanded].
    cbn [pending set_includeStack set_decoderStack decoderStack
         List.removelast List.rev].
    rewrite Hpend. exact I.
  - exact I.
Qed.

Lemma Decode_alone (L fuel : nat) (d : ExpandingDecoder) :
  reads_alone L d -> (L + 1 < fuel)%nat ->
  match Decode fuel d with
  | (Ok _, d') => reads_alone L d'
  | (Err _, _) => True
  | (Panic, _) => False
  | (OutOfFuel, _) => False
  end.
Proof.
  intros Halone Hfuel. unfold Decode. destruct (err d); [exact I|].
  apply decodeExpanded_alone; [exact Halone|lia|].
  destruct Halone as (_ & _ & [[Hds _]|(fr & Hds & _ & Hsize)]);
    unfold unread; rewrite Hds; lia.
Qed.

Lemma Expanding_stream_alone (L fuel : nat) (n : nat) :
  forall d : ExpandingDecoder,
    reads_alone L d -> (L + 1 < fuel)%nat ->
    snd (Expanding_stream n fuel d) <> Some OutOfFuel
    /\ snd (Expanding_stream n fuel d) <> Some Panic.
Proof.
  induction n as [|n IH]; intros d Halone Hfuel; cbn [Expanding_stream];
    [split; discriminate|].
  pose proof (Decode_alone L fuel d Halone Hfuel) as H.
  destruct (Decode fuel d) as [[e|e| |] d']; try contradiction.
  - destruct (IH d' H Hfuel) as [H1 H2].
    destruct (Expanding_stream n fuel d') as [es stop]. exact (conj H1 H2).
  - split; discriminate.
Qed.

End AloneLoop.

(** X26.  A script read alone: when the file system opens no file but the
    script, a read loop over [Decode] with a budget of more than the
    lines of the script plus one never uses the budget up and never
    panics, so every call returns an expression or an error. *)
Theorem single_file_read_loop_returns
    (name input root : string) (fs : FS) (n fuel : nat) :
  fs name = inl input ->
  (forall f : string, f <> name -> exists msg : string, fs f = inr msg) ->
  (length (lines_of input) + 1 < fuel)%nat ->
  snd (Expanding_stream n fuel (SetRoot (NewExpandingDecoder name fs) root))
  <> Some OutOfFuel
  /\ snd (Expanding_stream n fuel (SetRoot (NewExpandingDecoder name fs) root))
     <> Some Panic.
Proof.
  intros Hfs Hothers Hfuel.
  apply (AloneLoop.Expanding_stream_alone (length (lines_of input))); [|exact Hfuel].
  unfold NewExpandingDecoder, SetRoot. rewrite Hfs. split; [|split].
  - intros f Hf. cbn in Hf |- *. apply Hothers. intros ->. apply Hf. left.
  - reflexivity.
  - right. exists {| dec := NewDecoder input; file := name |}.
    split; [reflexivity|]. split; [reflexivity|].
    change (size (∅ : gmap string template) + length (lines_of input)
            <= length (lines_of input))%nat.
    rewrite map_size_empty. lia.
Qed.

Lemma single_file_read_loop_returns_witness :
  snd (Expanding_stream 9 8
         (SetRoot (NewExpandingDecoder "main.lb"
                     (MapFS [("main.lb", Scenario.exampleScript)])) ""))
  <> Some OutOfFuel
  /\ snd (Expanding_stream 9 8
            (SetRoot (NewExpandingDecoder "main.lb"
                        (MapFS [("main.lb", Scenario.exampleScript)])) ""))
     <> Some Panic.
Proof.
  apply (single_file_read_loop_returns "main.lb" Scenario.exampleScript ""
           (MapFS [("main.lb", Scenario.exampleScript)]) 9 8).
  - reflexivity.
  - intros f Hf. unfold MapFS. cbn [List.find fst snd].
    destruct (String.eqb_spec "main.lb" f) as [E|E]; [congruence|]. eauto.
  - vm_compute. lia.
Defined.

(* ===================================================================== *)
(** * Text checks *)
(* ===================================================================== *)

Module CheckFacts.
Import Str StrFacts.

Lemma app_not_empty_r (a b : string) : b <> EmptyString -> a +:+ b <> EmptyString.
Proof.
  intros Hb H. destruct a; [rewrite app_nil_l in H; contradiction|].
  rewrite app_cons in H. discriminate H.
Qed.

Lemma app_not_empty_l (a b : string) : a <> EmptyString -> a +:+ b <> EmptyString.
Proof.
  intros Ha H. destruct a; [contradiction Ha; reflexivity|].
  rewrite app_cons in H. discriminate H.
Qed.

Lemma prefix_app (p s : string) :
  String.prefix p s = true <-> exists b : string, s = p +:+ b.
Proof.
  revert s. induction p as [|a p IH]; intros s.
  - split; [intros _; exists s; reflexivity|intros _; destruct s; reflexivity].
  - destruct s as [|c s]; cbn [String.prefix].
    + split; [discriminate|intros [b Hb]; rewrite app_cons in Hb; discriminate Hb].
    + destruct (ascii_dec a c) as [->|Hne].
      * rewrite IH. split; intros [b Hb]; exists b.
        -- rewrite app_cons, Hb. reflexivity.
        -- rewrite app_cons in Hb. inversion Hb. reflexivity.
      * split; [discriminate|].
        intros [b Hb]. rewrite app_cons in Hb. inversion Hb. congruence.
Qed.

(** [strings.Contains] is the substring relation. *)
Lemma Contains_spec (s sub : string) :
  Contains s sub = true <-> exists a b : string, s = a +:+ sub +:+ b.
Proof.
  induction s as [|c s IH].
  - cbn [Contains]. rewrite orb_false_r, prefix_app. split.
    + intros [b Hb]. exists "", b. exact Hb.
    + intros (a & b & H). destruct a; [exists b; exact H|].
      rewrite app_cons in H. discriminate H.
  - cbn [Contains]. rewrite orb_true_iff, prefix_app, IH. split.
    + intros [[b Hb]|(a & b & Hab)].
      * exists "", b. exact Hb.
      * exists (String c a), b. rewrite app_cons, Hab. reflexivity.
    + intros (a & b & H). destruct a as [|x a].
      * left. exists b. exact H.
      * right. rewrite app_cons in H. inversion H. exists a, b. reflexivity.
Qed.

End CheckFacts.

Section CheckTextFacts.

Variable regexp_Compile : string -> option string.
Variable regexp_Match : string -> string -> bool.
Variable Quote : string -> string.
Variable QuoteAlt : string -> string.

Let check := CheckText regexp_Compile regexp_Match Quote QuoteAlt.

Lemma message_not_empty (what sep rest : string) :
  sep <> EmptyString -> what +:+ sep +:+ rest <> EmptyString.
Proof.
  intros Hsep. apply CheckFacts.app_not_empty_r, CheckFacts.app_not_empty_l. exact Hsep.
Qed.

Lemma CheckText_plain (what op got want : string) :
  want <> EmptyString ->
  String.eqb op "~" = false -> String.eqb op "!~" = false ->
  check what op got want
  = if String.eqb op "==" then
      if negb (String.eqb got want)
      then (what +:+ " = " +:+ QuoteAlt got +:+ ", want " +:+ QuoteAlt want, true)
      else (EmptyString, true)
    else if String.eqb op "!=" then
      if String.eqb got want
      then (what +:+ " == " +:+ QuoteAlt want +:+ " (but should not)", true)
      else (EmptyString, true)
    else if String.eqb op "contains" then
      if negb (Str.Contains got want)
      then (what +:+ " does not contain " +:+ QuoteAlt want
                 +:+ " (but should)" +:+ shown got, true)
      else (EmptyString, true)
    else if String.eqb op "!contains" then
      if Str.Contains got want
      then (what +:+ " contains " +:+ QuoteAlt want
                 +:+ " (but should not)" +:+ shown got, true)
      else (EmptyString, true)
    else ("unknown operator " +:+ Quote op, false).
Proof.
  intros Hwant H1 H2. unfold check, CheckText. rewrite H1, H2. cbn [orb].
  destruct want; [contradiction Hwant; reflexivity|]. cbn [Str.isEmpty].
  reflexivity.
Qed.

Lemma CheckText_regex (what op got want : string) :
  regexp_Compile want = None ->
  String.eqb op "~" || String.eqb op "!~" = true ->
  check what op got want
  = if String.eqb op "~" then
      if negb (regexp_Match want got)
      then (what +:+ " does not match " +:+ QuoteAlt want
                 +:+ " (but should)" +:+ shown got, true)
      else (EmptyString, true)
    else
      if regexp_Match want got
      then (what +:+ " matches " +:+ QuoteAlt want
                 +:+ " (but should not)" +:+ shown got, true)
      else (EmptyString, true).
Proof.
  intros Hc Hop. unfold check, CheckText. rewrite Hop, Hc.
  apply orb_true_iff in Hop as [Hop|Hop];
    apply String.eqb_eq in Hop; subst op; reflexivity.
Qed.

End CheckTextFacts.

Lemma pass_iff (msg : string) (b : bool) :
  msg <> EmptyString ->
  (if b then (msg, true) else (EmptyString, true)) = (EmptyString, true)
  <-> b = false.
Proof.
  intros Hmsg. destruct b; split; try reflexivity; try discriminate.
  intros H. inversion H. contradiction.
Qed.

Lemma pass_snd (msg : string) (b : bool) :
  snd (if b then (msg, true) else (EmptyString, true)) = true.
Proof. destruct b; reflexivity. Qed.

(** X27.  The verdict of [CheckText].  With a [want] that is not empty,
    [==], [!=], [contains] and [!contains] are valid checks, and the
    result is the empty message exactly when [got] equals [want],
    differs from it, holds it as a substring, or does not.  With a
    pattern that compiles, [~] and [!~] are valid checks and the
    result is the empty message exactly when the pattern matches
    [got], or does not. *)
Theorem CheckText_verdict
    (regexp_Compile : string -> option string)
    (regexp_Match : string -> string -> bool)
    (Quote QuoteAlt : string -> string) (what got want : string) :
  let check := CheckText regexp_Compile regexp_Match Quote QuoteAlt what in
  (want <> EmptyString ->
   (check "==" got want = (EmptyString, true) <-> got = want)
   /\ (check "!=" got want = (EmptyString, true) <-> got <> want)
   /\ (check "contains" got want = (EmptyString, true)
       <-> exists a b : string, got = a +:+ want +:+ b)
   /\ (check "!contains" got want = (EmptyString, true)
       <-> ~ exists a b : string, got = a +:+ want +:+ b)
   /\ Forall (fun op => snd (check op got want) = true)
             ["=="; "!="; "contains"; "!contains"])
  /\ (regexp_Compile want = None ->
      (check "~" got want = (EmptyString, true) <-> regexp_Match want got = true)
      /\ (check "!~" got want = (EmptyString, true)
          <-> regexp_Match want got = false)
      /\ snd (check "~" got want) = true /\ snd (check "!~" got want) = true).
Proof.
  cbv zeta. split.
  - intros Hwant.
    rewrite !(CheckText_plain _ _ _ _ _ _ _ _ Hwant) by reflexivity.
    cbn [String.eqb Ascii.eqb Bool.eqb andb].
    rewrite <- CheckFacts.Contains_spec.
    split; [|split; [|split; [|split]]].
    + rewrite pass_iff by (apply message_not_empty; discriminate).
      rewrite negb_false_iff. apply String.eqb_eq.
    + rewrite pass_iff by (apply message_not_empty; discriminate).
      apply String.eqb_neq.
    + rewrite pass_iff by (apply message_not_empty; discriminate).
      apply negb_false_iff.
    + rewrite pass_iff by (apply message_not_empty; discriminate).
      symmetry. apply not_true_iff_false.
    + repeat (constructor;
                [cbv beta;
                 rewrite (CheckText_plain _ _ _ _ _ _ _ _ Hwant) by reflexivity;
                 cbn [String.eqb Ascii.eqb Bool.eqb andb]; apply pass_snd|]).
      constructor.
  - intros Hc.
    rewrite !(CheckText_regex _ _ _ _ _ _ _ _ Hc) by reflexivity.
    cbn [String.eqb Ascii.eqb Bool.eqb andb].
    split; [|split; [|split]].
    + rewrite pass_iff by (apply message_not_empty; discriminate).
      apply negb_false_iff.
    + rewrite pass_iff by (apply message_not_empty; discriminate). reflexivity.
    + apply pass_snd.
    + apply pass_snd.
Qed.

(** X28.  The checks that are themselves in error: [CheckText] reports a
    valid check exactly for [~] and [!~] with a pattern that compiles
    and for [==], [!=], [contains] and [!contains] with a [want] that
    is not empty.  For every other call (an unknown operator, an empty
    [want], a pattern that does not compile) the check is not valid,
    and its message is not empty. *)
Theorem CheckText_validity
    (regexp_Compile : string -> option string)
    (regexp_Match : string -> string -> bool)
    (Quote QuoteAlt : string -> string) (what op got want : string) :
  let res := CheckText regexp_Compile regexp_Match Quote QuoteAlt what op got want in
  (snd res = true
   <-> (op ∈ ["~"; "!~"] /\ regexp_Compile want = None)
       \/ (op ∈ ["=="; "!="; "contains"; "!contains"] /\ want <> EmptyString))
  /\ (snd res = false -> fst res <> EmptyString).
Proof.
  cbv zeta.
  destruct (String.eqb op "~" || String.eqb op "!~") eqn:Hre.
  - assert (Hin : op ∈ ["~"; "!~"]).
    { apply orb_true_iff in Hre as [H|H]; apply String.eqb_eq in H; subst op;
        [left|right; left]. }
    assert (Hnot : op ∉ ["=="; "!="; "contains"; "!contains"]).
    { intros H. apply orb_true_iff in Hre as [E|E]; apply String.eqb_eq in E;
        subst op; repeat (apply elem_of_cons in H as [H|H]; [discriminate H|]);
        inversion H. }
    destruct (regexp_Compile want) as [err|] eqn:Hc.
    + unfold CheckText. rewrite Hre, Hc. cbn [fst snd]. split.
      * split; [discriminate|]. intros [[_ H]|[H _]]; [discriminate H|contradiction].
      * intros _. unfold compileError. apply CheckFacts.app_not_empty_l. discriminate.
    + rewrite (CheckText_regex _ _ _ _ _ _ _ _ Hc Hre). split.
      * split; [intros _; left; auto|intros _].
        destruct (String.eqb op "~"); apply pass_snd.
      * destruct (String.eqb op "~"); rewrite pass_snd; discriminate.
  - apply orb_false_iff in Hre as [H1 H2].
    assert (Hnot : op ∉ ["~"; "!~"]).
    { intros H. apply String.eqb_neq in H1, H2.
      repeat (apply elem_of_cons in H as [H|H]; [congruence|]). inversion H. }
    destruct want as [|c want'] eqn:Hw.
    + unfold CheckText. rewrite H1, H2. cbn [orb Str.isEmpty fst snd]. split.
      * split; [discriminate|]. intros [[H _]|[_ H]]; [contradiction|].
        contradiction H. reflexivity.
      * discriminate.
    + rewrite <- Hw. assert (Hwant : want <> "") by (rewrite Hw; discriminate).
      rewrite (CheckText_plain _ _ _ _ _ _ _ _ Hwant H1 H2).
      assert (Hknown : forall x : string,
                 x ∈ ["=="; "!="; "contains"; "!contains"] ->
                 (x ∈ ["~"; "!~"] /\ regexp_Compile want = None)
                 \/ (x ∈ ["=="; "!="; "contains"; "!contains"] /\ want <> ""))
        by (intros x Hx; right; split; assumption).
      destruct (String.eqb_spec op "==") as [->|E1].
      { rewrite pass_snd. split; [|discriminate].
        split; [intros _; apply Hknown; left|reflexivity]. }
      destruct (String.eqb_spec op "!=") as [->|E2].
      { rewrite pass_snd. split; [|discriminate].
        split; [intros _; apply Hknown; right; left|reflexivity]. }
      destruct (String.eqb_spec op "contains") as [->|E3].
      { rewrite pass_snd. split; [|discriminate].
        split; [intros _; apply Hknown; right; right; left|reflexivity]. }
      destruct (String.eqb_spec op "!contains") as [->|E4].
      { rewrite pass_snd. split; [|discriminate].
        split; [intros _; apply Hknown; right; right; right; left|reflexivity]. }
      cbn [fst snd]. split.
      * split; [discriminate|]. intros [[H _]|[H _]]; [contradiction|].
        repeat (apply elem_of_cons in H as [H|H]; [congruence|]). inversion H.
      * intros _. apply CheckFacts.app_not_empty_l. discriminate.
Qed.

Module IndentFacts.
Import Str StrFacts.

Lemma HasSuffix_NL_cons (c : ascii) (s : string) :
  HasSuffix (String c s) NL
  = if isEmpty s then Ascii.eqb c nl else HasSuffix s NL.
Proof.
  rewrite HasSuffix_cons. destruct s as [|c2 s]; cbn [isEmpty].
  - unfold NL. cbn [String.eqb]. rewrite orb_false_r.
    destruct (Ascii.eqb c nl); reflexivity.
  - unfold NL. cbn [String.eqb]. destruct (Ascii.eqb c nl); reflexivity.
Qed.

Lemma HasSuffix_NL_app (a b : string) :
  b <> EmptyString -> HasSuffix (a +:+ b) NL = HasSuffix b NL.
Proof.
  intros Hb. induction a as [|c a IH]; [reflexivity|].
  rewrite app_cons, HasSuffix_NL_cons, IH.
  destruct (a +:+ b) eqn:E; [|reflexivity].
  exfalso. exact (CheckFacts.app_not_empty_r a b Hb E).
Qed.

(** After the replacement every newline is followed by a tab, so the
    text does not end with one. *)
Lemma ReplaceAllByte_end (s : string) :
  HasSuffix (Str.ReplaceAllByte s nl newlineTab) NL = false.
Proof.
  induction s as [|c s IH]; [reflexivity|].
  cbn [Str.ReplaceAllByte].
  destruct (Str.ReplaceAllByte s nl newlineTab) as [|x r] eqn:E.
  - rewrite app_nil_r. destruct (Ascii.eqb c nl) eqn:Hc; [reflexivity|].
    rewrite HasSuffix_NL_cons. exact Hc.
  - rewrite HasSuffix_NL_app by discriminate. exact IH.
Qed.

Lemma lines_of_cons (c : ascii) (s : string) :
  lines_of (String c s)
  = if Ascii.eqb c nl then String c "" :: lines_of s
    else match lines_of s with
         | [] => [String c ""]
         | l :: ls => String c l :: ls
         end.
Proof. reflexivity. Qed.

Lemma ReplaceAllByte_lines (s : string) :
  Forall (fun l => head l = Some tab)
         (List.tl (lines_of (Str.ReplaceAllByte s nl newlineTab))).
Proof.
  unfold newlineTab. induction s as [|c s IH]; [constructor|].
  cbn [Str.ReplaceAllByte]. destruct (Ascii.eqb c nl) eqn:Hc.
  - rewrite !app_cons, app_nil_l, lines_of_cons.
    change (Ascii.eqb nl nl) with true. cbv iota. cbn [List.tl].
    rewrite lines_of_cons. change (Ascii.eqb tab nl) with false. cbv iota.
    destruct (lines_of (Str.ReplaceAllByte s nl (String nl (String tab ""))))
      as [|l ls] eqn:E.
    + repeat constructor.
    + constructor; [reflexivity|]. exact IH.
  - rewrite app_cons, app_nil_l, lines_of_cons, Hc.
    destruct (lines_of (Str.ReplaceAllByte s nl (String nl (String tab ""))))
      as [|l ls] eqn:E; [constructor|exact IH].
Qed.

Lemma ReplaceAllByte_id (s : string) (new : string) :
  IndexAny s NL = None -> Str.ReplaceAllByte s nl new = s.
Proof.
  induction s as [|c s IH]; intros H; [reflexivity|].
  apply SpaceFacts.IndexAny_None_cons in H as [Hc Hs].
  unfold NL in Hc. cbn [inSet] in Hc. rewrite orb_false_r in Hc.
  cbn [Str.ReplaceAllByte]. rewrite Hc, (IH Hs). reflexivity.
Qed.

Lemma TrimRight_id (s : string) :
  IndexAny s NL = None -> Str.TrimRight s NL = s.
Proof.
  induction s as [|c s IH]; intros H; [reflexivity|].
  apply SpaceFacts.IndexAny_None_cons in H as [Hc Hs].
  cbn [Str.TrimRight]. rewrite (IH Hs), Hc, andb_false_r. reflexivity.
Qed.

Lemma ReplaceAllByte_not_empty (s new : string) :
  s <> EmptyString -> new <> EmptyString ->
  Str.ReplaceAllByte s nl new <> EmptyString.
Proof.
  intros Hs Hnew. destruct s as [|c s]; [contradiction Hs; reflexivity|].
  cbn [Str.ReplaceAllByte]. apply CheckFacts.app_not_empty_l.
  destruct (Ascii.eqb c nl); [exact Hnew|discriminate].
Qed.

End IndentFacts.

(** X29.  The shape of [indentText]: its result is never empty and never
    ends with a newline, every line of it after the first starts with
    a tab, and a text that is not empty and holds no newline is
    returned as it is. *)
Theorem indentText_shape (text : string) :
  indentText text <> EmptyString
  /\ Str.HasSuffix (indentText text) Str.NL = false
  /\ Forall (fun l => Str.head l = Some Str.tab)
            (List.tl (lines_of (indentText text)))
  /\ (text <> EmptyString -> Str.IndexAny text Str.NL = None ->
      indentText text = text).
Proof.
  unfold indentText.
  destruct (Str.isEmpty text) eqn:He.
  { split; [discriminate|]. split; [reflexivity|]. split; [constructor|].
    intros H. destruct text; [contradiction H; reflexivity|discriminate He]. }
  destruct (String.eqb_spec text Str.NL) as [->|Hnl].
  { split; [discriminate|]. split; [reflexivity|]. split; [constructor|].
    intros _ H. discriminate H. }
  destruct (Str.isEmpty (Str.TrimRight text Str.NL)) eqn:Ht.
  { split; [discriminate|]. split; [reflexivity|]. split; [constructor|].
    intros _ H. rewrite (IndentFacts.TrimRight_id _ H) in Ht. congruence. }
  fold newlineTab.
  split; [|split; [|split]].
  - apply IndentFacts.ReplaceAllByte_not_empty; [|discriminate].
    intros E. rewrite E in Ht. discriminate Ht.
  - apply IndentFacts.ReplaceAllByte_end.
  - apply IndentFacts.ReplaceAllByte_lines.
  - intros _ H. rewrite (IndentFacts.TrimRight_id _ H).
    apply IndentFacts.ReplaceAllByte_id. exact H.
Qed.

(* ===================================================================== *)
(** * The package's own tests, replayed *)
(* ===================================================================== *)

(** The tables of [TestCutField], [TestParseArgs],
    [TestExpressionString] and [TestExpressionsCommentCapture] and the
    output of [ExampleExpand] of linebased_test.go, evaluated on the
    definitions above. *)

Module GoTests.
Import Scenario.

Example TestCutField :
  List.map cutField
    [ "hello world"; "hello" +:+ TAB +:+ "world"; "hello   world"; "hello"; "";
      "   "; TAB +:+ TAB +:+ TAB; " " +:+ TAB +:+ " " +:+ NL +:+ " ";
      "   hello world"; TAB +:+ TAB +:+ "hello world"; "hello world   ";
      "cmd   "; "hello world" +:+ NL +:+ "more";
      "cmd arg1" +:+ NL +:+ "arg2" +:+ NL;
      "hello" +:+ bytes [194; 160] +:+ "world";
      " " +:+ TAB +:+ " hello " +:+ TAB +:+ " world " +:+ NL +:+ " more ";
      bytes [226; 128; 128; 226; 128; 129; 226; 128; 130];
      bytes [226; 128; 139; 226; 128; 140; 226; 128; 141] ]
  = [ ("hello", "world"); ("hello", "world"); ("hello", "world"); ("hello", "");
      ("", ""); ("", ""); ("", ""); ("", "");
      ("hello", "world"); ("hello", "world"); ("hello", "world   ");
      ("cmd", ""); ("hello", "world" +:+ NL +:+ "more");
      ("cmd", "arg1" +:+ NL +:+ "arg2" +:+ NL);
      ("hello", "world");
      ("hello", "world " +:+ NL +:+ " more ");
      ("", "");
      (bytes [226; 128; 139; 226; 128; 140; 226; 128; 141], "") ].
Proof. vm_compute. reflexivity. Qed.

Example TestParseArgs :
  List.map (fun c => ParseArgs (snd c) (fst c))
    [ (-1, ""); (0, ""); (1, ""); (-1, "arg1 arg2"); (0, "arg1 arg2");
      (1, "arg1 arg2"); (2, "arg1 arg2"); (3, "arg1 arg2");
      (1, "arg1" +:+ TAB +:+ "arg2");
      (1, "arg1 arg2" +:+ TAB +:+ TAB +:+ TAB);
      (2, "arg1 arg2" +:+ TAB +:+ TAB +:+ TAB);
      (3, "arg1 arg2" +:+ TAB +:+ TAB +:+ TAB);
      (2, "arg1" +:+ NL +:+ TAB +:+ "arg2") ]
  = [ []; []; []; ["arg1"; "arg2"]; [];
      ["arg1 arg2"]; ["arg1"; "arg2"]; ["arg1"; "arg2"];
      ["arg1" +:+ TAB +:+ "arg2"];
      ["arg1 arg2" +:+ TAB +:+ TAB +:+ TAB];
      ["arg1"; "arg2" +:+ TAB +:+ TAB +:+ TAB];
      ["arg1"; "arg2"];
      ["arg1"; "arg2"] ].
Proof. vm_compute. reflexivity. Qed.

Example TestExpressionString :
  List.map (fun c => Expanded_String
                       {| Expr := {| Line := 0; Comment := "";
                                     Name := fst c; Body := snd c |};
                          File := ""; Stack := [] |})
    [ ("cmd", "arg1 arg2" +:+ NL); ("cmd", "arg1" +:+ TAB +:+ "arg2" +:+ NL);
      ("cmd", NL +:+ TAB +:+ "arg1 arg2" +:+ NL); ("", "arg1 arg2" +:+ NL);
      ("cmd", ""); ("cmd", "arg1"); ("cmd", NL +:+ "arg1");
      ("cmd", TAB +:+ "arg1"); ("greet", NL +:+ TAB +:+ "Alice") ]
  = [ "cmd arg1 arg2" +:+ NL; "cmd arg1" +:+ TAB +:+ "arg2" +:+ NL;
      "cmd" +:+ NL +:+ TAB +:+ "arg1 arg2" +:+ NL; " arg1 arg2" +:+ NL;
      "cmd" +:+ NL; "cmd arg1" +:+ NL; "cmd" +:+ NL +:+ "arg1" +:+ NL;
      "cmd arg1" +:+ NL; "greet" +:+ NL +:+ TAB +:+ "Alice" +:+ NL ].
Proof. vm_compute. reflexivity. Qed.

Example TestExpressionsCommentCapture :
  List.map (fun input =>
              List.map (fun e => (Line e, Name e, Comment e))
                       (Decoder_calls 8 (NewDecoder input)))
    [ "# first" +:+ NL +:+ "# second" +:+ NL +:+ "cmd tail" +:+ NL;
      "# heading" +:+ NL +:+ NL;
      "# first" +:+ NL +:+ "one tail" +:+ NL +:+ "two tail" +:+ NL
        +:+ "# third" +:+ NL +:+ "# comment" +:+ NL +:+ "three tail" +:+ NL ]
  = [ [ (3, "cmd", "# first" +:+ NL +:+ "# second" +:+ NL) ];
      [ (2, "", "# heading" +:+ NL) ];
      [ (2, "one", "# first" +:+ NL); (3, "two", "");
        (6, "three", "# third" +:+ NL +:+ "# comment" +:+ NL) ] ].
Proof. vm_compute. reflexivity. Qed.

Example ExampleExpand :
  (let '(es, stop) :=
     Expanding_stream 9 4
       (NewExpandingDecoder "example.lb" (MapFS [("example.lb", exampleScript)])) in
   (List.map Expanded_String es, stop))
  = ([ NL; "echo Hello, Alice!" +:+ NL; "echo Hello, Bob!" +:+ NL ],
     Some (Err io_EOF)).
Proof. vm_compute. reflexivity. Qed.

(** Three templates calling one another in a circle: the call of the
    first ends in the recursion error, whose message lists the chain. *)
Example circle_is_detected (Quote : string -> string) :
  match fst (Decode 5 (NewExpandingDecoder "m" (MapFS [("m", circleScript)]))) with
  | Err e => Error Quote e
  | _ => EmptyString
  end
  = "m:8: c@2: recursion detected in template a:" +:+ NL +:+
    "    m:8: main@8> a" +:+ NL +:+
    "    m:8: a@1> b x" +:+ NL +:+
    "    m:8: b@1> c x" +:+ NL +:+
    "    m:8: c@2> a".
Proof. vm_compute. reflexivity. Qed.

End GoTests.
